(** * SparseMatrix: a verification development

    Shallow embedding of [packages/runtime/sequence/src/sparsematrix.ts]:
    the two segment variants ([PaddingSegment], [RunSegment]), the row-major
    addressing functions and the [SparseMatrix] facade.

    Conventions.
    - A TypeScript [number] that the code uses as a position, a length or a
      row/column index is an integer-valued IEEE-754 double.  It is modelled
      as a [Z], and every arithmetic operation of the source is modelled by
      the exact integer operation followed by the rounding to the nearest
      double (ties to even), written out in [Number].  On safe integers
      (magnitude at most 2^53) the rounding is the identity.
    - A method that mutates [this] is a computation in the state-and-exception
      monad [M]: it returns an outcome together with the state of the object
      when it returned or threw.
    - An optional field or argument ([seq?], [props?]) is an [option]. *)

From Stdlib Require Import ZArith Lia.
From Stdlib Require Import Floats.SpecFloat.
From stdpp Require Import base option list strings gmap.

Local Open Scope Z_scope.

(** ** JavaScript numbers restricted to integer values *)

Module Number.

(** [Number.MAX_SAFE_INTEGER] *)
Definition MAX_SAFE_INTEGER : Z := 2 ^ 53 - 1.

(** Nearest integer to the rational [n / d] (for [0 < d]), ties to even. *)
Definition round_half_even (n d : Z) : Z :=
  let q := n / d in
  match 2 * (n mod d) ?= d with
  | Lt => q
  | Gt => q + 1
  | Eq => if Z.even q then q else q + 1
  end.

(** Exponent of the unit in the last place of the double nearest to the
    integer [z]: doubles carry 53 significant bits. *)
Definition ulp_exponent (z : Z) : Z := Z.max 0 (Z.log2 (Z.abs z) - 52).

(** The double nearest to the integer [z] (round to nearest, ties to even).
    Magnitudes stay far below 2^1024 here, so overflow to Infinity is not
    modelled. *)
Definition to_number (z : Z) : Z :=
  let e := ulp_exponent z in
  Z.sgn z * (round_half_even (Z.abs z) (2 ^ e) * 2 ^ e).

(** [a + b], [a - b], [a * b] on doubles holding integers. *)
Definition add (a b : Z) : Z := to_number (a + b).
Definition sub (a b : Z) : Z := to_number (a - b).
Definition mul (a b : Z) : Z := to_number (a * b).

(** floor (log2 (p / d)) for [0 < p] and [0 < d]. *)
Definition quotient_log2 (p d : Z) : Z :=
  let k := Z.log2 p - Z.log2 d in
  if (if 0 <=? k then p <? d * 2 ^ k else p * 2 ^ (- k) <? d)
  then k - 1 else k.

(** [Math.floor(p / d)] for doubles [p] and [d] holding integers, [0 < d]:
    the quotient is first rounded to 53 significant bits (mantissa [n],
    exponent [e]), then floored. *)
Definition floor_div (p d : Z) : Z :=
  if p =? 0 then 0 else
  let e := quotient_log2 (Z.abs p) d - 52 in
  let n := if 0 <=? e then round_half_even (Z.abs p) (d * 2 ^ e)
           else round_half_even (Z.abs p * 2 ^ (- e)) d in
  let sn := Z.sgn p * n in
  if 0 <=? e then sn * 2 ^ e else sn / 2 ^ (- e).

(** The same operations through the IEEE-754 binary64 specification of the
    Standard Library, used to cross-check the definitions above. *)
Definition of_Z (z : Z) : spec_float := binary_normalize 53 1024 z 0 false.

Definition floor_SF (x : spec_float) : option Z :=
  match x with
  | S754_zero _ => Some 0
  | S754_finite s m e =>
      let v := if s then Z.neg m else Z.pos m in
      Some (if 0 <=? e then v * 2 ^ e else v / 2 ^ (- e))
  | _ => None
  end.

Definition add_SF (a b : Z) : option Z := floor_SF (SFadd 53 1024 (of_Z a) (of_Z b)).
Definition sub_SF (a b : Z) : option Z := floor_SF (SFsub 53 1024 (of_Z a) (of_Z b)).
Definition mul_SF (a b : Z) : option Z := floor_SF (SFmul 53 1024 (of_Z a) (of_Z b)).
Definition floor_div_SF (a b : Z) : option Z := floor_SF (SFdiv 53 1024 (of_Z a) (of_Z b)).

End Number.

(** ** Position addressing (sparsematrix.ts, lines 170-186) *)

Definition maxCol : Z := 0x200000.
Definition maxCols : Z := Number.add maxCol 1.

Definition maxRow : Z := 0xFFFFFFFF.
Definition maxRows : Z := Number.add maxRow 1.

Definition maxCellPosition : Z := Number.mul maxCol maxRow.

Definition rowColToPosition (row col : Z) : Z :=
  Number.add (Number.mul row maxCols) col.

Record RowCol := { row : Z; col : Z }.

Definition positionToRowCol (position : Z) : RowCol :=
  let row := Number.floor_div position maxCols in
  let col := Number.sub position (Number.mul row maxCols) in
  {| row := row; col := col |}.

(** ** Errors and the state-and-exception monad *)

(** The three [throw new Error(...)] sites of the file, named as in the
    specification, and the [TypeError] the runtime raises when a property of
    [undefined] is read. *)
Inductive Error :=
  | InvalidAppend         (* "can only append padding segment" *)
  | UnrecognizedSegment   (* "Unrecognized Segment type" / "Unrecognized IJSONObject" *)
  | InvalidTagTarget      (* "Must not attempt to set tags on ..." *)
  | TypeError.

Inductive outcome (A : Type) :=
  | Return (a : A)
  | Throw (e : Error).
Arguments Return {A} a.
Arguments Throw {A} e.

(** A method running on a mutable object of type [S]: its outcome and the
    object as the method left it (also when it threw). *)
Definition M (S A : Type) : Type := S -> outcome A * S.

#[global] Instance M_ret {S} : MRet (M S) := fun A a s => (Return a, s).
#[global] Instance M_bind {S} : MBind (M S) := fun A B f c s =>
  match c s with
  | (Return a, s') => f a s'
  | (Throw e, s') => (Throw e, s')
  end.

Definition throw {S A} (e : Error) : M S A := fun s => (Throw e, s).
Definition get {S} : M S S := fun s => (Return s, s).
Definition put {S} (s : S) : M S unit := fun _ => (Return tt, s).
Definition modify {S} (f : S -> S) : M S unit := fun s => (Return tt, f s).

(** The object after the method, and what the method returned. *)
Definition exec {S A} (c : M S A) (s : S) : S := snd (c s).
Definition eval {S A} (c : M S A) (s : S) : outcome A := fst (c s).

(** ** Cell values, tags and property sets *)

(** [type UnboxedOper = undefined | boolean | number | string] *)
Inductive UnboxedOper :=
  | Undefined
  | Boolean (b : bool)
  | Numeric (x : spec_float)
  | Text (s : string).

(** Tags and property values have type [any]; the model restricts them to the
    primitive values, of which only [undefined] is ever inspected. *)
Abbreviation any := UnboxedOper (only parsing).

Definition is_undefined (v : any) : bool :=
  match v with Undefined => true | _ => false end.

Abbreviation PropertySet := (gmap string any) (only parsing).

(** ** JavaScript arrays *)

Module Array.

Section Generic.
Context {A : Type}.

(** The relative index of [slice] and [splice]: a negative index counts
    from the end, and the result is clamped to [0, len]. *)
Definition relative_index (len : nat) (k : Z) : nat :=
  if k <? 0 then Z.to_nat (Z.max (Z.of_nat len + k) 0)
  else Z.to_nat (Z.min k (Z.of_nat len)).

(** [l.slice(start, end)]; [None] is an omitted [end]. *)
Definition slice (l : list A) (start : Z) (end_ : option Z) : list A :=
  let len := length l in
  let k := relative_index len start in
  let final := match end_ with
               | None => len
               | Some e => relative_index len e
               end in
  take (final - k)%nat (drop k l).

(** [l.splice(start, deleteCount, ...new)]: the array after the call. *)
Definition splice (l : list A) (start deleteCount : Z) (new : list A) : list A :=
  let len := length l in
  let k := relative_index len start in
  let dc := Z.to_nat (Z.min (Z.max deleteCount 0) (Z.of_nat (len - k))) in
  take k l ++ new ++ drop (k + dc)%nat l.
End Generic.

(** [new Array(n).fill(undefined)] *)
Definition fill_undefined (n : nat) : list any := replicate n Undefined.

(** [l[i]]: a missing element reads as [undefined].  (A negative [i] is
    no array index: the source then reads a plain property, which a list
    does not have; it reads as [undefined] here.) *)
Definition get (l : list any) (i : Z) : any :=
  if i <? 0 then Undefined else default Undefined (l !! Z.to_nat i).

(** [l[i] = v]: past the end the array grows, the gap reading as
    [undefined].  (A negative [i] adds a property and no element.  So does
    an [i] from [max_length] on, which is no array index either; the
    definition is that of the assignment for [0 <= i < max_length].) *)
Definition set (l : list any) (i : Z) (v : any) : list any :=
  if i <? 0 then l
  else if i <? Z.of_nat (length l) then <[Z.to_nat i := v]> l
  else l ++ replicate (Z.to_nat i - length l) Undefined ++ [v].

(** [l.length = n]: truncates, or grows with elements that read as
    [undefined].  (For [n] above [max_length] the source raises a
    [RangeError]; the definition is that of the assignment for
    [0 <= n <= max_length].) *)
Definition set_length (l : list any) (n : Z) : list any :=
  take (Z.to_nat n) l ++ replicate (Z.to_nat n - length l) Undefined.

(** The largest length of an array, [2^32 - 1]; the array indices are the
    integers of [0, max_length). *)
Definition max_length : Z := 2 ^ 32 - 1.

End Array.

(** ** Segments *)

(** The state a segment inherits from the merge tree's [BaseSegment]:
    its length, its provenance, its properties, and the offsets of the local
    references pinned into it. *)
Record BaseSegment := mkBase {
  cachedLength : Z;
  seq : option Z;
  clientId : option Z;
  properties : option PropertySet;
  localRefs : list Z;
}.

Definition set_cachedLength (n : Z) (b : BaseSegment) : BaseSegment :=
  mkBase n (seq b) (clientId b) (properties b) (localRefs b).

(** Modelled from the spec: [BaseSegment.addProperties] of the merge-tree
    package is not part of the sources; it merges the given properties into
    the segment's property set ("tagged with properties if given"), the new
    binding winning on a shared key. *)
Definition addProperties (newProps : PropertySet) (b : BaseSegment) : BaseSegment :=
  mkBase (cachedLength b) (seq b) (clientId b)
         (Some (newProps ∪ default ∅ (properties b))) (localRefs b).

(** Modelled from the spec: [BaseSegment.cloneInto] of the merge-tree package
    is not part of the sources; "properties are copied via the base clone
    hook", together with the provenance. *)
Definition cloneInto (this b : BaseSegment) : BaseSegment :=
  mkBase (cachedLength b) (seq this) (clientId this) (properties this) (localRefs b).

(** Modelled from the spec: [BaseSegment.appendLocalRefs] of the merge-tree
    package is not part of the sources; it must "rebase any local references
    carried by other by the current length". *)
Definition appendLocalRefs (other this : BaseSegment) : BaseSegment :=
  mkBase (cachedLength this) (seq this) (clientId this) (properties this)
         (localRefs this ++ map (fun off => Number.add (cachedLength this) off) (localRefs other)).

(** [class PaddingSegment extends BaseSegment]: no state of its own. *)
Record PaddingSegment := mkPadding {
  pad_base : BaseSegment;
}.

(** [class RunSegment extends SubSequence<UnboxedOper>] *)
Record RunSegment := mkRun {
  run_base : BaseSegment;
  items : list UnboxedOper;
  tags : list any;
}.

(** [type MatrixSegment = RunSegment | PaddingSegment] *)
Inductive MatrixSegment :=
  | Padding (p : PaddingSegment)
  | Run (r : RunSegment).

(** [ISegment]: a matrix segment, or a segment of any other class of the
    merge tree, whose [type] string is neither of the two. *)
Inductive ISegment :=
  | Matrix (s : MatrixSegment)
  | Foreign (b : BaseSegment).

Definition base (s : MatrixSegment) : BaseSegment :=
  match s with
  | Padding p => pad_base p
  | Run r => run_base r
  end.

Definition ibase (s : ISegment) : BaseSegment :=
  match s with
  | Matrix s => base s
  | Foreign b => b
  end.

(** The serialized form of a segment ([IJSONSegment]): an object with the
    optional keys [pad], [items] and [props]. *)
Record JSONSegment := mkJSON {
  json_pad : option Z;
  json_items : option (list UnboxedOper);
  json_props : option PropertySet;
}.

(** Constants of the merge-tree package, imported by the source. *)
Class MergeTreeConstants := {
  UniversalSequenceNumber : Z;
  LocalClientId : Z;
}.

(** *** PaddingSegment (sparsematrix.ts, lines 25-90) *)

Definition PaddingSegment_is (segment : ISegment) : bool :=
  match segment with
  | Matrix (Padding _) => true
  | _ => false
  end.

(** [constructor(size, seq?, clientId?)] *)
Definition new_PaddingSegment (size : Z) (seq clientId : option Z) : PaddingSegment :=
  mkPadding (mkBase size seq clientId None []).

(** [spec] is [None] when the argument is not an object. *)
Definition PaddingSegment_fromJSONObject `{MergeTreeConstants}
    (spec : option JSONSegment) : option PaddingSegment :=
  match spec with
  | Some spec =>
      match json_pad spec with
      | Some pad =>
          let segment := new_PaddingSegment pad (Some UniversalSequenceNumber) (Some LocalClientId) in
          match json_props spec with
          | Some props => Some (mkPadding (addProperties props (pad_base segment)))
          | None => Some segment
          end
      | None => None
      end
  | None => None
  end.

Definition PaddingSegment_toJSONObject (this : PaddingSegment) : JSONSegment :=
  mkJSON (Some (cachedLength (pad_base this))) None (properties (pad_base this)).

(** [clone(start = 0, end?)] *)
Definition PaddingSegment_clone (this : PaddingSegment) (start : Z) (end_ : option Z)
    : PaddingSegment :=
  let b := new_PaddingSegment (cachedLength (pad_base this))
                              (seq (pad_base this)) (clientId (pad_base this)) in
  mkPadding (cloneInto (pad_base this) (pad_base b)).

Definition PaddingSegment_canAppend (this : PaddingSegment) (segment : ISegment) : bool :=
  PaddingSegment_is segment.

Definition PaddingSegment_append (segment : ISegment) : M PaddingSegment unit :=
  if negb (PaddingSegment_is segment) then throw InvalidAppend
  else
    modify (fun this => mkPadding (appendLocalRefs (ibase segment) (pad_base this)));;
    modify (fun this =>
      mkPadding (set_cachedLength
                   (Number.add (cachedLength (pad_base this)) (cachedLength (ibase segment)))
                   (pad_base this))).

(** Returns [true] if the entire run was removed. *)
Definition PaddingSegment_removeRange (start end_ : Z) : M PaddingSegment bool :=
  modify (fun this =>
    mkPadding (set_cachedLength
                 (Number.sub (cachedLength (pad_base this)) (Number.sub end_ start))
                 (pad_base this)));;
  this ← get;
  mret (cachedLength (pad_base this) =? 0).

Definition PaddingSegment_createSplitSegmentAt (pos : Z) : M PaddingSegment PaddingSegment :=
  this ← get;
  let leftLength := pos in
  let rightLength := Number.sub (cachedLength (pad_base this)) pos in
  put (mkPadding (set_cachedLength leftLength (pad_base this)));;
  mret (new_PaddingSegment rightLength (seq (pad_base this)) (clientId (pad_base this))).

(** *** RunSegment (sparsematrix.ts, lines 92-166) *)

Definition RunSegment_is (segment : ISegment) : bool :=
  match segment with
  | Matrix (Run _) => true
  | _ => false
  end.

(** Modelled from the spec: the constructor of the base class [SubSequence]
    is not part of the sources; it records the values and sets the length to
    their number ("values.length == tags.length == length"). *)
Definition new_SubSequence (items : list UnboxedOper) (seq clientId : option Z) : BaseSegment :=
  mkBase (Z.of_nat (length items)) seq clientId None [].

(** [constructor(items, seq?, clientId?)] *)
Definition new_RunSegment (items : list UnboxedOper) (seq clientId : option Z) : RunSegment :=
  mkRun (new_SubSequence items seq clientId)
        items
        (Array.fill_undefined (length items)).

Definition RunSegment_fromJSONObject `{MergeTreeConstants}
    (spec : option JSONSegment) : option RunSegment :=
  match spec with
  | Some spec =>
      match json_items spec with
      | Some spec_items =>
          let segment := new_RunSegment spec_items (Some UniversalSequenceNumber) (Some LocalClientId) in
          match json_props spec with
          | Some props =>
              Some (mkRun (addProperties props (run_base segment)) (items segment) (tags segment))
          | None => Some segment
          end
      | None => None
      end
  | None => None
  end.

(** Modelled from the spec: [SubSequence.toJSONObject] is not part of the
    sources; the serialized form of a run is "{ items: <ordered cell values>,
    properties? }", and tags are never included. *)
Definition RunSegment_toJSONObject (this : RunSegment) : JSONSegment :=
  mkJSON None (Some (items this)) (properties (run_base this)).

(** [clone(start = 0, end?)] *)
Definition RunSegment_clone (this : RunSegment) (start : Z) (end_ : option Z) : RunSegment :=
  let b := new_RunSegment (Array.slice (items this) start end_)
                          (seq (run_base this)) (clientId (run_base this)) in
  let b := mkRun (run_base b) (items b) (Array.slice (tags this) start end_) in
  mkRun (cloneInto (run_base this) (run_base b)) (items b) (tags b).

(** Modelled from the spec: [SubSequence.append] is not part of the sources;
    it "requires other be a run segment (enforced by the base capability
    before this method's logic runs)" and "concatenates values"; the local
    references of the other segment are rebased first, as for padding. *)
Definition SubSequence_append (segment : ISegment) : M RunSegment unit :=
  match segment with
  | Matrix (Run other) =>
      modify (fun this => mkRun (appendLocalRefs (run_base other) (run_base this))
                                (items this) (tags this));;
      modify (fun this =>
        let items' := items this ++ items other in
        mkRun (set_cachedLength (Z.of_nat (length items')) (run_base this)) items' (tags this))
  | _ => throw InvalidAppend
  end.

(** [append(segment)]; the source returns [this].  For an argument that is
    not a run, [asRun.tags] is [undefined] and nothing is spliced. *)
Definition RunSegment_append (segment : ISegment) : M RunSegment unit :=
  SubSequence_append segment;;
  match segment with
  | Matrix (Run asRun) =>
      modify (fun this =>
        mkRun (run_base this) (items this)
              (Array.splice (tags this) (Z.of_nat (length (items this))) 0 (tags asRun)))
  | _ => mret tt
  end.

(** Modelled from the spec: [SubSequence.removeRange] is not part of the
    sources; the base contract removes the values of [start, end), updates
    the length and "returns true iff resulting length is zero". *)
Definition SubSequence_removeRange (start end_ : Z) : M RunSegment bool :=
  modify (fun this =>
    let items' := Array.splice (items this) start (Number.sub end_ start) [] in
    mkRun (set_cachedLength (Z.of_nat (length items')) (run_base this)) items' (tags this));;
  this ← get;
  mret (Z.of_nat (length (items this)) =? 0).

(** Returns [true] if the entire run was removed. *)
Definition RunSegment_removeRange (start end_ : Z) : M RunSegment bool :=
  modify (fun this =>
    mkRun (run_base this) (items this)
          (Array.splice (tags this) start (Number.sub end_ start) []));;
  SubSequence_removeRange start end_.

Definition RunSegment_getTag (this : RunSegment) (pos : Z) : any :=
  Array.get (tags this) pos.

Definition RunSegment_setTag (pos : Z) (tag : any) : M RunSegment unit :=
  modify (fun this => mkRun (run_base this) (items this) (Array.set (tags this) pos tag)).

(** Returns [None] ([undefined]) and leaves the segment alone unless
    [pos > 0]. *)
Definition RunSegment_createSplitSegmentAt (pos : Z) : M RunSegment (option RunSegment) :=
  if 0 <? pos then
    this ← get;
    let remainingItems := Array.slice (items this) pos None in
    let items' := Array.slice (items this) 0 (Some pos) in
    put (mkRun (set_cachedLength (Z.of_nat (length items')) (run_base this)) items' (tags this));;
    let leafSegment := new_RunSegment remainingItems (seq (run_base this)) (clientId (run_base this)) in
    let leafSegment := mkRun (run_base leafSegment) (items leafSegment)
                             (Array.slice (tags this) pos None) in
    modify (fun this => mkRun (run_base this) (items this) (Array.set_length (tags this) pos));;
    mret (Some leafSegment)
  else mret None.

(** ** The sequence engine

    The merge tree ([client]) and the base class [SharedSegmentSequence] are
    not part of the sources.  The specification gives their interface:
    [locate(position) -> (segment, offset)],
    [insertAt(position, segment) -> optional descriptor],
    [removeRange(start, end)], [replaceRange(start, end, newSegment)], over a
    live, ordered chain of segments whose lengths sum to the total linear
    extent; the engine splits, shortens and detaches segments through the
    capability each variant supplies.  The model is the local, single-author
    chain, with exact position arithmetic; the submission of operations to
    the network leaves the chain unchanged and is not modelled. *)

(** Modelled from the spec: the [length] of the per-segment contract, which
    the merge tree reads from [cachedLength]. *)
Definition segmentLength (s : MatrixSegment) : Z := cachedLength (base s).

(** Modelled from the spec: [client.getLength()] of the merge tree; "the sum
    of length over the live, ordered segment chain equals the matrix's total
    linear extent". *)
Fixpoint getLength (chain : list MatrixSegment) : Z :=
  match chain with
  | [] => 0
  | s :: chain' => segmentLength s + getLength chain'
  end.

(** Modelled from the spec: what [BaseSegment.splitAt] of the merge tree
    adds to the [createSplitSegmentAt] of a variant; the sibling receives a
    copy of the properties, and the local references at or after the split
    point are rebased onto it. *)
Definition splitBase (pos : Z) (original leftSeg rightSeg : BaseSegment)
    : BaseSegment * BaseSegment :=
  (mkBase (cachedLength leftSeg) (seq leftSeg) (clientId leftSeg) (properties leftSeg)
          (filter (fun off => off < pos) (localRefs original)),
   mkBase (cachedLength rightSeg) (seq rightSeg) (clientId rightSeg) (properties original)
          (map (fun off => off - pos) (filter (fun off => pos <= off) (localRefs original)))).

(** Modelled from the spec: [BaseSegment.splitAt] of the merge tree; "this
    segment is mutated to length pos; a new sibling is returned, inheriting
    provenance", through the [createSplitSegmentAt] of the variant. *)
Definition splitAt (pos : Z) (s : MatrixSegment) : MatrixSegment * option MatrixSegment :=
  if 0 <? pos then
    match s with
    | Padding p =>
        match PaddingSegment_createSplitSegmentAt pos p with
        | (Return leaf, p') =>
            let '(l, r) := splitBase pos (pad_base p) (pad_base p') (pad_base leaf) in
            (Padding (mkPadding l), Some (Padding (mkPadding r)))
        | (Throw _, p') => (Padding p', None)
        end
    | Run r =>
        match RunSegment_createSplitSegmentAt pos r with
        | (Return (Some leaf), r') =>
            let '(lb, rb) := splitBase pos (run_base r) (run_base r') (run_base leaf) in
            (Run (mkRun lb (items r') (tags r')), Some (Run (mkRun rb (items leaf) (tags leaf))))
        | (_, r') => (Run r', None)
        end
    end
  else (s, None).

(** Modelled from the spec: the dispatch of the per-segment [removeRange]
    to the variant; the segment afterwards, and the flag telling the engine
    to detach it. *)
Definition segment_removeRange (start end_ : Z) (s : MatrixSegment) : bool * MatrixSegment :=
  match s with
  | Padding p =>
      match PaddingSegment_removeRange start end_ p with
      | (Return detach, p') => (detach, Padding p')
      | (Throw _, p') => (false, Padding p')
      end
  | Run r =>
      match RunSegment_removeRange start end_ r with
      | (Return detach, r') => (detach, Run r')
      | (Throw _, r') => (false, Run r')
      end
  end.

(** Modelled from the spec: [locate(position) -> (segment, offset)]; the
    index of the segment holding [pos] in the chain (the handle through
    which the caller reaches the live segment) and the offset of [pos]
    inside it; [None] when no segment holds [pos]. *)
Fixpoint locate (chain : list MatrixSegment) (pos : Z) : option (nat * Z) :=
  match chain with
  | [] => None
  | s :: chain' =>
      if pos <? segmentLength s then Some (0%nat, pos)
      else match locate chain' (pos - segmentLength s) with
           | Some (i, offset) => Some (S i, offset)
           | None => None
           end
  end.

(** Modelled from the spec: [getContainingSegment] of
    [SharedSegmentSequence], the [locate] of the interface.  The interface
    does not say what a negative position gives; it finds no segment
    here. *)
Definition getContainingSegment (chain : list MatrixSegment) (pos : Z) : option (nat * Z) :=
  if pos <? 0 then None else locate chain pos.

(** Modelled from the spec: [insertAt(position, segment) -> optional
    descriptor]; the chain with [segment] starting at [pos], the segment
    holding [pos] being split there; [None] (no descriptor, nothing
    inserted) when [pos] lies outside [0, length]. *)
Fixpoint insertAt (chain : list MatrixSegment) (pos : Z) (segment : MatrixSegment)
    : option (list MatrixSegment) :=
  match chain with
  | [] => if pos =? 0 then Some [segment] else None
  | s :: chain' =>
      if pos =? 0 then Some (segment :: chain)
      else if pos <? segmentLength s then
        match splitAt pos s with
        | (leftSeg, Some rightSeg) => Some (leftSeg :: segment :: rightSeg :: chain')
        | (_, None) => None
        end
      else cons s <$> insertAt chain' (pos - segmentLength s) segment
  end.

(** Modelled from the spec: [client.insertSegmentLocal] of the merge tree,
    the [insertAt] of the interface. *)
Definition insertSegmentLocal (chain : list MatrixSegment) (pos : Z) (segment : MatrixSegment)
    : option (list MatrixSegment) :=
  if pos <? 0 then None else insertAt chain pos segment.

(** Modelled from the spec: [removeRange(start, end)]; every segment gives
    up the part of [start, end) it holds, and is detached when nothing of it
    is left. *)
Fixpoint removeRange (chain : list MatrixSegment) (start end_ : Z) : list MatrixSegment :=
  match chain with
  | [] => []
  | s :: chain' =>
      let len := segmentLength s in
      let rest := removeRange chain' (start - len) (end_ - len) in
      let localStart := Z.max start 0 in
      let localEnd := Z.min end_ len in
      if localStart <? localEnd then
        let '(detach, s') := segment_removeRange localStart localEnd s in
        if detach : bool then rest else s' :: rest
      else s :: rest
  end.

(** Modelled from the spec: [replaceRange(start, end, newSegment)], which
    "replaces the existing range [start, end) with" the new segment. *)
Definition replaceRange (chain : list MatrixSegment) (start end_ : Z) (segment : MatrixSegment)
    : list MatrixSegment :=
  let removed := removeRange chain start end_ in
  match insertSegmentLocal removed start segment with
  | Some chain' => chain'
  | None => removed
  end.

(** ** The matrix facade (sparsematrix.ts, lines 188-377) *)

(** The facade "holds only an identity and a handle to the sequence
    engine". *)
Record SparseMatrix := mkMatrix {
  id : string;
  client : list MatrixSegment;
}.

Definition set_client (chain : list MatrixSegment) (this : SparseMatrix) : SparseMatrix :=
  mkMatrix (id this) chain.

(** [get numRows()] *)
Definition numRows (this : SparseMatrix) : Z :=
  row (positionToRowCol (getLength (client this))).

Definition setItems (row col : Z) (values : list UnboxedOper) (props : option PropertySet)
    (this : SparseMatrix) : SparseMatrix :=
  let start := rowColToPosition row col in
  let end_ := Number.add start (Z.of_nat (length values)) in
  let segment := new_RunSegment values None None in
  let segment := match props with
                 | Some props => mkRun (addProperties props (run_base segment))
                                       (items segment) (tags segment)
                 | None => segment
                 end in
  set_client (replaceRange (client this) start end_ (Run segment)) this.

(** The segment holding the position, read through its handle; when no
    segment holds it the source reads [segment.type] of [undefined]. *)
Definition getSegment (row col : Z) : M SparseMatrix (nat * MatrixSegment * Z) :=
  this ← get;
  let pos := rowColToPosition row col in
  match getContainingSegment (client this) pos with
  | Some (i, offset) =>
      match client this !! i with
      | Some segment => mret (i, segment, offset)
      | None => throw TypeError
      end
  | None => throw TypeError
  end.

(** The chain holds matrix segments only, so the final [throw] of the source
    ("Unrecognized Segment type") has no case here. *)
Definition getItem (row col : Z) : M SparseMatrix UnboxedOper :=
  '(_, segment, offset) ← getSegment row col;
  match segment with
  | Run segment => mret (Array.get (items segment) offset)
  | Padding _ => mret Undefined
  end.

Definition getTag (row col : Z) : M SparseMatrix any :=
  '(_, segment, offset) ← getSegment row col;
  match segment with
  | Run segment => mret (RunSegment_getTag segment offset)
  | Padding _ => mret Undefined
  end.

(** [segment.setTag] mutates the segment the chain holds. *)
Definition setTag (row col : Z) (tag : any) : M SparseMatrix unit :=
  '(i, segment, offset) ← getSegment row col;
  match segment with
  | Run segment =>
      modify (fun this =>
        set_client (<[i := Run (exec (RunSegment_setTag offset tag) segment)]> (client this)) this)
  | Padding _ =>
      if negb (is_undefined tag) then throw InvalidTagTarget else mret tt
  end.

Definition insertRows (row numRows : Z) (this : SparseMatrix) : SparseMatrix :=
  let pos := rowColToPosition row 0 in
  let size := Number.mul maxCols numRows in
  let segment := new_PaddingSegment size None None in
  match insertSegmentLocal (client this) pos (Padding segment) with
  | Some chain' => set_client chain' this
  | None => this
  end.

Definition removeRows (row numRows : Z) (this : SparseMatrix) : SparseMatrix :=
  let pos := rowColToPosition row 0 in
  let size := Number.mul maxCols numRows in
  set_client (removeRange (client this) pos (Number.add pos size)) this.

(** The loop of [moveAsPadding], one row per iteration; [this.numRows] is
    read again before every iteration.  [None]: the loop did not finish
    within [fuel] iterations. *)
Fixpoint moveAsPadding_rows `{MergeTreeConstants} (fuel : nat)
    (removeColStart removeColEnd destCol numCols : Z) (r rowStart : Z)
    (this : SparseMatrix) : option SparseMatrix :=
  if r <? numRows this then
    match fuel with
    | O => None
    | S fuel' =>
        let this := set_client (removeRange (client this)
                                  (Number.add rowStart removeColStart)
                                  (Number.add rowStart removeColEnd)) this in
        let insertPos := Number.add rowStart destCol in
        let segment := new_PaddingSegment numCols (Some UniversalSequenceNumber) (Some LocalClientId) in
        let this := match insertSegmentLocal (client this) insertPos (Padding segment) with
                    | Some chain' => set_client chain' this
                    | None => this
                    end in
        moveAsPadding_rows fuel' removeColStart removeColEnd destCol numCols
                           (Number.add r 1) (Number.add rowStart maxCols) this
    end
  else Some this.

Definition moveAsPadding `{MergeTreeConstants} (fuel : nat) (srcCol destCol numCols : Z)
    (this : SparseMatrix) : option SparseMatrix :=
  let removeColStart := srcCol in
  let removeColEnd := Number.add srcCol numCols in
  moveAsPadding_rows fuel removeColStart removeColEnd destCol numCols 0 0 this.

Definition insertCols `{MergeTreeConstants} (fuel : nat) (col numCols : Z)
    (this : SparseMatrix) : option SparseMatrix :=
  moveAsPadding fuel (Number.sub maxCol numCols) col numCols this.

Definition removeCols `{MergeTreeConstants} (fuel : nat) (col numCols : Z)
    (this : SparseMatrix) : option SparseMatrix :=
  moveAsPadding fuel col (Number.sub maxCol numCols) numCols this.

Definition segmentFromSpec `{MergeTreeConstants} (spec : option JSONSegment)
    : outcome MatrixSegment :=
  match PaddingSegment_fromJSONObject spec with
  | Some maybePadding => Return (Padding maybePadding)
  | None =>
      match RunSegment_fromJSONObject spec with
      | Some maybeRun => Return (Run maybeRun)
      | None => Throw UnrecognizedSegment
      end
  end.

(** ** Invariants and the abstract view of a chain *)

(** The invariant of a run in the data model:
    "values.length == tags.length == length". *)
Definition run_invariant (r : RunSegment) : bool :=
  (cachedLength (run_base r) =? Z.of_nat (length (items r)))
  && (Z.of_nat (length (tags r)) =? Z.of_nat (length (items r))).

(** A segment of the chain: its length is a non-negative safe integer, and
    a run satisfies its invariant. *)
Definition wf_segment (s : MatrixSegment) : bool :=
  match s with
  | Padding p =>
      (0 <=? cachedLength (pad_base p))
      && (cachedLength (pad_base p) <=? Number.MAX_SAFE_INTEGER)
  | Run r =>
      run_invariant r && (cachedLength (run_base r) <=? Number.MAX_SAFE_INTEGER)
  end.

(** A chain whose segments satisfy the invariant and whose total linear
    extent is a safe integer. *)
Definition wf_chain (chain : list MatrixSegment) : bool :=
  forallb wf_segment chain && (getLength chain <=? Number.MAX_SAFE_INTEGER).

Definition well_formed (this : SparseMatrix) : bool := wf_chain (client this).

(** The cells a segment and a chain stand for, in linear order: padding
    stands for empty cells. *)
Definition segmentCells (s : MatrixSegment) : list UnboxedOper :=
  match s with
  | Padding p => replicate (Z.to_nat (cachedLength (pad_base p))) Undefined
  | Run r => items r
  end.

Definition cells (chain : list MatrixSegment) : list UnboxedOper :=
  chain ≫= segmentCells.

(** The cell at a linear position; [None] outside the extent. *)
Definition cellAt (chain : list MatrixSegment) (pos : Z) : option UnboxedOper :=
  if pos <? 0 then None else cells chain !! Z.to_nat pos.

(** A matrix no cell of which was ever written: padding only. *)
Definition blank (this : SparseMatrix) : bool :=
  forallb (fun s => match s with Padding _ => true | Run _ => false end) (client this).

(** The cell at linear position [q] once rows [k], ..., [R - 1] have each
    received [n] empty columns at column [c], taken from the [n] columns
    below [maxCol]: what [insertCols] is meant to leave behind. *)
Definition cellAfterInsertCols (chain : list MatrixSegment) (c n k R : Z) (q : Z)
    : option UnboxedOper :=
  let r := q / maxCols in
  let col := q mod maxCols in
  if (0 <=? q) && (k <=? r) && (r <? R) then
    if col <? c then cellAt chain q
    else if col <? c + n then Some Undefined
    else if col <? maxCol then cellAt chain (q - n)
    else cellAt chain q
  else cellAt chain q.

(** The values of the two constants in the merge-tree package, for the
    concrete runs below. *)
Definition mergeTreeConstants : MergeTreeConstants :=
  {| UniversalSequenceNumber := 0; LocalClientId := -1 |}.

(** Modelled from the spec: [canAppend] of a run is inherited from the base
    classes, which are not part of the sources; [append] "requires other be
    a run segment". *)
Definition RunSegment_canAppend (this : RunSegment) (segment : ISegment) : bool :=
  RunSegment_is segment.

(** A call [setItems(row, col, values)], and a sequence of such calls. *)
Record Write := mkWrite {
  w_row : Z;
  w_col : Z;
  w_values : list UnboxedOper;
}.

Definition applyWrites (ws : list Write) (this : SparseMatrix) : SparseMatrix :=
  fold_left (fun m w => setItems (w_row w) (w_col w) (w_values w) None m) ws this.

(** The linear range a write covers lies inside an extent of [len]
    positions. *)
Definition writeInside (len : Z) (w : Write) : Prop :=
  0 <= w_row w /\ 0 <= w_col w
  /\ w_row w * maxCols + w_col w + Z.of_nat (length (w_values w)) <= len.

(** The write covers the linear position [q]. *)
Definition writeCovers (w : Write) (q : Z) : Prop :=
  w_row w * maxCols + w_col w <= q
  < w_row w * maxCols + w_col w + Z.of_nat (length (w_values w)).

(** Operand pairs around the limits of exact integer arithmetic on doubles,
    for the comparison of [Number] with the binary64 specification. *)
Definition numberSamples : list (Z * Z) :=
  [ (0, 1); (1, 3); (7, 2); (2097152, 1); (4294967295, 2097153);
    (4294965247, 2097153); (4294965248, 2097153); (4294967293, 2097153);
    (9007199254740991, 1); (9007199254740992, 1); (9007199254740992, 2);
    (9007199254740992, 3); (9007199254740994, 1); (9007199254740994, 3);
    (9007203547611136, 2097153); (9007203549708288, 2097153);
    (9007203543416828, 2097153); (9007199254738943, 2097153);
    (4503599627370496, 3); (4503599627370497, 2); (6004799503160661, 3);
    (1152921504606846976, 3); (5, 1099511627776); (9007199254740990, 9007199254740991) ].

Definition numberAgrees (ab : Z * Z) : bool :=
  let '(a, b) := ab in
  bool_decide (Number.add_SF a b = Some (Number.add a b))
  && bool_decide (Number.sub_SF a b = Some (Number.sub a b))
  && bool_decide (Number.mul_SF a b = Some (Number.mul a b))
  && bool_decide (Number.floor_div_SF a b = Some (Number.floor_div a b)).

(** ** Concrete matrices for the runs below *)

Definition emptyMatrix : SparseMatrix := mkMatrix "matrix" [].

(** Two rows, the first starting with "a", "b", "c". *)
Definition twoRows : SparseMatrix :=
  setItems 0 0 [Text "a"; Text "b"; Text "c"] None (insertRows 0 2 emptyMatrix).

(** One row holding "x" in the column just below [maxCol]. *)
Definition tailCell : SparseMatrix :=
  setItems 0 (maxCol - 1) [Text "x"] None (insertRows 0 1 emptyMatrix).

(** A run of three cells carrying tags, and a run to append to it. *)
Definition taggedRun : RunSegment :=
  mkRun (mkBase 3 (Some 7) (Some 2) None [])
        [Text "a"; Boolean true; Undefined]
        [Text "t0"; Undefined; Text "t2"].

Definition otherRun : RunSegment :=
  mkRun (mkBase 2 (Some 8) (Some 2) None [])
        [Text "d"; Text "e"]
        [Undefined; Text "t4"].

Definition somePadding : PaddingSegment := new_PaddingSegment 5 (Some 3) (Some 1).

(** ** Views of a chain, for values and for tags *)

(** The tags a segment stands for, in linear order: padding carries none. *)
Definition segmentTags (s : MatrixSegment) : list any :=
  match s with
  | Padding p => replicate (Z.to_nat (cachedLength (pad_base p))) Undefined
  | Run r => tags r
  end.

(** A chain seen through a per-segment view, and the entry at a linear
    position; [cells] and [cellAt] are the view through [segmentCells]. *)
Definition chainView {A} (view : MatrixSegment -> list A) (chain : list MatrixSegment) : list A :=
  chain ≫= view.

Definition viewAt {A} (view : MatrixSegment -> list A) (chain : list MatrixSegment) (pos : Z)
    : option A :=
  if pos <? 0 then None else chainView view chain !! Z.to_nat pos.

Definition tagAt (chain : list MatrixSegment) (pos : Z) : option any :=
  viewAt segmentTags chain pos.

(** A view that follows the engine: it has one entry per position, reads
    [blankValue] on padding, and is cut where [splitAt] and the per-segment
    [removeRange] cut the segment. *)
Class FollowsEngine {A} (view : MatrixSegment -> list A) (blankValue : A) : Prop := {
  view_length s :
    wf_segment s = true -> Z.of_nat (length (view s)) = segmentLength s;
  view_padding p :
    view (Padding p) = replicate (Z.to_nat (cachedLength (pad_base p))) blankValue;
  view_split pos s :
    wf_segment s = true -> 0 < pos < segmentLength s ->
    exists l r,
      splitAt pos s = (l, Some r)
      /\ wf_segment l = true /\ wf_segment r = true
      /\ view l = take (Z.to_nat pos) (view s)
      /\ view r = drop (Z.to_nat pos) (view s);
  view_remove ls le s :
    wf_segment s = true -> 0 <= ls < le -> le <= segmentLength s ->
    exists detach s',
      segment_removeRange ls le s = (detach, s')
      /\ wf_segment s' = true
      /\ view s' = take (Z.to_nat ls) (view s) ++ drop (Z.to_nat le) (view s)
      /\ (detach = true -> view s' = []);
}.

(** What a view shows at linear position [q] once rows [k], ..., [R - 1]
    have each lost their [n] columns from column [src] and received [n]
    blank columns at column [dest] ([moveAsPadding]); [before] is the view
    of the chain the loop started from. *)
Definition viewAfterMove {A} (blankValue : A) (before : Z -> option A)
    (src dest n k R : Z) (q : Z) : option A :=
  let r := q / maxCols in
  if (0 <=? q) && (k <=? r) && (r <? R) then
    let rowStart := r * maxCols in
    let removed q' := if q' <? rowStart + src then before q' else before (q' + n) in
    if q <? rowStart + dest then removed q
    else if q <? rowStart + dest + n then Some blankValue
    else removed (q - n)
  else before q.

(** What a caller reads at a cell: the outcome of [getItem] and the outcome
    of [getTag]. *)
Definition readCell (row col : Z) (this : SparseMatrix) : outcome UnboxedOper * outcome any :=
  (eval (getItem row col) this, eval (getTag row col) this).

(** An empty, untagged cell. *)
Definition blankCell : outcome UnboxedOper * outcome any :=
  (Return Undefined, Return Undefined).

(** The matrices a caller reaches from an empty one through the facade,
    with cell ranges, row starts and column ranges inside the matrix and
    lengths that stay safe integers. *)
Inductive reachable `{MergeTreeConstants} : SparseMatrix -> Prop :=
  | reachable_empty name :
      reachable (mkMatrix name [])
  | reachable_setItems this row col values props :
      reachable this ->
      0 <= row -> 0 <= col ->
      row * maxCols + col + Z.of_nat (length values) <= getLength (client this) ->
      reachable (setItems row col values props this)
  | reachable_setTag this row col tag :
      reachable this ->
      reachable (exec (setTag row col tag) this)
  | reachable_insertRows this r n :
      reachable this ->
      0 <= r -> 0 <= n -> r * maxCols <= getLength (client this) ->
      getLength (client this) + n * maxCols <= Number.MAX_SAFE_INTEGER ->
      reachable (insertRows r n this)
  | reachable_removeRows this r n :
      reachable this ->
      0 <= r -> 0 <= n -> (r + n) * maxCols <= getLength (client this) ->
      reachable (removeRows r n this)
  | reachable_insertCols this fuel c n this' :
      reachable this ->
      0 <= c -> 0 <= n -> c + n <= maxCol ->
      insertCols fuel c n this = Some this' ->
      reachable this'
  | reachable_removeCols this fuel c n this' :
      reachable this ->
      0 <= c -> 0 <= n -> c + n <= maxCol ->
      removeCols fuel c n this = Some this' ->
      reachable this'.

(** The matrix of two rows with a tag on the written cell [(0, 1)]. *)
Definition taggedRows : SparseMatrix := exec (setTag 0 1 (Text "flag")) twoRows.

(** Padding of ten positions carrying a property. *)
Definition labelledPadding : PaddingSegment :=
  mkPadding (mkBase 10 (Some 4) (Some 1) (Some {["kind" := Text "gap"]}) []).

(** * Proofs *)

Arguments Array.slice : simpl never.
Arguments Array.splice : simpl never.
Arguments Array.set_length : simpl never.
Arguments Array.set : simpl never.
Arguments Array.get : simpl never.
Arguments Number.add : simpl never.
Arguments Number.sub : simpl never.
Arguments Number.mul : simpl never.
Arguments Number.floor_div : simpl never.

(** Unfolds the monad operations of a method applied to a state. *)
Ltac run_monad :=
  cbv [mbind M_bind mret M_ret get put modify throw exec eval fst snd] in *.

(** ** Exactness of the arithmetic on safe integers *)

Section NumberFacts.
Import Number.

Lemma round_half_even_integer n : round_half_even n 1 = n.
Proof.
  unfold round_half_even. rewrite Z.mod_1_r, Z.div_1_r. reflexivity.
Qed.

Lemma round_half_even_bounds n d :
  0 < d -> n / d <= round_half_even n d <= n / d + 1.
Proof.
  intros Hd. unfold round_half_even.
  destruct (2 * (n mod d) ?= d); [destruct (Z.even (n / d))| |]; lia.
Qed.

Lemma round_half_even_down n d :
  0 < d -> 2 * (n mod d) < d -> round_half_even n d = n / d.
Proof.
  intros Hd Hlt. unfold round_half_even.
  destruct (Z.compare_spec (2 * (n mod d)) d); lia.
Qed.

Lemma to_number_safe z :
  - (MAX_SAFE_INTEGER + 1) <= z <= MAX_SAFE_INTEGER + 1 -> to_number z = z.
Proof.
  unfold MAX_SAFE_INTEGER. intros Hz.
  assert (Hcases : Z.abs z < 2 ^ 53 \/ Z.abs z = 2 ^ 53) by lia.
  unfold to_number, ulp_exponent.
  destruct Hcases as [Hlt | Heq].
  - assert (Z.log2 (Z.abs z) < 53).
    { destruct (Z.eq_dec (Z.abs z) 0) as [->|]; [reflexivity|].
      apply Z.log2_lt_pow2; lia. }
    rewrite Z.max_l by lia. change (2 ^ 0) with 1.
    rewrite round_half_even_integer. lia.
  - rewrite Heq. change (Z.log2 (2 ^ 53)) with 53. 
    change (Z.max 0 (53 - 52)) with 1.
    change (round_half_even (2 ^ 53) (2 ^ 1) * 2 ^ 1) with (2 ^ 53). lia.
Qed.

Lemma quotient_log2_lower p d :
  0 < p -> 0 < d ->
  let lg := quotient_log2 p d in
  (0 <= lg -> d * 2 ^ lg <= p) /\ (lg < 0 -> d <= p * 2 ^ (- lg)).
Proof.
  intros Hp Hd. unfold quotient_log2.
  pose proof (Z.log2_spec p Hp) as [Hp1 Hp2].
  pose proof (Z.log2_spec d Hd) as [Hd1 Hd2].
  pose proof (Z.log2_nonneg p) as Hlp. pose proof (Z.log2_nonneg d) as Hld.
  set (lp := Z.log2 p) in *. set (ld := Z.log2 d) in *.
  destruct (Z.leb_spec 0 (lp - ld)) as [Hk | Hk].
  - destruct (Z.ltb_spec p (d * 2 ^ (lp - ld))) as [Ht | Ht]; cbv zeta.
    + split; intros Hlg.
      * (* d * 2^(k-1) < 2^(ld+1) * 2^(k-1) = 2^lp <= p *)
        assert (Hpow : 2 ^ (Z.succ ld) * 2 ^ (lp - ld - 1) = 2 ^ lp).
        { rewrite <- Z.pow_add_r by lia. f_equal. lia. }
        assert (0 < 2 ^ (lp - ld - 1)) by (apply Z.pow_pos_nonneg; lia).
        nia.
      * assert (lp - ld = 0) as Hk0 by lia.
        replace (- (lp - ld - 1)) with 1 by lia. 
        assert (lp = ld) as Heq by lia. rewrite Heq in *.
        change (2 ^ 1) with 2. rewrite Z.pow_succ_r in Hd2 by lia. lia.
    + split; intros Hlg; lia.
  - destruct (Z.ltb_spec (p * 2 ^ (- (lp - ld))) d) as [Ht | Ht]; cbv zeta.
    + split; intros Hlg; [lia|].
      assert (Hpow : 2 ^ lp * 2 ^ (- (lp - ld - 1)) = 2 ^ (Z.succ ld)).
      { rewrite <- Z.pow_add_r by lia. f_equal. lia. }
      assert (0 < 2 ^ (- (lp - ld - 1))) by (apply Z.pow_pos_nonneg; lia).
      nia.
    + split; intros Hlg; lia.
Qed.

Lemma floor_div_safe p d :
  0 <= p <= MAX_SAFE_INTEGER -> 0 < d -> floor_div p d = p / d.
Proof.
  unfold MAX_SAFE_INTEGER. intros Hp Hd. unfold floor_div.
  destruct (Z.eqb_spec p 0) as [-> | Hp0]; [reflexivity|].
  assert (Hpos : 0 < p) by lia.
  rewrite (Z.abs_eq p), (Z.sgn_pos p), Z.mul_1_l by lia.
  destruct (quotient_log2_lower p d Hpos Hd) as [Hnn Hneg].
  set (lg := quotient_log2 p d) in *.
  destruct (Z.leb_spec 0 (lg - 52)) as [He | He].
  - (* the quotient has at least 53 bits: d = 1 and lg = 52 *)
    assert (Hle := Hnn ltac:(lia)).
    assert (Hp52 : 2 ^ 52 <= 2 ^ lg) by (apply Z.pow_le_mono_r; lia).
    assert (d = 1) as -> by nia.
    assert (lg = 52) as Hlg.
    { destruct (Z.eq_dec lg 52); [assumption|].
      assert (2 ^ 53 <= 2 ^ lg) by (apply Z.pow_le_mono_r; lia). lia. }
    rewrite Hlg. change (2 ^ (52 - 52)) with 1.
    rewrite round_half_even_integer, Z.div_1_r. lia.
  - set (s := - (lg - 52)) in *.
    assert (Hs : 0 < s) by lia.
    assert (H2s : 0 < 2 ^ s) by (apply Z.pow_pos_nonneg; lia).
    assert (Hd2 : d < 2 * 2 ^ s).
    { destruct (Z.leb_spec 0 lg) as [Hlg | Hlg].
      - assert (Hle := Hnn Hlg).
        assert (Hpow : 2 ^ lg * (2 * 2 ^ s) = 2 ^ 53).
        { rewrite <- Z.pow_succ_r, <- Z.pow_add_r by lia. f_equal. lia. }
        assert (0 < 2 ^ lg) by (apply Z.pow_pos_nonneg; lia). nia.
      - assert (Hle := Hneg Hlg).
        assert (Hpow : 2 ^ 53 * 2 ^ (- lg) = 2 * 2 ^ s).
        { rewrite <- Z.pow_succ_r, <- Z.pow_add_r by lia. f_equal. lia. }
        assert (0 < 2 ^ (- lg)) by (apply Z.pow_pos_nonneg; lia). nia. }
    set (q := p / d). set (a := p * 2 ^ s).
    assert (Hq : q * d <= p < (q + 1) * d).
    { unfold q. pose proof (Z.div_mod p d ltac:(lia)).
      pose proof (Z.mod_pos_bound p d Hd). nia. }
    assert (Hlow : q * 2 ^ s <= a / d).
    { apply Z.div_le_lower_bound; [lia|]. unfold a. nia. }
    assert (Hup : a / d <= (q + 1) * 2 ^ s - 1).
    { assert (a / d < (q + 1) * 2 ^ s); [|lia].
      apply Z.div_lt_upper_bound; [lia|]. unfold a. nia. }
    assert (Hn : q * 2 ^ s <= round_half_even a d < (q + 1) * 2 ^ s).
    { pose proof (round_half_even_bounds a d Hd) as Hb.
      split; [lia|].
      destruct (Z.eq_dec (a / d) ((q + 1) * 2 ^ s - 1)) as [Hedge | Hedge]; [|lia].
      rewrite round_half_even_down; [lia | lia |].
      pose proof (Z.div_mod a d ltac:(lia)) as Hdm.
      rewrite Hedge in Hdm.
      assert (a <= ((q + 1) * d - 1) * 2 ^ s) by (unfold a; nia).
      nia. }
    symmetry. apply Z.div_unique with (r := round_half_even a d - q * 2 ^ s); lia.
Qed.

Lemma sub_safe a b :
  0 <= a <= Number.MAX_SAFE_INTEGER -> 0 <= b <= Number.MAX_SAFE_INTEGER ->
  Number.sub a b = a - b.
Proof. intros Ha Hb. apply to_number_safe. lia. Qed.

Lemma add_safe a b :
  0 <= a -> 0 <= b -> a + b <= Number.MAX_SAFE_INTEGER + 1 ->
  Number.add a b = a + b.
Proof. intros Ha Hb Hab. apply to_number_safe. unfold Number.MAX_SAFE_INTEGER in *. lia. Qed.

Lemma mul_safe a b :
  0 <= a -> 0 <= b -> a * b <= Number.MAX_SAFE_INTEGER + 1 ->
  Number.mul a b = a * b.
Proof. intros Ha Hb Hab. apply to_number_safe. unfold Number.MAX_SAFE_INTEGER in *. nia. Qed.

End NumberFacts.

(** ** Array operations inside their range *)

Section ArrayFacts.
Context {A : Type}.
Implicit Types l new : list A.

Lemma slice_from l pos :
  0 <= pos -> Array.slice l pos None = drop (Z.to_nat pos) l.
Proof.
  intros Hpos. unfold Array.slice, Array.relative_index.
  destruct (Z.ltb_spec pos 0) as [|_]; [exfalso; lia|].
  rewrite take_ge by (rewrite length_drop; lia).
  destruct (Z.le_gt_cases pos (Z.of_nat (length l))).
  - rewrite Z.min_l by lia. reflexivity.
  - rewrite Z.min_r, Nat2Z.id by lia.
    rewrite !drop_ge by lia. reflexivity.
Qed.

Lemma slice_upto l pos :
  0 <= pos -> Array.slice l 0 (Some pos) = take (Z.to_nat pos) l.
Proof.
  intros Hpos. unfold Array.slice, Array.relative_index.
  destruct (Z.ltb_spec pos 0) as [|_]; [exfalso; lia|].
  change (0 <? 0) with false. cbv iota.
  rewrite (Z.min_l 0) by lia. change (Z.to_nat 0) with 0%nat.
  rewrite drop_0, Nat.sub_0_r.
  destruct (Z.le_gt_cases pos (Z.of_nat (length l))).
  - rewrite Z.min_l by lia. reflexivity.
  - rewrite Z.min_r, Nat2Z.id by lia.
    rewrite !take_ge by lia. reflexivity.
Qed.

Lemma splice_delete l start count :
  0 <= start -> 0 <= count ->
  Array.splice l start count [] = take (Z.to_nat start) l ++ drop (Z.to_nat (start + count)) l.
Proof.
  intros Hs Hc. unfold Array.splice, Array.relative_index.
  destruct (Z.ltb_spec start 0) as [|_]; [exfalso; lia|].
  rewrite app_nil_l, Z.max_l by lia.
  destruct (Z.le_gt_cases start (Z.of_nat (length l))) as [Hin | Hout].
  - rewrite (Z.min_l start) by lia.
    destruct (Z.le_gt_cases count (Z.of_nat (length l - Z.to_nat start))).
    + rewrite Z.min_l by lia. do 2 f_equal. lia.
    + rewrite Z.min_r, Nat2Z.id by lia.
      rewrite !drop_ge by lia. reflexivity.
  - rewrite (Z.min_r start), Nat2Z.id by lia.
    rewrite !take_ge, !drop_ge by lia. reflexivity.
Qed.

Lemma splice_append l start new :
  Z.of_nat (length l) <= start -> Array.splice l start 0 new = l ++ new.
Proof.
  intros Hs. unfold Array.splice, Array.relative_index.
  destruct (Z.ltb_spec start 0) as [|_]; [exfalso; lia|].
  rewrite Z.min_r, Nat2Z.id by lia.
  rewrite take_ge, drop_ge by lia. rewrite app_nil_r. reflexivity.
Qed.
End ArrayFacts.

Lemma set_length_truncate (l : list any) n :
  0 <= n <= Z.of_nat (length l) -> Array.set_length l n = take (Z.to_nat n) l.
Proof.
  intros Hn. unfold Array.set_length.
  replace (Z.to_nat n - length l)%nat with 0%nat by lia.
  apply app_nil_r.
Qed.

Lemma get_set_same (l : list any) i v :
  0 <= i -> Array.get (Array.set l i v) i = v.
Proof.
  intros Hi. unfold Array.get, Array.set.
  destruct (Z.ltb_spec i 0) as [|_]; [exfalso; lia|].
  destruct (Z.ltb_spec i (Z.of_nat (length l))) as [Hin | Hout].
  - rewrite list_lookup_insert_eq by lia. reflexivity.
  - rewrite lookup_app_r by lia.
    rewrite lookup_app_r by (rewrite length_replicate; lia).
    rewrite length_replicate.
    replace (Z.to_nat i - length l - (Z.to_nat i - length l))%nat with 0%nat by lia.
    reflexivity.
Qed.

(** ** The engine on well-formed chains *)

Lemma wf_padding_inv p :
  wf_segment (Padding p) = true ->
  0 <= cachedLength (pad_base p) <= Number.MAX_SAFE_INTEGER.
Proof. cbn. intros H. apply andb_prop in H as [H1 H2]. lia. Qed.

Lemma run_invariant_inv r :
  run_invariant r = true ->
  cachedLength (run_base r) = Z.of_nat (length (items r))
  /\ length (tags r) = length (items r).
Proof. unfold run_invariant. intros H. apply andb_prop in H as [H1 H2]. lia. Qed.

Lemma wf_run_inv r :
  wf_segment (Run r) = true ->
  cachedLength (run_base r) = Z.of_nat (length (items r))
  /\ length (tags r) = length (items r)
  /\ cachedLength (run_base r) <= Number.MAX_SAFE_INTEGER.
Proof.
  cbn. intros H. apply andb_prop in H as [H H3].
  apply run_invariant_inv in H as [H1 H2]. lia.
Qed.

Lemma wf_padding_intro p :
  0 <= cachedLength (pad_base p) <= Number.MAX_SAFE_INTEGER ->
  wf_segment (Padding p) = true.
Proof. cbn. intros H. apply andb_true_intro. split; lia. Qed.

Lemma wf_run_intro r :
  cachedLength (run_base r) = Z.of_nat (length (items r)) ->
  length (tags r) = length (items r) ->
  cachedLength (run_base r) <= Number.MAX_SAFE_INTEGER ->
  wf_segment (Run r) = true.
Proof.
  cbn. unfold run_invariant. intros H1 H2 H3.
  apply andb_true_intro. split; [apply andb_true_intro; split|]; lia.
Qed.

Lemma segmentLength_cells s :
  wf_segment s = true ->
  segmentLength s = Z.of_nat (length (segmentCells s))
  /\ 0 <= segmentLength s <= Number.MAX_SAFE_INTEGER.
Proof.
  destruct s as [p | r]; intros Hwf; unfold segmentLength; cbn [base segmentCells].
  - apply wf_padding_inv in Hwf. rewrite length_replicate. lia.
  - apply wf_run_inv in Hwf. lia.
Qed.

Lemma cells_cons s chain : cells (s :: chain) = segmentCells s ++ cells chain.
Proof. reflexivity. Qed.

Lemma forallb_cons_inv {A} (f : A -> bool) x l :
  forallb f (x :: l) = true -> f x = true /\ forallb f l = true.
Proof. cbn. intros H. apply andb_prop in H. exact H. Qed.

Lemma getLength_cells chain :
  forallb wf_segment chain = true ->
  getLength chain = Z.of_nat (length (cells chain)).
Proof.
  induction chain as [| s chain IH]; intros Hwf; [reflexivity|].
  apply forallb_cons_inv in Hwf as [Hs Hc].
  rewrite cells_cons, length_app. cbn [getLength].
  destruct (segmentLength_cells s Hs) as [-> _]. rewrite IH by assumption. lia.
Qed.

Lemma getLength_nonneg chain :
  forallb wf_segment chain = true -> 0 <= getLength chain.
Proof. intros H. rewrite getLength_cells by assumption. lia. Qed.

(** What [getItem] reads in a segment at an offset. *)
Lemma locate_cells chain pos :
  forallb wf_segment chain = true ->
  0 <= pos < getLength chain ->
  exists i offset s,
    locate chain pos = Some (i, offset)
    /\ chain !! i = Some s
    /\ 0 <= offset < segmentLength s
    /\ segmentCells s !! Z.to_nat offset = cells chain !! Z.to_nat pos.
Proof.
  revert pos. induction chain as [| s chain IH]; intros pos Hwf Hpos.
  - cbn in Hpos. lia.
  - apply forallb_cons_inv in Hwf as [Hs Hc].
    destruct (segmentLength_cells s Hs) as [Hlen Hrange].
    cbn [locate getLength] in *.
    destruct (Z.ltb_spec pos (segmentLength s)) as [Hin | Hout].
    + exists 0%nat, pos, s. repeat split; try lia.
      rewrite cells_cons, lookup_app_l by lia. reflexivity.
    + destruct (IH (pos - segmentLength s) Hc ltac:(lia))
        as (i & offset & s' & -> & Hi & Hoff & Hcell).
      exists (S i), offset, s'. repeat split; try assumption; try lia.
      rewrite Hcell, cells_cons, lookup_app_r by lia.
      f_equal. lia.
Qed.

Lemma locate_outside chain pos :
  forallb wf_segment chain = true ->
  getLength chain <= pos -> locate chain pos = None.
Proof.
  revert pos. induction chain as [| s chain IH]; intros pos Hwf Hpos; [reflexivity|].
  apply forallb_cons_inv in Hwf as [Hs Hc].
  destruct (segmentLength_cells s Hs) as [Hlen Hrange].
  pose proof (getLength_nonneg chain Hc).
  cbn [locate getLength] in *.
  destruct (Z.ltb_spec pos (segmentLength s)); [lia|].
  rewrite IH by (assumption || lia). reflexivity.
Qed.

(** The methods as equations. *)
Lemma PaddingSegment_createSplitSegmentAt_eq pos p :
  PaddingSegment_createSplitSegmentAt pos p =
  (Return (new_PaddingSegment (Number.sub (cachedLength (pad_base p)) pos)
                              (seq (pad_base p)) (clientId (pad_base p))),
   mkPadding (set_cachedLength pos (pad_base p))).
Proof. reflexivity. Qed.

Lemma RunSegment_createSplitSegmentAt_eq pos r :
  0 < pos ->
  RunSegment_createSplitSegmentAt pos r =
  (Return (Some (mkRun (mkBase (Z.of_nat (length (Array.slice (items r) pos None)))
                               (seq (run_base r)) (clientId (run_base r)) None [])
                       (Array.slice (items r) pos None)
                       (Array.slice (tags r) pos None))),
   mkRun (set_cachedLength (Z.of_nat (length (Array.slice (items r) 0 (Some pos)))) (run_base r))
         (Array.slice (items r) 0 (Some pos))
         (Array.set_length (tags r) pos)).
Proof.
  intros Hpos. unfold RunSegment_createSplitSegmentAt.
  destruct (Z.ltb_spec 0 pos); [reflexivity | lia].
Qed.

Lemma RunSegment_createSplitSegmentAt_no_split pos r :
  pos <= 0 -> RunSegment_createSplitSegmentAt pos r = (Return None, r).
Proof.
  intros Hpos. unfold RunSegment_createSplitSegmentAt.
  destruct (Z.ltb_spec 0 pos); [lia | reflexivity].
Qed.

Lemma PaddingSegment_removeRange_eq start end_ p :
  PaddingSegment_removeRange start end_ p =
  let len := Number.sub (cachedLength (pad_base p)) (Number.sub end_ start) in
  (Return (len =? 0), mkPadding (set_cachedLength len (pad_base p))).
Proof. reflexivity. Qed.

Lemma RunSegment_removeRange_eq start end_ r :
  RunSegment_removeRange start end_ r =
  let items' := Array.splice (items r) start (Number.sub end_ start) [] in
  (Return (Z.of_nat (length items') =? 0),
   mkRun (set_cachedLength (Z.of_nat (length items')) (run_base r))
         items'
         (Array.splice (tags r) start (Number.sub end_ start) [])).
Proof. reflexivity. Qed.

(** Splitting a segment strictly inside it. *)
Lemma splitAt_cells pos s :
  wf_segment s = true -> 0 < pos < segmentLength s ->
  exists l r,
    splitAt pos s = (l, Some r)
    /\ wf_segment l = true /\ wf_segment r = true
    /\ segmentCells l = take (Z.to_nat pos) (segmentCells s)
    /\ segmentCells r = drop (Z.to_nat pos) (segmentCells s).
Proof.
  intros Hwf Hpos. unfold splitAt.
  destruct (Z.ltb_spec 0 pos) as [_|]; [|lia].
  destruct s as [p | r]; unfold segmentLength in Hpos; cbn [base] in Hpos.
  - apply wf_padding_inv in Hwf.
    rewrite PaddingSegment_createSplitSegmentAt_eq, sub_safe by lia.
    cbn. eexists _, _. split; [reflexivity|].
    repeat split.
    + apply wf_padding_intro. cbn. lia.
    + apply wf_padding_intro. cbn. lia.
    + cbn. rewrite take_replicate. f_equal. lia.
    + cbn. rewrite drop_replicate. f_equal. lia.
  - apply wf_run_inv in Hwf as (Hlen & Htags & Hsafe).
    rewrite RunSegment_createSplitSegmentAt_eq by lia.
    rewrite !slice_from, slice_upto, set_length_truncate by lia.
    cbn. eexists _, _. split; [reflexivity|].
    repeat split.
    + apply wf_run_intro; cbn; rewrite ?length_take; lia.
    + apply wf_run_intro; cbn; rewrite ?length_drop, ?length_replicate; lia.
Qed.

Lemma insertAt_cells chain pos seg :
  forallb wf_segment chain = true -> wf_segment seg = true ->
  0 <= pos <= getLength chain ->
  exists chain',
    insertAt chain pos seg = Some chain'
    /\ forallb wf_segment chain' = true
    /\ cells chain' = take (Z.to_nat pos) (cells chain) ++ segmentCells seg
                      ++ drop (Z.to_nat pos) (cells chain).
Proof.
  revert pos. induction chain as [| s chain IH]; intros pos Hwf Hseg Hpos.
  - cbn in Hpos. assert (pos = 0) as -> by lia.
    exists [seg]. cbn. rewrite Hseg. split_and!; reflexivity.
  - pose proof Hwf as Hwf'. apply forallb_cons_inv in Hwf' as [Hs Hc].
    destruct (segmentLength_cells s Hs) as [Hlen Hrange].
    cbn [insertAt getLength] in *.
    destruct (Z.eqb_spec pos 0) as [-> | Hne].
    + exists (seg :: s :: chain). split_and!; [reflexivity| |].
      * cbn [forallb]. rewrite Hseg. exact Hwf.
      * rewrite (cells_cons seg). reflexivity.
    + destruct (Z.ltb_spec pos (segmentLength s)) as [Hin | Hout].
      * destruct (splitAt_cells pos s Hs ltac:(lia)) as (l & r & -> & Hl & Hr & Hcl & Hcr).
        exists (l :: seg :: r :: chain). split_and!; [reflexivity| |].
        -- cbn [forallb]. rewrite Hl, Hseg, Hr. exact Hc.
        -- rewrite !cells_cons, Hcl, Hcr.
           rewrite take_app_le, drop_app_le by lia.
           rewrite <- ?app_assoc. reflexivity.
      * destruct (IH (pos - segmentLength s) Hc Hseg ltac:(lia)) as (chain' & -> & Hwf' & Hcells).
        exists (s :: chain'). split_and!; [reflexivity| |].
        -- cbn [forallb]. rewrite Hs. exact Hwf'.
        -- rewrite !cells_cons, Hcells.
           rewrite take_app_ge, drop_app_ge by lia.
           rewrite <- ?app_assoc.
           replace (Z.to_nat pos - length (segmentCells s))%nat
             with (Z.to_nat (pos - segmentLength s)) by lia.
           reflexivity.
Qed.

Lemma segment_removeRange_cells ls le s :
  wf_segment s = true -> 0 <= ls < le -> le <= segmentLength s ->
  exists detach s',
    segment_removeRange ls le s = (detach, s')
    /\ wf_segment s' = true
    /\ segmentCells s' = take (Z.to_nat ls) (segmentCells s) ++ drop (Z.to_nat le) (segmentCells s)
    /\ (detach = true -> segmentCells s' = []).
Proof.
  intros Hwf Hls Hle. unfold segment_removeRange.
  destruct s as [p | r]; unfold segmentLength in Hle; cbn [base] in Hle.
  - apply wf_padding_inv in Hwf.
    rewrite PaddingSegment_removeRange_eq. cbv zeta.
    rewrite (sub_safe le ls), sub_safe by lia.
    eexists _, _. split; [reflexivity|]. split_and!.
    + apply wf_padding_intro. cbn. lia.
    + cbn. rewrite take_replicate, drop_replicate, <- replicate_add. f_equal. lia.
    + cbn. intros Hz. apply Z.eqb_eq in Hz. rewrite Hz. reflexivity.
  - apply wf_run_inv in Hwf as (Hlen & Htags & Hsafe).
    rewrite RunSegment_removeRange_eq. cbv zeta.
    rewrite (sub_safe le ls) by lia.
    rewrite !splice_delete by lia.
    replace (ls + (le - ls)) with le by lia.
    eexists _, _. split; [reflexivity|]. split_and!.
    + apply wf_run_intro; cbn; rewrite ?length_app, ?length_take, ?length_drop; lia.
    + reflexivity.
    + cbn. intros Hz. apply Z.eqb_eq in Hz.
      apply nil_length_inv. lia.
Qed.

Lemma take_drop_app {A} (l k : list A) (a m : nat) :
  (a <= m)%nat ->
  take a (l ++ k) ++ drop m (l ++ k) =
  (take a l ++ drop m l) ++ (take (a - length l) k ++ drop (m - length l) k).
Proof.
  intros Ham. rewrite take_app, drop_app.
  destruct (Nat.le_gt_cases a (length l)) as [Hin | Hout].
  - replace (a - length l)%nat with 0%nat by lia.
    rewrite take_0, !app_nil_l, app_nil_r, app_assoc. reflexivity.
  - rewrite (drop_ge l m) by lia.
    rewrite !app_nil_r, <- app_assoc. reflexivity.
Qed.

Lemma removeRange_cells chain start end_ :
  forallb wf_segment chain = true ->
  forallb wf_segment (removeRange chain start end_) = true
  /\ cells (removeRange chain start end_) =
     take (Z.to_nat start) (cells chain) ++ drop (Z.to_nat (Z.max start end_)) (cells chain).
Proof.
  revert start end_. induction chain as [| s chain IH]; intros start end_ Hwf.
  - split; [reflexivity|]. cbn. rewrite take_nil, drop_nil. reflexivity.
  - apply forallb_cons_inv in Hwf as [Hs Hc].
    destruct (segmentLength_cells s Hs) as [Hlen Hrange].
    destruct (IH (start - segmentLength s) (end_ - segmentLength s) Hc) as [IHwf IHcells].
    cbn [removeRange]. cbv zeta.
    rewrite cells_cons, take_drop_app by lia.
    replace (Z.to_nat start - length (segmentCells s))%nat
      with (Z.to_nat (start - segmentLength s)) by lia.
    replace (Z.to_nat (Z.max start end_) - length (segmentCells s))%nat
      with (Z.to_nat (Z.max (start - segmentLength s) (end_ - segmentLength s))) by lia.
    rewrite <- IHcells.
    destruct (Z.ltb_spec (Z.max start 0) (Z.min end_ (segmentLength s))) as [Hcut | Hkeep].
    + destruct (segment_removeRange_cells (Z.max start 0) (Z.min end_ (segmentLength s)) s Hs
                  ltac:(lia) ltac:(lia)) as (detach & s' & -> & Hs' & Hcells & Hdetach).
      assert (Heq : segmentCells s' =
                    take (Z.to_nat start) (segmentCells s)
                    ++ drop (Z.to_nat (Z.max start end_)) (segmentCells s)).
      { rewrite Hcells. f_equal; [f_equal; lia|].
        destruct (Z.le_gt_cases end_ (segmentLength s)).
        - f_equal. lia.
        - rewrite !drop_ge by lia. reflexivity. }
      destruct detach.
      * split; [assumption|]. rewrite <- Heq, Hdetach by reflexivity. reflexivity.
      * split; [cbn [forallb]; rewrite Hs'; assumption|].
        rewrite cells_cons, Heq. reflexivity.
    + split; [cbn [forallb]; rewrite Hs; assumption|].
      rewrite cells_cons. f_equal.
      destruct (Z.le_gt_cases end_ start).
      * rewrite Z.max_l by lia. symmetry. apply take_drop.
      * rewrite Z.max_r by lia.
        destruct (Z.le_gt_cases (segmentLength s) start).
        -- rewrite take_ge, drop_ge by lia. symmetry. apply app_nil_r.
        -- destruct (Z.le_gt_cases end_ 0).
           ++ replace (Z.to_nat start) with 0%nat by lia.
              replace (Z.to_nat end_) with 0%nat by lia. reflexivity.
           ++ assert (length (segmentCells s) = 0%nat) as Hnil by lia.
              apply nil_length_inv in Hnil. rewrite Hnil.
              rewrite take_nil, drop_nil. reflexivity.
Qed.

(** ** The facade over the abstract view *)

Lemma maxCols_eq : maxCols = 2097153.
Proof. reflexivity. Qed.

Lemma maxCol_eq : maxCol = 2097152.
Proof. reflexivity. Qed.

Lemma MAX_SAFE_INTEGER_eq : Number.MAX_SAFE_INTEGER = 9007199254740991.
Proof. reflexivity. Qed.

Opaque maxCols maxCol Number.MAX_SAFE_INTEGER.

Lemma rowColToPosition_safe row col :
  0 <= row -> 0 <= col -> row * maxCols + col <= Number.MAX_SAFE_INTEGER + 1 ->
  rowColToPosition row col = row * maxCols + col.
Proof.
  intros Hrow Hcol Hsafe. unfold rowColToPosition.
  pose proof maxCols_eq.
  rewrite mul_safe by nia. apply add_safe; nia.
Qed.

Lemma wf_chain_inv chain :
  wf_chain chain = true ->
  forallb wf_segment chain = true /\ 0 <= getLength chain <= Number.MAX_SAFE_INTEGER.
Proof.
  unfold wf_chain. intros H. apply andb_prop in H as [H1 H2].
  split; [assumption|]. pose proof (getLength_nonneg chain H1). lia.
Qed.

Lemma wf_chain_intro chain :
  forallb wf_segment chain = true -> getLength chain <= Number.MAX_SAFE_INTEGER ->
  wf_chain chain = true.
Proof. intros H1 H2. unfold wf_chain. rewrite H1. cbn. lia. Qed.

Lemma cellAt_Some chain pos v :
  cellAt chain pos = Some v -> 0 <= pos < Z.of_nat (length (cells chain)).
Proof.
  unfold cellAt. destruct (Z.ltb_spec pos 0); [discriminate|].
  intros Hv. apply lookup_lt_Some in Hv. lia.
Qed.

Lemma cellAt_inside chain pos :
  0 <= pos < Z.of_nat (length (cells chain)) -> is_Some (cellAt chain pos).
Proof.
  intros H. unfold cellAt. destruct (Z.ltb_spec pos 0); [lia|].
  apply lookup_lt_is_Some. lia.
Qed.

(** [getItem] reads the cell of the abstract view. *)
Lemma getSegment_inside this row col :
  forallb wf_segment (client this) = true ->
  0 <= rowColToPosition row col < getLength (client this) ->
  exists i s offset,
    getSegment row col this = (Return (i, s, offset), this)
    /\ client this !! i = Some s
    /\ 0 <= offset < segmentLength s
    /\ segmentCells s !! Z.to_nat offset = cellAt (client this) (rowColToPosition row col).
Proof.
  intros Hwf Hpos.
  destruct (locate_cells (client this) _ Hwf Hpos) as (i & offset & s & Hloc & Hi & Hoff & Hcell).
  exists i, s, offset. unfold getSegment, getContainingSegment, cellAt.
  destruct (Z.ltb_spec (rowColToPosition row col) 0); [lia|].
  split_and!; try assumption; try lia.
  run_monad. rewrite Hloc, Hi. reflexivity.
Qed.

Lemma getItem_cellAt this row col v :
  forallb wf_segment (client this) = true ->
  cellAt (client this) (rowColToPosition row col) = Some v ->
  getItem row col this = (Return v, this).
Proof.
  intros Hwf Hcell.
  pose proof (cellAt_Some _ _ _ Hcell) as Hpos.
  rewrite <- getLength_cells in Hpos by assumption.
  destruct (getSegment_inside this row col Hwf Hpos) as (i & s & offset & Hseg & Hi & Hoff & Hread).
  unfold getItem. unfold mbind at 1, M_bind at 1. rewrite Hseg. rewrite Hcell in Hread.
  destruct s as [p | r]; cbn in *.
  - apply lookup_replicate in Hread as [-> _]. reflexivity.
  - unfold Array.get. destruct (Z.ltb_spec offset 0); [lia|].
    rewrite Hread. reflexivity.
Qed.

Lemma getItem_outside this row col :
  forallb wf_segment (client this) = true ->
  cellAt (client this) (rowColToPosition row col) = None ->
  getItem row col this = (Throw TypeError, this).
Proof.
  intros Hwf Hcell. unfold getItem, getSegment, getContainingSegment. run_monad.
  unfold cellAt in Hcell.
  destruct (Z.ltb_spec (rowColToPosition row col) 0); [reflexivity|].
  apply lookup_ge_None in Hcell.
  rewrite locate_outside; [reflexivity | assumption |].
  rewrite getLength_cells by assumption. lia.
Qed.

(** The abstract view after the two structural primitives. *)
Lemma insertSegmentLocal_cells chain pos seg :
  forallb wf_segment chain = true -> wf_segment seg = true ->
  0 <= pos <= getLength chain ->
  exists chain',
    insertSegmentLocal chain pos seg = Some chain'
    /\ forallb wf_segment chain' = true
    /\ getLength chain' = getLength chain + segmentLength seg
    /\ forall q,
         cellAt chain' q =
         if q <? pos then cellAt chain q
         else if q <? pos + segmentLength seg then segmentCells seg !! Z.to_nat (q - pos)
         else cellAt chain (q - segmentLength seg).
Proof.
  intros Hwf Hseg Hpos.
  destruct (insertAt_cells chain pos seg Hwf Hseg Hpos) as (chain' & Hins & Hwf' & Hcells).
  destruct (segmentLength_cells seg Hseg) as [Hlen Hrange].
  pose proof (getLength_cells chain Hwf) as HL.
  exists chain'. unfold insertSegmentLocal.
  destruct (Z.ltb_spec pos 0); [lia|].
  split_and!; try assumption.
  - rewrite (getLength_cells chain') by assumption.
    rewrite Hcells, !length_app, length_take, length_drop. lia.
  - intros q. unfold cellAt. rewrite Hcells.
    destruct (Z.ltb_spec q pos) as [Hq | Hq].
    + destruct (Z.ltb_spec q 0); [reflexivity|].
      rewrite lookup_app_l by (rewrite length_take; lia).
      rewrite lookup_take. destruct (decide (Z.to_nat q < Z.to_nat pos)%nat); [reflexivity | lia].
    + destruct (Z.ltb_spec q 0); [lia|].
      rewrite lookup_app_r by (rewrite length_take; lia).
      rewrite length_take.
      replace (Z.to_nat q - Z.to_nat pos `min` length (cells chain))%nat
        with (Z.to_nat (q - pos)) by lia.
      destruct (Z.ltb_spec q (pos + segmentLength seg)) as [Hin | Hout].
      * rewrite lookup_app_l by lia. reflexivity.
      * rewrite lookup_app_r by lia. rewrite lookup_drop.
        destruct (Z.ltb_spec (q - segmentLength seg) 0); [lia|].
        f_equal. lia.
Qed.

Lemma removeRange_cellAt chain start end_ :
  forallb wf_segment chain = true ->
  0 <= start <= end_ -> end_ <= getLength chain ->
  forallb wf_segment (removeRange chain start end_) = true
  /\ getLength (removeRange chain start end_) = getLength chain - (end_ - start)
  /\ forall q,
       cellAt (removeRange chain start end_) q =
       if q <? start then cellAt chain q else cellAt chain (q + (end_ - start)).
Proof.
  intros Hwf Hse Hend.
  destruct (removeRange_cells chain start end_ Hwf) as [Hwf' Hcells].
  pose proof (getLength_cells chain Hwf) as HL.
  rewrite Z.max_r in Hcells by lia.
  split_and!; try assumption.
  - rewrite (getLength_cells (removeRange chain start end_)) by assumption.
    rewrite Hcells, !length_app, length_take, length_drop. lia.
  - intros q. unfold cellAt. rewrite Hcells.
    destruct (Z.ltb_spec q start) as [Hq | Hq].
    + destruct (Z.ltb_spec q 0); [reflexivity|].
      rewrite lookup_app_l by (rewrite length_take; lia).
      rewrite lookup_take. destruct (decide (Z.to_nat q < Z.to_nat start)%nat); [reflexivity | lia].
    + destruct (Z.ltb_spec q 0); [lia|].
      destruct (Z.ltb_spec (q + (end_ - start)) 0); [lia|].
      rewrite lookup_app_r by (rewrite length_take; lia).
      rewrite length_take, lookup_drop. f_equal. lia.
Qed.

Lemma wf_new_RunSegment values props :
  Z.of_nat (length values) <= Number.MAX_SAFE_INTEGER ->
  wf_segment (Run (match props with
                   | Some props => mkRun (addProperties props (run_base (new_RunSegment values None None)))
                                         (items (new_RunSegment values None None))
                                         (tags (new_RunSegment values None None))
                   | None => new_RunSegment values None None
                   end)) = true.
Proof.
  intros Hn. destruct props; apply wf_run_intro; cbn;
    rewrite ?length_replicate; unfold Array.fill_undefined; rewrite ?length_replicate; lia.
Qed.

Lemma setItems_cellAt this row col values props :
  well_formed this = true ->
  0 <= row -> 0 <= col ->
  row * maxCols + col + Z.of_nat (length values) <= getLength (client this) ->
  let this' := setItems row col values props this in
  forallb wf_segment (client this') = true
  /\ getLength (client this') = getLength (client this)
  /\ forall q,
       cellAt (client this') q =
       if q <? row * maxCols + col then cellAt (client this) q
       else if q <? row * maxCols + col + Z.of_nat (length values)
            then values !! Z.to_nat (q - (row * maxCols + col))
            else cellAt (client this) q.
Proof.
  intros Hwf Hrow Hcol Hend.
  apply wf_chain_inv in Hwf as [Hsegs HL].
  pose proof maxCols_eq as HM.
  assert (Hp : 0 <= row * maxCols + col) by nia.
  unfold setItems. cbv zeta.
  rewrite rowColToPosition_safe by lia.
  rewrite add_safe by lia.
  set (p := row * maxCols + col) in *. set (n := Z.of_nat (length values)) in *.
  set (seg := match props with Some _ => _ | None => _ end).
  assert (Hseg : wf_segment (Run seg) = true) by (apply wf_new_RunSegment; fold n; lia).
  assert (Hseglen : segmentLength (Run seg) = n) by (subst seg; destruct props; reflexivity).
  assert (Hsegcells : segmentCells (Run seg) = values) by (subst seg; destruct props; reflexivity).
  destruct (removeRange_cellAt (client this) p (p + n) Hsegs ltac:(lia) ltac:(lia))
    as (Hwf1 & HL1 & Hcell1).
  destruct (insertSegmentLocal_cells (removeRange (client this) p (p + n)) p (Run seg)
              Hwf1 Hseg ltac:(lia)) as (chain' & Hins & Hwf2 & HL2 & Hcell2).
  unfold replaceRange. rewrite Hins. cbn [client set_client].
  split_and!; [assumption | lia |].
  intros q. rewrite Hcell2, Hseglen, Hsegcells.
  destruct (Z.ltb_spec q p).
  - rewrite Hcell1. destruct (Z.ltb_spec q p); [reflexivity | lia].
  - destruct (Z.ltb_spec q (p + n)); [reflexivity|].
    rewrite Hcell1. destruct (Z.ltb_spec (q - n) p); [lia|].
    f_equal. lia.
Qed.

Lemma blank_cells chain i v :
  forallb (fun s => match s with Padding _ => true | Run _ => false end) chain = true ->
  cells chain !! i = Some v -> v = Undefined.
Proof.
  revert i. induction chain as [| s chain IH]; intros i Hb Hv; [discriminate|].
  apply forallb_cons_inv in Hb as [Hs Hc].
  rewrite cells_cons, lookup_app in Hv.
  destruct s as [p | r]; [|discriminate]. cbn [segmentCells] in Hv.
  destruct (replicate _ Undefined !! i) eqn:Hrep.
  - apply lookup_replicate in Hrep as [-> _]. congruence.
  - eapply IH; eassumption.
Qed.

(** Claim C1 (round trip), as amended.  In a well-formed matrix (the
    invariant of the data model, and an extent that is a safe integer),
    after [setItems row col values] over a range that lies inside the extent:
    [getItem row (col + i)] returns [values[i]] for every index [i] of
    [values]; every other cell of the extent reads as it did before; and in
    a matrix that held padding only, every other cell reads as absent. *)
Theorem setItems_getItem_round_trip this row col values props :
  well_formed this = true ->
  0 <= row -> 0 <= col ->
  row * maxCols + col + Z.of_nat (length values) <= getLength (client this) ->
  let this' := setItems row col values props this in
  let written r c :=
    row * maxCols + col <= r * maxCols + c < row * maxCols + col + Z.of_nat (length values) in
  (forall i v, values !! i = Some v ->
     getItem row (col + Z.of_nat i) this' = (Return v, this'))
  /\ (forall r c, 0 <= r -> 0 <= c -> r * maxCols + c < getLength (client this) ->
        ~ written r c ->
        getItem r c this' = (eval (getItem r c) this, this'))
  /\ (blank this = true ->
      forall r c, 0 <= r -> 0 <= c -> r * maxCols + c < getLength (client this) ->
        ~ written r c ->
        getItem r c this' = (Return Undefined, this')).
Proof.
  intros Hwf Hrow Hcol Hend this' written.
  destruct (setItems_cellAt this row col values props Hwf Hrow Hcol Hend)
    as (Hwf' & HL' & Hcell').
  fold this' in Hwf', HL', Hcell'.
  apply wf_chain_inv in Hwf as [Hsegs HL].
  pose proof maxCols_eq as HM.
  assert (Hframe : forall r c, 0 <= r -> 0 <= c -> r * maxCols + c < getLength (client this) ->
            ~ written r c ->
            exists v, cellAt (client this) (rowColToPosition r c) = Some v
                      /\ cellAt (client this') (rowColToPosition r c) = Some v).
  { intros r c Hr Hc Hin Hnot. unfold written in Hnot.
    rewrite rowColToPosition_safe by nia.
    destruct (cellAt_inside (client this) (r * maxCols + c)) as [v Hv].
    { rewrite <- getLength_cells by assumption. nia. }
    exists v. split; [assumption|]. rewrite Hcell'.
    destruct (Z.ltb_spec (r * maxCols + c) (row * maxCols + col)); [assumption|].
    destruct (Z.ltb_spec (r * maxCols + c) (row * maxCols + col + Z.of_nat (length values)));
      [lia | assumption]. }
  split_and!.
  - intros i v Hv. apply getItem_cellAt; [assumption|].
    pose proof (lookup_lt_Some _ _ _ Hv) as Hi.
    rewrite rowColToPosition_safe by nia. rewrite Hcell'.
    destruct (Z.ltb_spec (row * maxCols + (col + Z.of_nat i)) (row * maxCols + col)); [lia|].
    destruct (Z.ltb_spec (row * maxCols + (col + Z.of_nat i))
                (row * maxCols + col + Z.of_nat (length values))); [|lia].
    rewrite <- Hv. f_equal. lia.
  - intros r c Hr Hc Hin Hnot.
    destruct (Hframe r c Hr Hc Hin Hnot) as (v & Hbefore & Hafter).
    rewrite (getItem_cellAt this' r c v Hwf' Hafter).
    unfold eval. rewrite (getItem_cellAt this r c v Hsegs Hbefore). reflexivity.
  - intros Hblank r c Hr Hc Hin Hnot.
    destruct (Hframe r c Hr Hc Hin Hnot) as (v & Hbefore & Hafter).
    rewrite (getItem_cellAt this' r c v Hwf' Hafter).
    unfold cellAt in Hbefore.
    destruct (Z.ltb_spec (rowColToPosition r c) 0); [discriminate|].
    rewrite (blank_cells _ _ _ Hblank Hbefore). reflexivity.
Qed.

(** After any sequence of writes inside the extent, a position none of them
    covers holds what it held before. *)
Lemma applyWrites_untouched ws : forall this q,
  well_formed this = true ->
  Forall (writeInside (getLength (client this))) ws ->
  Forall (fun w => ~ writeCovers w q) ws ->
  well_formed (applyWrites ws this) = true
  /\ getLength (client (applyWrites ws this)) = getLength (client this)
  /\ cellAt (client (applyWrites ws this)) q = cellAt (client this) q.
Proof.
  induction ws as [| w ws IH]; intros this q Hwf Hin Hnot; [done|].
  apply Forall_cons in Hin as [(Hrow & Hcol & Hend) Hin].
  apply Forall_cons in Hnot as [Hw Hnot].
  destruct (setItems_cellAt this (w_row w) (w_col w) (w_values w) None Hwf Hrow Hcol Hend)
    as (Hwf1 & HL1 & Hcell1).
  apply wf_chain_inv in Hwf as [_ HL].
  set (this1 := setItems (w_row w) (w_col w) (w_values w) None this) in *.
  assert (Hwf1' : well_formed this1 = true) by (apply wf_chain_intro; [assumption | lia]).
  destruct (IH this1 q Hwf1' ltac:(rewrite HL1; exact Hin) Hnot) as (Hwf2 & HL2 & Hcell2).
  change (applyWrites (w :: ws) this) with (applyWrites ws this1).
  split_and!; [assumption | lia |].
  rewrite Hcell2, Hcell1. unfold writeCovers in Hw.
  destruct (Z.ltb_spec q (w_row w * maxCols + w_col w)); [reflexivity|].
  destruct (Z.ltb_spec q (w_row w * maxCols + w_col w + Z.of_nat (length (w_values w))));
    [lia | reflexivity].
Qed.

(** Property X22 (cells never written).  In a well-formed matrix (the
    invariant of the data model, and an extent that is a safe integer) that
    started as padding, after any sequence of [setItems] calls at
    non-negative rows and columns with ranges inside the extent, a cell of
    the extent that no write has covered reads as absent. *)
Corollary getItem_untouched ws this r c :
  well_formed this = true -> blank this = true ->
  Forall (writeInside (getLength (client this))) ws ->
  0 <= r -> 0 <= c -> r * maxCols + c < getLength (client this) ->
  Forall (fun w => ~ writeCovers w (r * maxCols + c)) ws ->
  getItem r c (applyWrites ws this) = (Return Undefined, applyWrites ws this).
Proof.
  intros Hwf Hblank Hin Hr Hc Hext Hnot.
  destruct (applyWrites_untouched ws this (r * maxCols + c) Hwf Hin Hnot)
    as (Hwf' & _ & Hcell).
  apply wf_chain_inv in Hwf as [Hsegs HL]. apply wf_chain_inv in Hwf' as [Hsegs' _].
  pose proof maxCols_eq as HM.
  destruct (cellAt_inside (client this) (r * maxCols + c)) as [v Hv].
  { rewrite <- getLength_cells by assumption. nia. }
  apply getItem_cellAt; [assumption|].
  rewrite rowColToPosition_safe by nia. rewrite Hcell, Hv.
  unfold cellAt in Hv. destruct (Z.ltb_spec (r * maxCols + c) 0); [discriminate|].
  rewrite (blank_cells _ _ _ Hblank Hv). reflexivity.
Qed.

Lemma numRows_safe this :
  well_formed this = true -> numRows this = getLength (client this) / maxCols.
Proof.
  intros Hwf. apply wf_chain_inv in Hwf as [_ HL].
  unfold numRows, positionToRowCol. cbn [row].
  apply floor_div_safe; [assumption|]. rewrite maxCols_eq. lia.
Qed.

Section MoveAsPadding.
Context `{MergeTreeConstants}.

(** One iteration of the loop, for row [k]. *)
Lemma moveAsPadding_row chain c n k :
  wf_chain chain = true ->
  0 <= k -> (k + 1) * maxCols <= getLength chain ->
  0 <= c -> 0 <= n -> c + n <= maxCol ->
  exists chain',
    insertSegmentLocal
      (removeRange chain (k * maxCols + (maxCol - n)) (k * maxCols + maxCol))
      (k * maxCols + c)
      (Padding (new_PaddingSegment n (Some UniversalSequenceNumber) (Some LocalClientId)))
    = Some chain'
    /\ wf_chain chain' = true
    /\ getLength chain' = getLength chain
    /\ forall q,
         cellAt chain' q =
         if q <? k * maxCols + c then cellAt chain q
         else if q <? k * maxCols + c + n then Some Undefined
         else if q <? k * maxCols + maxCol then cellAt chain (q - n)
         else cellAt chain q.
Proof.
  intros Hwf Hk Hrow Hc Hn Hcn.
  apply wf_chain_inv in Hwf as [Hsegs HL].
  pose proof maxCols_eq as HM. pose proof maxCol_eq as HC.
  pose proof MAX_SAFE_INTEGER_eq as HS.
  destruct (removeRange_cellAt chain (k * maxCols + (maxCol - n)) (k * maxCols + maxCol)
              Hsegs ltac:(nia) ltac:(nia)) as (Hwf1 & HL1 & Hcell1).
  set (pad := Padding (new_PaddingSegment n (Some UniversalSequenceNumber) (Some LocalClientId))).
  assert (Hpad : wf_segment pad = true) by (apply wf_padding_intro; cbn; nia).
  destruct (insertSegmentLocal_cells _ (k * maxCols + c) pad Hwf1 Hpad ltac:(nia))
    as (chain' & Hins & Hwf2 & HL2 & Hcell2).
  exists chain'. change (segmentLength pad) with n in *.
  split_and!; [assumption | apply wf_chain_intro; [assumption | lia] | lia |].
  intros q. rewrite Hcell2.
  destruct (Z.ltb_spec q (k * maxCols + c)).
  - rewrite Hcell1.
    destruct (Z.ltb_spec q (k * maxCols + (maxCol - n))); [reflexivity | lia].
  - destruct (Z.ltb_spec q (k * maxCols + c + n)).
    + cbn [segmentCells pad new_PaddingSegment pad_base cachedLength].
      apply lookup_replicate_2. lia.
    + rewrite Hcell1.
      destruct (Z.ltb_spec (q - n) (k * maxCols + (maxCol - n)));
        destruct (Z.ltb_spec q (k * maxCols + maxCol)); try lia; [reflexivity|].
      f_equal. lia.
Qed.

Lemma moveAsPadding_rows_insertCols fuel : forall this c n k,
  well_formed this = true ->
  0 <= k -> 0 <= c -> 0 <= n -> c + n <= maxCol ->
  numRows this - k <= Z.of_nat fuel ->
  exists this',
    moveAsPadding_rows fuel (maxCol - n) maxCol c n k (k * maxCols) this = Some this'
    /\ well_formed this' = true
    /\ getLength (client this') = getLength (client this)
    /\ forall q,
         cellAt (client this') q = cellAfterInsertCols (client this) c n k (numRows this) q.
Proof.
  induction fuel as [| fuel IH]; intros this c n k Hwf Hk Hc Hn Hcn Hfuel.
  - cbn [moveAsPadding_rows].
    destruct (Z.ltb_spec k (numRows this)); [lia|].
    exists this. split_and!; try done.
    intros q. unfold cellAfterInsertCols.
    destruct (Z.leb_spec 0 q); [|reflexivity].
    destruct (Z.leb_spec k (q / maxCols)); [|reflexivity].
    destruct (Z.ltb_spec (q / maxCols) (numRows this)); [lia | reflexivity].
  - cbn [moveAsPadding_rows].
    pose proof maxCols_eq as HM. pose proof maxCol_eq as HC.
    pose proof MAX_SAFE_INTEGER_eq as HS.
    pose proof (numRows_safe this Hwf) as HR.
    pose proof Hwf as Hwf0. apply wf_chain_inv in Hwf0 as [Hsegs HL].
    destruct (Z.ltb_spec k (numRows this)) as [Hlt | Hge].
    + assert (Hrow : (k + 1) * maxCols <= getLength (client this)).
      { assert (k + 1 <= getLength (client this) / maxCols) by lia.
        pose proof (Z.mul_div_le (getLength (client this)) maxCols ltac:(lia)). nia. }
      rewrite !add_safe by nia.
      destruct (moveAsPadding_row (client this) c n k Hwf Hk Hrow Hc Hn Hcn)
        as (chain' & Hins & Hwf' & HL' & Hcell').
      cbn [client set_client]. rewrite Hins.
      set (this1 := set_client chain' _).
      assert (HR1 : numRows this1 = numRows this).
      { rewrite (numRows_safe this1), HR by exact Hwf'. cbn [this1 client set_client].
        rewrite HL'. reflexivity. }
      replace (k * maxCols + maxCols) with ((k + 1) * maxCols) by lia.
      destruct (IH this1 c n (k + 1) Hwf' ltac:(lia) Hc Hn Hcn ltac:(lia))
        as (this' & Hloop & Hwf2 & HL2 & Hcell2).
      exists this'. split_and!; [assumption | assumption | cbn in HL2; lia |].
      intros q. rewrite Hcell2, HR1. cbn [this1 client set_client].
      unfold cellAfterInsertCols.
      destruct (Z.leb_spec 0 q) as [Hq | Hq]; cbn [andb].
      * pose proof (Z.div_mod q maxCols ltac:(lia)) as Hdm.
        pose proof (Z.mod_pos_bound q maxCols ltac:(lia)) as Hmod.
        set (r := q / maxCols) in *. set (col := q mod maxCols) in *.
        destruct (Z.ltb_spec r (numRows this)) as [Hr | Hr];
          destruct (Z.leb_spec (k + 1) r) as [Hk1 | Hk1];
          destruct (Z.leb_spec k r) as [Hk0 | Hk0]; cbn [andb]; try lia.
        -- (* a later row: the iteration for row k left it alone *)
           rewrite !Hcell'.
           destruct (Z.ltb_spec q (k * maxCols + c)); [nia|].
           destruct (Z.ltb_spec q (k * maxCols + c + n)); [nia|].
           destruct (Z.ltb_spec q (k * maxCols + maxCol)); [nia|].
           destruct (Z.ltb_spec col c); [reflexivity|].
           destruct (Z.ltb_spec col (c + n)); [reflexivity|].
           destruct (Z.ltb_spec col maxCol); [|reflexivity].
           destruct (Z.ltb_spec (q - n) (k * maxCols + c)); [nia|].
           destruct (Z.ltb_spec (q - n) (k * maxCols + c + n)); [nia|].
           destruct (Z.ltb_spec (q - n) (k * maxCols + maxCol)); [nia|].
           reflexivity.
        -- (* row k itself *)
           assert (r = k) by lia. rewrite Hcell'.
           destruct (Z.ltb_spec col c); destruct (Z.ltb_spec q (k * maxCols + c)); try nia;
             [reflexivity|].
           destruct (Z.ltb_spec col (c + n)); destruct (Z.ltb_spec q (k * maxCols + c + n));
             try nia; [reflexivity|].
           destruct (Z.ltb_spec col maxCol); destruct (Z.ltb_spec q (k * maxCols + maxCol));
             try nia; reflexivity.
        -- (* an earlier row *)
           rewrite Hcell'. destruct (Z.ltb_spec q (k * maxCols + c)); [reflexivity | nia].
        -- (* beyond the last full row *)
           rewrite Hcell'.
           destruct (Z.ltb_spec q (k * maxCols + c)); [reflexivity|].
           destruct (Z.ltb_spec q (k * maxCols + c + n)); [nia|].
           destruct (Z.ltb_spec q (k * maxCols + maxCol)); [nia | reflexivity].
      * rewrite Hcell'. destruct (Z.ltb_spec q (k * maxCols + c)); [reflexivity | nia].
    + exists this. split_and!; try done.
      intros q. unfold cellAfterInsertCols.
      destruct (Z.leb_spec 0 q); [|reflexivity].
      destruct (Z.leb_spec k (q / maxCols)); [|reflexivity].
      destruct (Z.ltb_spec (q / maxCols) (numRows this)); [lia | reflexivity].
Qed.
End MoveAsPadding.

(** Claim C7, amended (column shift).  In a well-formed matrix,
    [insertCols c n] with [c + n <= maxCol] returns (any fuel of at least
    [numRows] iterations is enough), and in every row [r < numRows]: the
    cells of the columns below [c] read as before; the value formerly at a
    column [c <= col < maxCol - n] is read at column [col + n]; the columns
    [c, c + n) read as absent.  The [n] columns below [maxCol] are the ones
    the operation gives up. *)
Theorem insertCols_column_shift `{MergeTreeConstants} this c n fuel :
  well_formed this = true ->
  0 <= c -> 0 <= n -> c + n <= maxCol ->
  numRows this <= Z.of_nat fuel ->
  exists this',
    insertCols fuel c n this = Some this'
    /\ forall r, 0 <= r < numRows this ->
         (forall col, 0 <= col < c ->
            getItem r col this' = (eval (getItem r col) this, this'))
         /\ (forall col, c <= col < maxCol - n ->
               getItem r (col + n) this' = (eval (getItem r col) this, this'))
         /\ (forall col, c <= col < c + n ->
               getItem r col this' = (Return Undefined, this')).
Proof.
  intros Hwf Hc Hn Hcn Hfuel.
  pose proof maxCols_eq as HM. pose proof maxCol_eq as HC.
  pose proof MAX_SAFE_INTEGER_eq as HS.
  destruct (moveAsPadding_rows_insertCols fuel this c n 0 Hwf ltac:(lia) Hc Hn Hcn ltac:(lia))
    as (this' & Hloop & Hwf' & HL' & Hcell').
  exists this'. split.
  { unfold insertCols, moveAsPadding. rewrite sub_safe, add_safe by lia.
    replace (maxCol - n + n) with maxCol by lia. exact Hloop. }
  pose proof (numRows_safe this Hwf) as HR.
  apply wf_chain_inv in Hwf as [Hsegs HL]. apply wf_chain_inv in Hwf' as [Hsegs' _].
  intros r Hr.
  assert (Hrow : (r + 1) * maxCols <= getLength (client this)).
  { pose proof (Z.mul_div_le (getLength (client this)) maxCols ltac:(lia)). nia. }
  (* the cell of row [r] and column [col], before and after *)
  assert (Hcellr : forall col, 0 <= col < maxCols ->
            rowColToPosition r col = r * maxCols + col
            /\ is_Some (cellAt (client this) (r * maxCols + col))
            /\ (r * maxCols + col) / maxCols = r
            /\ (r * maxCols + col) mod maxCols = col).
  { intros col Hcol. split_and!.
    - apply rowColToPosition_safe; nia.
    - apply cellAt_inside. rewrite <- getLength_cells by assumption. nia.
    - symmetry. apply Z.div_unique with (r := col); lia.
    - symmetry. apply Z.mod_unique with (q := r); lia. }
  assert (Hafter : forall col, 0 <= col < maxCols ->
            cellAt (client this') (rowColToPosition r col) =
            if col <? c then cellAt (client this) (r * maxCols + col)
            else if col <? c + n then Some Undefined
            else if col <? maxCol then cellAt (client this) (r * maxCols + col - n)
            else cellAt (client this) (r * maxCols + col)).
  { intros col Hcol. destruct (Hcellr col Hcol) as (-> & _ & Hdiv & Hmod).
    rewrite Hcell'. unfold cellAfterInsertCols. rewrite Hdiv, Hmod.
    destruct (Z.leb_spec 0 (r * maxCols + col)); [|nia].
    destruct (Z.leb_spec 0 r); [|lia].
    destruct (Z.ltb_spec r (numRows this)); [|lia].
    reflexivity. }
  split_and!.
  - intros col Hcol.
    destruct (Hcellr col ltac:(lia)) as (Hpos & [v Hv] & _).
    rewrite (getItem_cellAt this' r col v); [|assumption|].
    + unfold eval. rewrite (getItem_cellAt this r col v); [reflexivity | assumption |].
      rewrite Hpos. exact Hv.
    + rewrite Hafter by lia. destruct (Z.ltb_spec col c); [exact Hv | lia].
  - intros col Hcol.
    destruct (Hcellr col ltac:(lia)) as (Hpos & [v Hv] & _).
    rewrite (getItem_cellAt this' r (col + n) v); [|assumption|].
    + unfold eval. rewrite (getItem_cellAt this r col v); [reflexivity | assumption |].
      rewrite Hpos. exact Hv.
    + rewrite Hafter by lia.
      destruct (Z.ltb_spec (col + n) c); [lia|].
      destruct (Z.ltb_spec (col + n) (c + n)); [lia|].
      destruct (Z.ltb_spec (col + n) maxCol); [|lia].
      rewrite <- Hv. f_equal. lia.
  - intros col Hcol. apply getItem_cellAt; [assumption|].
    rewrite Hafter by lia.
    destruct (Z.ltb_spec col c); [lia|].
    destruct (Z.ltb_spec col (c + n)); [reflexivity | lia].
Qed.

(** The row count where lengths are safe integers.  In a well-formed
    matrix [numRows] is [floor (length / maxCols)], computed from the length
    of the chain;
    [insertRows r n] at a row start inside the extent adds [n * maxCols]
    positions and exactly [n] rows; [removeRows r n] inside the extent
    removes [n * maxCols] positions and exactly [n] rows. *)
Theorem numRows_insertRows_removeRows this :
  well_formed this = true ->
  numRows this = getLength (client this) / maxCols
  /\ (forall r n,
        0 <= r -> 0 <= n -> r * maxCols <= getLength (client this) ->
        getLength (client this) + n * maxCols <= Number.MAX_SAFE_INTEGER ->
        getLength (client (insertRows r n this)) = getLength (client this) + n * maxCols
        /\ numRows (insertRows r n this) = numRows this + n)
  /\ (forall r n,
        0 <= r -> 0 <= n -> (r + n) * maxCols <= getLength (client this) ->
        getLength (client (removeRows r n this)) = getLength (client this) - n * maxCols
        /\ numRows (removeRows r n this) = numRows this - n).
Proof.
  intros Hwf. pose proof (numRows_safe this Hwf) as HR.
  pose proof maxCols_eq as HM. pose proof MAX_SAFE_INTEGER_eq as HS.
  pose proof Hwf as Hwf0. apply wf_chain_inv in Hwf0 as [Hsegs HL].
  split_and!; [exact HR | |].
  - intros r n Hr Hn Hpos Hsafe. unfold insertRows.
    rewrite rowColToPosition_safe, mul_safe by nia.
    rewrite Z.add_0_r, (Z.mul_comm maxCols n).
    set (pad := Padding (new_PaddingSegment (n * maxCols) None None)).
    assert (Hpad : wf_segment pad = true) by (apply wf_padding_intro; cbn; nia).
    destruct (insertSegmentLocal_cells (client this) (r * maxCols) pad Hsegs Hpad ltac:(lia))
      as (chain' & -> & Hwf' & HL' & _).
    change (segmentLength pad) with (n * maxCols) in HL'.
    split; [exact HL'|].
    rewrite numRows_safe by (apply wf_chain_intro; cbn; [assumption | lia]).
    cbn [client set_client]. rewrite HL', HR. apply Z.div_add. lia.
  - intros r n Hr Hn Hend. unfold removeRows.
    rewrite rowColToPosition_safe, mul_safe by nia.
    rewrite Z.add_0_r, add_safe by nia.
    destruct (removeRange_cellAt (client this) (r * maxCols) (r * maxCols + maxCols * n)
                Hsegs ltac:(nia) ltac:(nia)) as (Hwf' & HL' & _).
    cbn [client set_client].
    split; [lia|].
    rewrite numRows_safe by (apply wf_chain_intro; cbn; [assumption | nia]).
    cbn [client set_client]. rewrite HL', HR.
    replace (getLength (client this) - (r * maxCols + maxCols * n - r * maxCols))
      with (getLength (client this) + (- n) * maxCols) by lia.
    rewrite Z.div_add by lia. lia.
Qed.

Lemma locate_offset_nonneg chain : forall pos i offset,
  0 <= pos -> locate chain pos = Some (i, offset) -> 0 <= offset.
Proof.
  induction chain as [| s chain IH]; intros pos i offset Hpos Hloc; [discriminate|].
  cbn [locate] in Hloc.
  destruct (Z.ltb_spec pos (segmentLength s)).
  - injection Hloc as _ <-. assumption.
  - destruct (locate chain (pos - segmentLength s)) as [[j off]|] eqn:Hrec; [|discriminate].
    injection Hloc as _ <-. eapply IH; [|eassumption]. lia.
Qed.

(** Replacing a segment by one of the same length moves no position. *)
Lemma locate_insert_same_length chain : forall i s s' pos,
  chain !! i = Some s -> segmentLength s' = segmentLength s ->
  locate (<[i := s']> chain) pos = locate chain pos.
Proof.
  induction chain as [| s0 chain IH]; intros i s s' pos Hi Hlen; [reflexivity|].
  destruct i as [| i]; cbn in Hi |- *.
  - injection Hi as ->. rewrite Hlen. reflexivity.
  - rewrite (IH i s s' _ Hi Hlen). reflexivity.
Qed.

Lemma getSegment_Return_inv this row col i segment offset :
  eval (getSegment row col) this = Return (i, segment, offset) ->
  getContainingSegment (client this) (rowColToPosition row col) = Some (i, offset)
  /\ client this !! i = Some segment.
Proof.
  unfold getSegment. run_monad.
  destruct (getContainingSegment _ _) as [[j off]|]; [|discriminate].
  destruct (client this !! j) eqn:Hj; [|discriminate].
  intros Heq. injection Heq as -> -> ->. split; [reflexivity | assumption].
Qed.

Lemma getSegment_eq this row col i segment offset :
  getContainingSegment (client this) (rowColToPosition row col) = Some (i, offset) ->
  client this !! i = Some segment ->
  getSegment row col this = (Return (i, segment, offset), this).
Proof. intros Hloc Hi. unfold getSegment. run_monad. rewrite Hloc, Hi. reflexivity. Qed.

(** Claim C6 (tags).  Let [segment] be the segment that covers the cell.
    [setTag] throws [InvalidTagTarget] if and only if [segment] is not a run
    and [tag] is not [undefined]; on padding, an [undefined] tag leaves the
    matrix unchanged and any other tag throws before anything changes; on a
    run, the tag is stored at the offset of the cell in the live segment and
    [getTag] returns it afterwards. *)
Theorem setTag_spec this row col tag i segment offset :
  eval (getSegment row col) this = Return (i, segment, offset) ->
  (eval (setTag row col tag) this = Throw InvalidTagTarget
     <-> RunSegment_is (Matrix segment) = false /\ tag <> Undefined)
  /\ match segment with
     | Padding _ =>
         (tag = Undefined -> setTag row col tag this = (Return tt, this))
         /\ (tag <> Undefined -> setTag row col tag this = (Throw InvalidTagTarget, this))
     | Run r =>
         let this' := exec (setTag row col tag) this in
         eval (setTag row col tag) this = Return tt
         /\ client this' =
            <[i := Run (mkRun (run_base r) (items r) (Array.set (tags r) offset tag))]> (client this)
         /\ eval (getTag row col) this' = Return tag
     end.
Proof.
  intros Hseg. apply getSegment_Return_inv in Hseg as [Hloc Hi].
  pose proof (getSegment_eq this row col i segment offset Hloc Hi) as Hget.
  assert (Hset : setTag row col tag this =
          match segment with
          | Run r => (Return tt,
                      set_client (<[i := Run (mkRun (run_base r) (items r)
                                                    (Array.set (tags r) offset tag))]> (client this))
                                 this)
          | Padding _ => if negb (is_undefined tag) then (Throw InvalidTagTarget, this)
                         else (Return tt, this)
          end).
  { unfold setTag. unfold mbind at 1, M_bind at 1. rewrite Hget.
    destruct segment; [destruct (is_undefined tag)|]; reflexivity. }
  split.
  - unfold eval. rewrite Hset. destruct segment as [p | r]; cbn.
    + destruct tag; cbn; split; try discriminate; try (intros [_ Hne]; congruence);
        intros _; (split; [reflexivity | discriminate]).
    + split; [discriminate | intros [Hne _]; discriminate].
  - destruct segment as [p | r].
    + split; intros Htag; rewrite Hset.
      * rewrite Htag. reflexivity.
      * destruct tag; [congruence | reflexivity..].
    + cbv zeta. unfold exec, eval. rewrite Hset. cbn [fst snd].
      split_and!; [reflexivity | reflexivity |].
      set (r' := mkRun (run_base r) (items r) (Array.set (tags r) offset tag)).
      set (this' := set_client _ this).
      assert (Hpos : 0 <= rowColToPosition row col /\
                     locate (client this) (rowColToPosition row col) = Some (i, offset)).
      { unfold getContainingSegment in Hloc.
        destruct (Z.ltb_spec (rowColToPosition row col) 0); [discriminate|]. split; assumption. }
      destruct Hpos as [Hpos Hlocate].
      assert (Hget' : getSegment row col this' = (Return (i, Run r', offset), this')).
      { apply getSegment_eq.
        - unfold getContainingSegment in *. cbn [this' client set_client].
          destruct (Z.ltb_spec (rowColToPosition row col) 0); [discriminate|].
          rewrite (locate_insert_same_length _ i (Run r) (Run r')); [assumption..|reflexivity].
        - cbn [this' client set_client]. apply list_lookup_insert_eq.
          eapply lookup_lt_Some; eassumption. }
      unfold getTag. unfold mbind at 1, M_bind at 1. rewrite Hget'. cbn.
      unfold RunSegment_getTag. cbn [tags r'].
      rewrite get_set_same; [reflexivity|].
      eapply locate_offset_nonneg; eassumption.
Qed.

(** With no segment at the cell, the source dereferences [undefined]. *)
Lemma setTag_outside this row col tag :
  getContainingSegment (client this) (rowColToPosition row col) = None ->
  setTag row col tag this = (Throw TypeError, this).
Proof.
  intros Hloc. unfold setTag, getSegment. run_monad. rewrite Hloc. reflexivity.
Qed.

(** Inside a run that satisfies the invariant, the split keeps the first
    [k] values and tags and hands the others to the sibling. *)
Lemma RunSegment_createSplitSegmentAt_inside r k :
  run_invariant r = true ->
  0 < k < cachedLength (run_base r) ->
  RunSegment_createSplitSegmentAt k r =
  (Return (Some (mkRun (mkBase (Z.of_nat (length (drop (Z.to_nat k) (items r))))
                               (seq (run_base r)) (clientId (run_base r)) None [])
                       (drop (Z.to_nat k) (items r))
                       (drop (Z.to_nat k) (tags r)))),
   mkRun (set_cachedLength (Z.of_nat (length (take (Z.to_nat k) (items r)))) (run_base r))
         (take (Z.to_nat k) (items r))
         (take (Z.to_nat k) (tags r))).
Proof.
  intros Hinv Hk. apply run_invariant_inv in Hinv as (Hlen & Htags).
  rewrite RunSegment_createSplitSegmentAt_eq by lia.
  rewrite !slice_from, slice_upto, set_length_truncate by lia.
  reflexivity.
Qed.

(** Claim C3 (split law).  Splitting a run of length [L] that satisfies
    the invariant at [0 < k < L] returns a sibling and leaves the segment
    with: the values of both concatenated are the original values, the tags
    of both concatenated are the original tags, the sibling carries the
    [seq] and [clientId] of the original, and the lengths are [k] and
    [L - k]; the engine's [splitAt] hands out the same values and tags. *)
Theorem RunSegment_split_law r k :
  run_invariant r = true ->
  0 < k < cachedLength (run_base r) ->
  exists left_ right_,
    RunSegment_createSplitSegmentAt k r = (Return (Some right_), left_)
    /\ items left_ ++ items right_ = items r
    /\ tags left_ ++ tags right_ = tags r
    /\ seq (run_base right_) = seq (run_base r)
    /\ clientId (run_base right_) = clientId (run_base r)
    /\ cachedLength (run_base left_) = k
    /\ cachedLength (run_base right_) = cachedLength (run_base r) - k
    /\ exists lb rb,
         splitAt k (Run r) = (Run (mkRun lb (items left_) (tags left_)),
                              Some (Run (mkRun rb (items right_) (tags right_))))
         /\ seq rb = seq (run_base r) /\ clientId rb = clientId (run_base r).
Proof.
  intros Hinv Hk.
  pose proof (RunSegment_createSplitSegmentAt_inside r k Hinv Hk) as Heq.
  apply run_invariant_inv in Hinv as (Hlen & Htags).
  eexists _, _. split; [exact Heq|]. cbn.
  split_and!; try reflexivity.
  - apply take_drop.
  - apply take_drop.
  - rewrite length_take. lia.
  - rewrite length_drop. lia.
  - unfold splitAt. destruct (Z.ltb_spec 0 k); [|lia].
    rewrite Heq. cbn. eexists _, _. split_and!; reflexivity.
Qed.

Lemma RunSegment_append_eq (b : RunSegment) a :
  RunSegment_append (Matrix (Run b)) a =
  (Return tt,
   mkRun (set_cachedLength (Z.of_nat (length (items a ++ items b)))
                           (appendLocalRefs (run_base b) (run_base a)))
         (items a ++ items b)
         (Array.splice (tags a) (Z.of_nat (length (items a ++ items b))) 0 (tags b))).
Proof. reflexivity. Qed.

(** Claim C4 (append law).  If [a] satisfies the invariant and
    [a.canAppend(segment)], then [segment] is a run [b], [a.append(b)]
    returns, and afterwards the values of [a] are its former values followed
    by those of [b], and likewise for the tags.  Append undoes split: if
    [a] and [b] are the two halves of a split of [r], the result carries the
    values, tags and length of [r]. *)
Theorem RunSegment_append_law a segment :
  run_invariant a = true ->
  RunSegment_canAppend a segment = true ->
  exists b a',
    segment = Matrix (Run b)
    /\ RunSegment_append segment a = (Return tt, a')
    /\ items a' = items a ++ items b
    /\ tags a' = tags a ++ tags b
    /\ (forall r k,
          run_invariant r = true -> 0 < k < cachedLength (run_base r) ->
          RunSegment_createSplitSegmentAt k r = (Return (Some b), a) ->
          items a' = items r /\ tags a' = tags r
          /\ cachedLength (run_base a') = cachedLength (run_base r)).
Proof.
  intros Hinv Hcan. apply run_invariant_inv in Hinv as (Hlen & Htags).
  destruct segment as [[p | b] | f]; try discriminate.
  exists b. eexists. split; [reflexivity|]. split; [apply RunSegment_append_eq|].
  cbn [items tags run_base].
  rewrite splice_append by (rewrite length_app; lia).
  split_and!; try reflexivity.
  intros r k Hr Hk Hsplit.
  rewrite (RunSegment_createSplitSegmentAt_inside r k Hr Hk) in Hsplit.
  injection Hsplit as <- <-.
  apply run_invariant_inv in Hr as (Hrlen & _).
  cbn. rewrite !take_drop. split_and!; [reflexivity | reflexivity | lia].
Qed.

(** Claim C5 (padding merge).  [append] returns exactly when the argument
    is a padding segment ([canAppend]); the length is then the sum of the
    two lengths (computed on doubles: the exact sum whenever it is a safe
    integer); for any other argument it throws [InvalidAppend] and the
    segment is as it was. *)
Theorem PaddingSegment_append_spec this segment :
  (PaddingSegment_canAppend this segment = true
     <-> eval (PaddingSegment_append segment) this = Return tt)
  /\ (PaddingSegment_is segment = true ->
      eval (PaddingSegment_append segment) this = Return tt
      /\ cachedLength (pad_base (exec (PaddingSegment_append segment) this)) =
         Number.add (cachedLength (pad_base this)) (cachedLength (ibase segment))
      /\ (0 <= cachedLength (pad_base this) -> 0 <= cachedLength (ibase segment) ->
          cachedLength (pad_base this) + cachedLength (ibase segment) <= Number.MAX_SAFE_INTEGER ->
          cachedLength (pad_base (exec (PaddingSegment_append segment) this)) =
          cachedLength (pad_base this) + cachedLength (ibase segment)))
  /\ (PaddingSegment_is segment = false ->
      PaddingSegment_append segment this = (Throw InvalidAppend, this)).
Proof.
  unfold PaddingSegment_canAppend, PaddingSegment_append, eval, exec.
  destruct (PaddingSegment_is segment) eqn:His; cbn.
  - split_and!; try done.
    intros _. split_and!; try reflexivity.
    intros Hn Hm Hsafe. apply add_safe; lia.
  - split_and!; try done.
Qed.

(** Claim C9 (tags are not serialized).  [segmentFromSpec] applied to the
    serialized form of a run returns a run with the same values and a tag
    array of the same length, every entry [undefined], whatever tags the
    original carried: the serialized form does not depend on the tags. *)
Theorem tags_never_serialized `{MergeTreeConstants} r :
  exists r',
    segmentFromSpec (Some (RunSegment_toJSONObject r)) = Return (Run r')
    /\ items r' = items r
    /\ tags r' = replicate (length (items r)) Undefined
    /\ length (tags r') = length (items r)
    /\ forall t, RunSegment_toJSONObject (mkRun (run_base r) (items r) t)
                 = RunSegment_toJSONObject r.
Proof.
  unfold segmentFromSpec, PaddingSegment_fromJSONObject, RunSegment_fromJSONObject.
  cbn [RunSegment_toJSONObject json_pad json_items json_props].
  destruct (properties (run_base r)); eexists; (split; [reflexivity|]); cbn;
    unfold Array.fill_undefined; rewrite length_replicate; split_and!; reflexivity.
Qed.

(** Claim C10 (clone ignores its range).  For every [start] and [end] the
    clone of a padding segment has the full length of the original, its
    properties and its provenance: it is the clone of the whole segment. *)
Theorem PaddingSegment_clone_ignores_range this start end_ :
  let b := PaddingSegment_clone this start end_ in
  cachedLength (pad_base b) = cachedLength (pad_base this)
  /\ properties (pad_base b) = properties (pad_base this)
  /\ seq (pad_base b) = seq (pad_base this)
  /\ clientId (pad_base b) = clientId (pad_base this)
  /\ b = PaddingSegment_clone this 0 None.
Proof. cbn. split_and!; reflexivity. Qed.

(** Property X2 (a cell names one position).  Where the linear position
    is a safe integer, [positionToRowCol] is the exact inverse of
    [rowColToPosition]. *)
Lemma positionToRowCol_rowColToPosition_safe row_ col_ :
  0 <= row_ -> 0 <= col_ <= maxCol ->
  row_ * maxCols + col_ <= Number.MAX_SAFE_INTEGER ->
  positionToRowCol (rowColToPosition row_ col_) = {| row := row_; col := col_ |}.
Proof.
  intros Hrow Hcol Hsafe.
  pose proof maxCols_eq as HM. pose proof maxCol_eq as HC.
  pose proof MAX_SAFE_INTEGER_eq as HS.
  rewrite rowColToPosition_safe by lia.
  unfold positionToRowCol.
  rewrite floor_div_safe by nia.
  assert (Hdiv : (row_ * maxCols + col_) / maxCols = row_).
  { symmetry. apply Z.div_unique with (r := col_); lia. }
  rewrite Hdiv, mul_safe by nia.
  rewrite sub_safe by nia. f_equal. lia.
Qed.

(** Claim C2 fails in the last rows of the documented range.  The cell
    [(maxRow, 1)] lies inside [0, maxRow] x [0, maxCol]; its linear position
    [4294967295 * 2097153 + 1] exceeds 2^53, the product rounds to
    [9007203547611136] and adding 1 rounds back to it, so it shares the
    position of [(maxRow, 0)] and [positionToRowCol] returns [(maxRow, 0)]. *)
Theorem positionToRowCol_rowColToPosition_last_row :
  0 <= maxRow <= maxRow /\ 0 <= 1 <= maxCol
  /\ rowColToPosition maxRow 1 = 9007203547611136
  /\ rowColToPosition maxRow 1 = rowColToPosition maxRow 0
  /\ positionToRowCol (rowColToPosition maxRow 1) = {| row := maxRow; col := 0 |}
  /\ positionToRowCol (rowColToPosition maxRow 1) <> {| row := maxRow; col := 1 |}.
Proof. vm_compute. split_and!; try discriminate; reflexivity. Qed.

(** ** The invariant is kept by the operations of the facade *)

Lemma well_formed_emptyMatrix : well_formed emptyMatrix = true.
Proof. reflexivity. Qed.

Lemma well_formed_setItems this row col values props :
  well_formed this = true ->
  0 <= row -> 0 <= col ->
  row * maxCols + col + Z.of_nat (length values) <= getLength (client this) ->
  well_formed (setItems row col values props this) = true.
Proof.
  intros Hwf Hrow Hcol Hend.
  destruct (setItems_cellAt this row col values props Hwf Hrow Hcol Hend) as (Hsegs & HL & _).
  apply wf_chain_inv in Hwf as [_ Hsafe].
  apply wf_chain_intro; [assumption | lia].
Qed.

Lemma well_formed_insertRows this r n :
  well_formed this = true ->
  0 <= r -> 0 <= n -> r * maxCols <= getLength (client this) ->
  getLength (client this) + n * maxCols <= Number.MAX_SAFE_INTEGER ->
  well_formed (insertRows r n this) = true.
Proof.
  intros Hwf Hr Hn Hpos Hsafe.
  pose proof maxCols_eq as HM. pose proof MAX_SAFE_INTEGER_eq as HS.
  apply wf_chain_inv in Hwf as [Hsegs HL]. unfold insertRows.
  rewrite rowColToPosition_safe, mul_safe by nia.
  rewrite Z.add_0_r, (Z.mul_comm maxCols n).
  set (pad := Padding (new_PaddingSegment (n * maxCols) None None)).
  assert (Hpad : wf_segment pad = true) by (apply wf_padding_intro; cbn; nia).
  destruct (insertSegmentLocal_cells (client this) (r * maxCols) pad Hsegs Hpad ltac:(lia))
    as (chain' & -> & Hwf' & HL' & _).
  change (segmentLength pad) with (n * maxCols) in HL'.
  apply wf_chain_intro; cbn; [assumption | lia].
Qed.

Lemma well_formed_removeRows this r n :
  well_formed this = true ->
  0 <= r -> 0 <= n -> (r + n) * maxCols <= getLength (client this) ->
  well_formed (removeRows r n this) = true.
Proof.
  intros Hwf Hr Hn Hend.
  pose proof maxCols_eq as HM. pose proof MAX_SAFE_INTEGER_eq as HS.
  apply wf_chain_inv in Hwf as [Hsegs HL]. unfold removeRows.
  rewrite rowColToPosition_safe, mul_safe by nia.
  rewrite Z.add_0_r, add_safe by nia.
  destruct (removeRange_cellAt (client this) (r * maxCols) (r * maxCols + maxCols * n)
              Hsegs ltac:(nia) ltac:(nia)) as (Hwf' & HL' & _).
  apply wf_chain_intro; cbn; [assumption | nia].
Qed.

Lemma well_formed_insertCols `{MergeTreeConstants} this c n fuel :
  well_formed this = true ->
  0 <= c -> 0 <= n -> c + n <= maxCol ->
  numRows this <= Z.of_nat fuel ->
  exists this',
    insertCols fuel c n this = Some this'
    /\ well_formed this' = true
    /\ getLength (client this') = getLength (client this)
    /\ numRows this' = numRows this.
Proof.
  intros Hwf Hc Hn Hcn Hfuel.
  pose proof maxCol_eq as HC. pose proof MAX_SAFE_INTEGER_eq as HS.
  destruct (moveAsPadding_rows_insertCols fuel this c n 0 Hwf ltac:(lia) Hc Hn Hcn ltac:(lia))
    as (this' & Hloop & Hwf' & HL' & _).
  exists this'. split_and!; try assumption.
  - unfold insertCols, moveAsPadding. rewrite sub_safe, add_safe by lia.
    replace (maxCol - n + n) with maxCol by lia. exact Hloop.
  - rewrite !numRows_safe by assumption. rewrite HL'. reflexivity.
Qed.

Lemma locate_offset_inside chain : forall pos i offset,
  locate chain pos = Some (i, offset) ->
  exists s, chain !! i = Some s /\ offset < segmentLength s.
Proof.
  induction chain as [| s chain IH]; intros pos i offset Hloc; [discriminate|].
  cbn [locate] in Hloc.
  destruct (Z.ltb_spec pos (segmentLength s)).
  - injection Hloc as <- <-. exists s. split; [reflexivity | assumption].
  - destruct (locate chain (pos - segmentLength s)) as [[j off]|] eqn:Hrec; [|discriminate].
    injection Hloc as <- <-. exact (IH _ _ _ Hrec).
Qed.

Lemma wf_chain_insert_same_length chain : forall i s s',
  chain !! i = Some s -> wf_segment s' = true -> segmentLength s' = segmentLength s ->
  wf_chain chain = true -> wf_chain (<[i := s']> chain) = true.
Proof.
  intros i s s' Hi Hs' Hlen Hwf. apply wf_chain_inv in Hwf as [Hsegs HL].
  assert (Hboth : forallb wf_segment (<[i := s']> chain) = true
                  /\ getLength (<[i := s']> chain) = getLength chain).
  { clear HL. revert i Hi. induction chain as [| s0 chain IH]; intros i Hi; [done|].
    apply forallb_cons_inv in Hsegs as [Hs0 Hc].
    destruct i as [| i]; cbn [lookup list_lookup] in Hi;
      cbn [insert list_insert forallb getLength].
    - injection Hi as ->. rewrite Hs', Hc, Hlen. done.
    - destruct (IH Hc i Hi) as [Hf Hg].
      split; [rewrite Hs0; exact Hf | f_equal; exact Hg]. }
  destruct Hboth as [Hsegs' HL']. apply wf_chain_intro; [assumption | lia].
Qed.

Lemma well_formed_setTag this row col tag :
  well_formed this = true -> well_formed (exec (setTag row col tag) this) = true.
Proof.
  intros Hwf. unfold setTag, getSegment, exec. run_monad.
  destruct (getContainingSegment (client this) (rowColToPosition row col))
    as [[i offset]|] eqn:Hloc; [|assumption].
  destruct (client this !! i) as [[p | r]|] eqn:Hi; try assumption.
  - destruct (is_undefined tag); assumption.
  - unfold getContainingSegment in Hloc.
    destruct (Z.ltb_spec (rowColToPosition row col) 0); [discriminate|].
    pose proof (locate_offset_nonneg _ _ _ _ ltac:(eassumption) Hloc) as Hoff.
    destruct (locate_offset_inside _ _ _ _ Hloc) as (s & Hs & Hlt).
    rewrite Hi in Hs. injection Hs as <-.
    pose proof Hwf as Hwf0. apply wf_chain_inv in Hwf0 as [Hsegs _].
    assert (Hr : wf_segment (Run r) = true).
    { rewrite forallb_forall in Hsegs. apply Hsegs.
      apply list_elem_of_In. eapply list_elem_of_lookup_2. eassumption. }
    apply wf_run_inv in Hr as (Hlen & Htags & Hsafe).
    unfold segmentLength in Hlt. cbn [base] in Hlt.
    unfold well_formed. cbn [client set_client].
    eapply wf_chain_insert_same_length; [eassumption | | reflexivity | assumption].
    apply wf_run_intro; cbn; try assumption.
    unfold Array.set. destruct (Z.ltb_spec offset 0); [lia|].
    destruct (Z.ltb_spec offset (Z.of_nat (length (tags r)))); [|lia].
    rewrite length_insert. assumption.
Qed.

(** ** Beyond the claims: values, tags and the structural operations *)

(** ** Values and tags through the structural operations *)

#[global] Instance segmentCells_follows : FollowsEngine segmentCells Undefined.
Proof.
  split.
  - intros s Hs. destruct (segmentLength_cells s Hs) as [-> _]. reflexivity.
  - reflexivity.
  - exact splitAt_cells.
  - exact segment_removeRange_cells.
Qed.

#[global] Instance segmentTags_follows : FollowsEngine segmentTags Undefined.
Proof.
  split.
  - intros [p | r] Hs; unfold segmentLength; cbn [base segmentTags].
    + apply wf_padding_inv in Hs. rewrite length_replicate. lia.
    + apply wf_run_inv in Hs. lia.
  - reflexivity.
  - intros pos s Hwf Hpos. unfold splitAt.
    destruct (Z.ltb_spec 0 pos) as [_|]; [|lia].
    destruct s as [p | r]; unfold segmentLength in Hpos; cbn [base] in Hpos.
    + apply wf_padding_inv in Hwf.
      rewrite PaddingSegment_createSplitSegmentAt_eq, sub_safe by lia.
      cbn. eexists _, _. split; [reflexivity|].
      split_and!.
      * apply wf_padding_intro. cbn. lia.
      * apply wf_padding_intro. cbn. lia.
      * cbn. rewrite take_replicate. f_equal. lia.
      * cbn. rewrite drop_replicate. f_equal. lia.
    + pose proof Hwf as Hinv. apply wf_run_inv in Hinv as (Hlen & Htags & Hsafe).
      rewrite RunSegment_createSplitSegmentAt_eq by lia.
      rewrite !slice_from, slice_upto, set_length_truncate by lia.
      cbn. eexists _, _. split; [reflexivity|].
      split_and!; try reflexivity.
      * apply wf_run_intro; cbn; rewrite ?length_take; lia.
      * apply wf_run_intro; cbn; rewrite ?length_drop; lia.
  - intros ls le s Hwf Hls Hle. unfold segment_removeRange.
    destruct s as [p | r]; unfold segmentLength in Hle; cbn [base] in Hle.
    + apply wf_padding_inv in Hwf.
      rewrite PaddingSegment_removeRange_eq. cbv zeta.
      rewrite (sub_safe le ls), sub_safe by lia.
      eexists _, _. split; [reflexivity|]. split_and!.
      * apply wf_padding_intro. cbn. lia.
      * cbn. rewrite take_replicate, drop_replicate, <- replicate_add. f_equal. lia.
      * cbn. intros Hz. apply Z.eqb_eq in Hz. rewrite Hz. reflexivity.
    + apply wf_run_inv in Hwf as (Hlen & Htags & Hsafe).
      rewrite RunSegment_removeRange_eq. cbv zeta.
      rewrite (sub_safe le ls) by lia.
      rewrite !splice_delete by lia.
      replace (ls + (le - ls)) with le by lia.
      eexists _, _. split; [reflexivity|]. split_and!.
      * apply wf_run_intro; cbn; rewrite ?length_app, ?length_take, ?length_drop; lia.
      * reflexivity.
      * cbn. intros Hz. apply Z.eqb_eq in Hz.
        apply nil_length_inv.
        rewrite length_app, length_take, length_drop in *. lia.
Qed.

Section View.
Context {A : Type} (view : MatrixSegment -> list A) (blankValue : A).
Context `{!FollowsEngine view blankValue}.

Lemma chainView_cons s chain : chainView view (s :: chain) = view s ++ chainView view chain.
Proof. reflexivity. Qed.

Lemma getLength_view chain :
  forallb wf_segment chain = true ->
  getLength chain = Z.of_nat (length (chainView view chain)).
Proof.
  induction chain as [| s chain IH]; intros Hwf; [reflexivity|].
  apply forallb_cons_inv in Hwf as [Hs Hc].
  rewrite chainView_cons, length_app. cbn [getLength].
  rewrite <- (view_length s Hs), IH by assumption. lia.
Qed.

Lemma locate_view chain pos :
  forallb wf_segment chain = true ->
  0 <= pos < getLength chain ->
  exists i offset s,
    locate chain pos = Some (i, offset)
    /\ chain !! i = Some s
    /\ 0 <= offset < segmentLength s
    /\ view s !! Z.to_nat offset = chainView view chain !! Z.to_nat pos.
Proof.
  revert pos. induction chain as [| s chain IH]; intros pos Hwf Hpos.
  - cbn in Hpos. lia.
  - apply forallb_cons_inv in Hwf as [Hs Hc].
    pose proof (view_length s Hs) as Hlen.
    cbn [locate getLength] in *.
    destruct (Z.ltb_spec pos (segmentLength s)) as [Hin | Hout].
    + exists 0%nat, pos, s. split_and!; try done; try lia.
      rewrite chainView_cons, lookup_app_l by lia. reflexivity.
    + destruct (IH (pos - segmentLength s) Hc ltac:(lia))
        as (i & offset & s' & -> & Hi & Hoff & Hcell).
      exists (S i), offset, s'. split_and!; try done; try lia.
      rewrite Hcell, chainView_cons, lookup_app_r by lia.
      f_equal. lia.
Qed.

Lemma insertAt_view chain pos seg :
  forallb wf_segment chain = true -> wf_segment seg = true ->
  0 <= pos <= getLength chain ->
  exists chain',
    insertAt chain pos seg = Some chain'
    /\ forallb wf_segment chain' = true
    /\ chainView view chain' =
       take (Z.to_nat pos) (chainView view chain) ++ view seg
       ++ drop (Z.to_nat pos) (chainView view chain).
Proof.
  revert pos. induction chain as [| s chain IH]; intros pos Hwf Hseg Hpos.
  - cbn in Hpos. assert (pos = 0) as -> by lia.
    exists [seg]. cbn. rewrite Hseg. split_and!; reflexivity.
  - pose proof Hwf as Hwf'. apply forallb_cons_inv in Hwf' as [Hs Hc].
    pose proof (view_length s Hs) as Hlen.
    cbn [insertAt getLength] in *.
    destruct (Z.eqb_spec pos 0) as [-> | Hne].
    + exists (seg :: s :: chain). split_and!; [reflexivity| |].
      * cbn [forallb]. rewrite Hseg. exact Hwf.
      * rewrite (chainView_cons seg). reflexivity.
    + destruct (Z.ltb_spec pos (segmentLength s)) as [Hin | Hout].
      * destruct (view_split pos s Hs ltac:(lia)) as (l & r & -> & Hl & Hr & Hcl & Hcr).
        exists (l :: seg :: r :: chain). split_and!; [reflexivity| |].
        -- cbn [forallb]. rewrite Hl, Hseg, Hr. exact Hc.
        -- rewrite !chainView_cons, Hcl, Hcr.
           rewrite take_app_le, drop_app_le by lia.
           rewrite <- ?app_assoc. reflexivity.
      * destruct (IH (pos - segmentLength s) Hc Hseg ltac:(lia)) as (chain' & -> & Hwf' & Hcells).
        exists (s :: chain'). split_and!; [reflexivity| |].
        -- cbn [forallb]. rewrite Hs. exact Hwf'.
        -- rewrite !chainView_cons, Hcells.
           rewrite take_app_ge, drop_app_ge by lia.
           rewrite <- ?app_assoc.
           replace (Z.to_nat pos - length (view s))%nat
             with (Z.to_nat (pos - segmentLength s)) by lia.
           reflexivity.
Qed.

Lemma removeRange_view chain start end_ :
  forallb wf_segment chain = true ->
  forallb wf_segment (removeRange chain start end_) = true
  /\ chainView view (removeRange chain start end_) =
     take (Z.to_nat start) (chainView view chain)
     ++ drop (Z.to_nat (Z.max start end_)) (chainView view chain).
Proof.
  revert start end_. induction chain as [| s chain IH]; intros start end_ Hwf.
  - split; [reflexivity|]. cbn. rewrite take_nil, drop_nil. reflexivity.
  - apply forallb_cons_inv in Hwf as [Hs Hc].
    pose proof (view_length s Hs) as Hlen.
    destruct (segmentLength_cells s Hs) as [_ Hrange].
    destruct (IH (start - segmentLength s) (end_ - segmentLength s) Hc) as [IHwf IHcells].
    cbn [removeRange]. cbv zeta.
    rewrite chainView_cons, take_drop_app by lia.
    replace (Z.to_nat start - length (view s))%nat
      with (Z.to_nat (start - segmentLength s)) by lia.
    replace (Z.to_nat (Z.max start end_) - length (view s))%nat
      with (Z.to_nat (Z.max (start - segmentLength s) (end_ - segmentLength s))) by lia.
    rewrite <- IHcells.
    destruct (Z.ltb_spec (Z.max start 0) (Z.min end_ (segmentLength s))) as [Hcut | Hkeep].
    + destruct (view_remove (Z.max start 0) (Z.min end_ (segmentLength s)) s Hs
                  ltac:(lia) ltac:(lia)) as (detach & s' & -> & Hs' & Hcells & Hdetach).
      assert (Heq : view s' =
                    take (Z.to_nat start) (view s)
                    ++ drop (Z.to_nat (Z.max start end_)) (view s)).
      { rewrite Hcells. f_equal; [f_equal; lia|].
        destruct (Z.le_gt_cases end_ (segmentLength s)).
        - f_equal. lia.
        - rewrite !drop_ge by lia. reflexivity. }
      destruct detach.
      * split; [assumption|]. rewrite <- Heq, Hdetach by reflexivity. reflexivity.
      * split; [cbn [forallb]; rewrite Hs'; assumption|].
        rewrite chainView_cons, Heq. reflexivity.
    + split; [cbn [forallb]; rewrite Hs; assumption|].
      rewrite chainView_cons. f_equal.
      destruct (Z.le_gt_cases end_ start).
      * rewrite Z.max_l by lia. symmetry. apply take_drop.
      * rewrite Z.max_r by lia.
        destruct (Z.le_gt_cases (segmentLength s) start).
        -- rewrite take_ge, drop_ge by lia. symmetry. apply app_nil_r.
        -- destruct (Z.le_gt_cases end_ 0).
           ++ replace (Z.to_nat start) with 0%nat by lia.
              replace (Z.to_nat end_) with 0%nat by lia. reflexivity.
           ++ assert (length (view s) = 0%nat) as Hnil by lia.
              apply nil_length_inv in Hnil. rewrite Hnil.
              rewrite take_nil, drop_nil. reflexivity.
Qed.

Lemma viewAt_inside chain pos :
  forallb wf_segment chain = true ->
  0 <= pos < getLength chain -> is_Some (viewAt view chain pos).
Proof.
  intros Hwf H. rewrite getLength_view in H by assumption.
  unfold viewAt. destruct (Z.ltb_spec pos 0); [lia|].
  apply lookup_lt_is_Some. lia.
Qed.

Lemma viewAt_outside chain pos :
  forallb wf_segment chain = true ->
  ~ 0 <= pos < getLength chain -> viewAt view chain pos = None.
Proof.
  intros Hwf H. rewrite getLength_view in H by assumption.
  unfold viewAt. destruct (Z.ltb_spec pos 0); [reflexivity|].
  apply lookup_ge_None. lia.
Qed.

Lemma insertSegmentLocal_viewAt chain pos seg :
  forallb wf_segment chain = true -> wf_segment seg = true ->
  0 <= pos <= getLength chain ->
  exists chain',
    insertSegmentLocal chain pos seg = Some chain'
    /\ forallb wf_segment chain' = true
    /\ getLength chain' = getLength chain + segmentLength seg
    /\ forall q,
         viewAt view chain' q =
         if q <? pos then viewAt view chain q
         else if q <? pos + segmentLength seg then view seg !! Z.to_nat (q - pos)
         else viewAt view chain (q - segmentLength seg).
Proof.
  intros Hwf Hseg Hpos.
  destruct (insertAt_view chain pos seg Hwf Hseg Hpos) as (chain' & Hins & Hwf' & Hcells).
  pose proof (view_length seg Hseg) as Hlen.
  pose proof (getLength_view chain Hwf) as HL.
  exists chain'. unfold insertSegmentLocal.
  destruct (Z.ltb_spec pos 0); [lia|].
  split_and!; try assumption.
  - rewrite (getLength_view chain') by assumption.
    rewrite Hcells, !length_app, length_take, length_drop. lia.
  - intros q. unfold viewAt. rewrite Hcells.
    destruct (Z.ltb_spec q pos) as [Hq | Hq].
    + destruct (Z.ltb_spec q 0); [reflexivity|].
      rewrite lookup_app_l by (rewrite length_take; lia).
      rewrite lookup_take. destruct (decide (Z.to_nat q < Z.to_nat pos)%nat); [reflexivity | lia].
    + destruct (Z.ltb_spec q 0); [lia|].
      rewrite lookup_app_r by (rewrite length_take; lia).
      rewrite length_take.
      replace (Z.to_nat q - Z.to_nat pos `min` length (chainView view chain))%nat
        with (Z.to_nat (q - pos)) by lia.
      destruct (Z.ltb_spec q (pos + segmentLength seg)) as [Hin | Hout].
      * rewrite lookup_app_l by lia. reflexivity.
      * rewrite lookup_app_r by lia. rewrite lookup_drop.
        destruct (Z.ltb_spec (q - segmentLength seg) 0); [lia|].
        f_equal. lia.
Qed.

Lemma removeRange_viewAt chain start end_ :
  forallb wf_segment chain = true ->
  0 <= start <= end_ -> end_ <= getLength chain ->
  forallb wf_segment (removeRange chain start end_) = true
  /\ getLength (removeRange chain start end_) = getLength chain - (end_ - start)
  /\ forall q,
       viewAt view (removeRange chain start end_) q =
       if q <? start then viewAt view chain q else viewAt view chain (q + (end_ - start)).
Proof.
  intros Hwf Hse Hend.
  destruct (removeRange_view chain start end_ Hwf) as [Hwf' Hcells].
  pose proof (getLength_view chain Hwf) as HL.
  rewrite Z.max_r in Hcells by lia.
  split_and!; try assumption.
  - rewrite (getLength_view (removeRange chain start end_)) by assumption.
    rewrite Hcells, !length_app, length_take, length_drop. lia.
  - intros q. unfold viewAt. rewrite Hcells.
    destruct (Z.ltb_spec q start) as [Hq | Hq].
    + destruct (Z.ltb_spec q 0); [reflexivity|].
      rewrite lookup_app_l by (rewrite length_take; lia).
      rewrite lookup_take. destruct (decide (Z.to_nat q < Z.to_nat start)%nat); [reflexivity | lia].
    + destruct (Z.ltb_spec q 0); [lia|].
      destruct (Z.ltb_spec (q + (end_ - start)) 0); [lia|].
      rewrite lookup_app_r by (rewrite length_take; lia).
      rewrite length_take, lookup_drop. f_equal. lia.
Qed.

End View.

(** Splits on the comparisons of the goal, discarding impossible cases. *)
Ltac split_ltb :=
  repeat match goal with
         | |- context [?a <? ?b] => destruct (Z.ltb_spec a b); try (exfalso; lia)
         end.

Section MoveView.
Context {A : Type} (view : MatrixSegment -> list A) (blankValue : A).
Context `{!FollowsEngine view blankValue}.
Context `{MergeTreeConstants}.

(** One iteration of the loop of [moveAsPadding], for row [k]. *)
Lemma moveAsPadding_row_view chain src dest n k :
  wf_chain chain = true ->
  0 <= k -> (k + 1) * maxCols <= getLength chain ->
  0 <= src -> 0 <= dest -> 0 <= n -> src + n <= maxCols -> dest + n <= maxCols ->
  exists chain',
    insertSegmentLocal
      (removeRange chain (k * maxCols + src) (k * maxCols + (src + n)))
      (k * maxCols + dest)
      (Padding (new_PaddingSegment n (Some UniversalSequenceNumber) (Some LocalClientId)))
    = Some chain'
    /\ wf_chain chain' = true
    /\ getLength chain' = getLength chain
    /\ forall q,
         viewAt view chain' q =
         if q <? k * maxCols + dest then
           if q <? k * maxCols + src then viewAt view chain q else viewAt view chain (q + n)
         else if q <? k * maxCols + dest + n then Some blankValue
         else if q - n <? k * maxCols + src then viewAt view chain (q - n)
         else viewAt view chain q.
Proof.
  intros Hwf Hk Hrow Hsrc Hdest Hn Hsn Hdn.
  apply wf_chain_inv in Hwf as [Hsegs HL].
  pose proof maxCols_eq as HM. pose proof MAX_SAFE_INTEGER_eq as HS.
  rewrite HM in *.
  destruct (removeRange_viewAt view blankValue chain (k * 2097153 + src) (k * 2097153 + (src + n))
              Hsegs ltac:(lia) ltac:(lia)) as (Hwf1 & HL1 & Hcell1).
  set (pad := Padding (new_PaddingSegment n (Some UniversalSequenceNumber) (Some LocalClientId))).
  assert (Hpad : wf_segment pad = true) by (apply wf_padding_intro; cbn; lia).
  destruct (insertSegmentLocal_viewAt view blankValue _ (k * 2097153 + dest) pad Hwf1 Hpad ltac:(lia))
    as (chain' & Hins & Hwf2 & HL2 & Hcell2).
  exists chain'. change (segmentLength pad) with n in *.
  split_and!; [assumption | apply wf_chain_intro; [assumption | lia] | lia |].
  intros q. rewrite Hcell2, !Hcell1.
  replace (k * 2097153 + (src + n) - (k * 2097153 + src)) with n by lia.
  destruct (Z.ltb_spec q (k * 2097153 + dest)).
  - reflexivity.
  - destruct (Z.ltb_spec q (k * 2097153 + dest + n)).
    + unfold pad. rewrite view_padding. cbn [new_PaddingSegment pad_base cachedLength].
      apply lookup_replicate_2. lia.
    + destruct (Z.ltb_spec (q - n) (k * 2097153 + src)); [reflexivity|].
      f_equal. lia.
Qed.

Lemma moveAsPadding_rows_view fuel : forall this src dest n k,
  well_formed this = true ->
  0 <= k -> 0 <= src -> 0 <= dest -> 0 <= n -> src + n <= maxCols -> dest + n <= maxCols ->
  numRows this - k <= Z.of_nat fuel ->
  exists this',
    moveAsPadding_rows fuel src (src + n) dest n k (k * maxCols) this = Some this'
    /\ well_formed this' = true
    /\ getLength (client this') = getLength (client this)
    /\ forall q,
         viewAt view (client this') q =
         viewAfterMove blankValue (viewAt view (client this)) src dest n k (numRows this) q.
Proof.
  induction fuel as [| fuel IH]; intros this src dest n k Hwf Hk Hsrc Hdest Hn Hsn Hdn Hfuel.
  - cbn [moveAsPadding_rows].
    destruct (Z.ltb_spec k (numRows this)); [lia|].
    exists this. split_and!; try done.
    intros q. unfold viewAfterMove.
    destruct (Z.leb_spec 0 q); [|reflexivity].
    destruct (Z.leb_spec k (q / maxCols)); [|reflexivity].
    destruct (Z.ltb_spec (q / maxCols) (numRows this)); [lia | reflexivity].
  - cbn [moveAsPadding_rows].
    pose proof maxCols_eq as HM. pose proof MAX_SAFE_INTEGER_eq as HS.
    pose proof (numRows_safe this Hwf) as HR.
    pose proof Hwf as Hwf0. apply wf_chain_inv in Hwf0 as [Hsegs HL].
    destruct (Z.ltb_spec k (numRows this)) as [Hlt | Hge].
    + assert (Hrow : (k + 1) * maxCols <= getLength (client this)).
      { assert (k + 1 <= getLength (client this) / maxCols) by lia.
        pose proof (Z.mul_div_le (getLength (client this)) maxCols ltac:(lia)). nia. }
      rewrite !add_safe by nia.
      destruct (moveAsPadding_row_view (client this) src dest n k Hwf Hk Hrow Hsrc Hdest Hn Hsn Hdn)
        as (chain' & Hins & Hwf' & HL' & Hcell').
      cbn [client set_client]. rewrite Hins.
      set (this1 := set_client chain' _).
      assert (HR1 : numRows this1 = numRows this).
      { rewrite (numRows_safe this1), HR by exact Hwf'. cbn [this1 client set_client].
        rewrite HL'. reflexivity. }
      replace (k * maxCols + maxCols) with ((k + 1) * maxCols) by lia.
      destruct (IH this1 src dest n (k + 1) Hwf' ltac:(lia) Hsrc Hdest Hn Hsn Hdn ltac:(lia))
        as (this' & Hloop & Hwf2 & HL2 & Hcell2).
      exists this'. split_and!; [assumption | assumption | cbn in HL2; lia |].
      intros q. rewrite Hcell2, HR1. cbn [this1 client set_client].
      unfold viewAfterMove.
      destruct (Z.leb_spec 0 q) as [Hq | Hq]; cbn [andb].
      * pose proof (Z.div_mod q maxCols ltac:(lia)) as Hdm.
        pose proof (Z.mod_pos_bound q maxCols ltac:(lia)) as Hmod.
        set (r := q / maxCols) in *. set (col := q mod maxCols) in *.
        clearbody r col. rewrite HM in *.
        destruct (Z.ltb_spec r (numRows this)) as [Hr | Hr];
          destruct (Z.leb_spec (k + 1) r) as [Hk1 | Hk1];
          destruct (Z.leb_spec k r) as [Hk0 | Hk0]; cbn [andb]; try lia;
          rewrite ?Hcell'; split_ltb; try reflexivity; f_equal; lia.
      * rewrite Hcell'. rewrite HM in *. split_ltb; try reflexivity; f_equal; lia.
    + exists this. split_and!; try done.
      intros q. unfold viewAfterMove.
      destruct (Z.leb_spec 0 q); [|reflexivity].
      destruct (Z.leb_spec k (q / maxCols)); [|reflexivity].
      destruct (Z.ltb_spec (q / maxCols) (numRows this)); [lia | reflexivity].
Qed.

End MoveView.

(** ** Reading values and tags *)

Lemma getTag_tagAt this row col t :
  forallb wf_segment (client this) = true ->
  tagAt (client this) (rowColToPosition row col) = Some t ->
  getTag row col this = (Return t, this).
Proof.
  intros Hwf Htag. unfold tagAt, viewAt in Htag.
  destruct (Z.ltb_spec (rowColToPosition row col) 0) as [|Hpos]; [discriminate|].
  pose proof (lookup_lt_Some _ _ _ Htag) as Hlt.
  pose proof (getLength_view segmentTags Undefined (client this) Hwf) as HL.
  destruct (locate_view segmentTags Undefined (client this) (rowColToPosition row col) Hwf
              ltac:(lia)) as (i & offset & s & Hloc & Hi & Hoff & Hread).
  rewrite Htag in Hread.
  assert (Hget : getSegment row col this = (Return (i, s, offset), this)).
  { apply getSegment_eq; [|assumption]. unfold getContainingSegment.
    destruct (Z.ltb_spec (rowColToPosition row col) 0); [lia | assumption]. }
  unfold getTag. unfold mbind at 1, M_bind at 1. rewrite Hget.
  destruct s as [p | r]; cbn in *.
  - apply lookup_replicate in Hread as [-> _]. reflexivity.
  - unfold RunSegment_getTag, Array.get. destruct (Z.ltb_spec offset 0); [lia|].
    rewrite Hread. reflexivity.
Qed.

Lemma getTag_outside this row col :
  forallb wf_segment (client this) = true ->
  tagAt (client this) (rowColToPosition row col) = None ->
  getTag row col this = (Throw TypeError, this).
Proof.
  intros Hwf Htag. unfold getTag, getSegment, getContainingSegment. run_monad.
  unfold tagAt, viewAt in Htag.
  destruct (Z.ltb_spec (rowColToPosition row col) 0); [reflexivity|].
  apply lookup_ge_None in Htag.
  rewrite locate_outside; [reflexivity | assumption |].
  rewrite (getLength_view segmentTags Undefined) by assumption. lia.
Qed.

(** A cell reads in [this'] what another read in [this], when the views
    agree at their positions. *)
Lemma readCell_transfer this this' r c r' c' :
  forallb wf_segment (client this) = true ->
  forallb wf_segment (client this') = true ->
  0 <= rowColToPosition r c < getLength (client this) ->
  cellAt (client this') (rowColToPosition r' c') = cellAt (client this) (rowColToPosition r c) ->
  tagAt (client this') (rowColToPosition r' c') = tagAt (client this) (rowColToPosition r c) ->
  readCell r' c' this' = readCell r c this.
Proof.
  intros Hwf Hwf' Hpos Hcell Htag.
  destruct (viewAt_inside segmentCells Undefined _ _ Hwf Hpos) as [v Hv].
  destruct (viewAt_inside segmentTags Undefined _ _ Hwf Hpos) as [t Ht].
  change (viewAt segmentCells (client this) (rowColToPosition r c))
    with (cellAt (client this) (rowColToPosition r c)) in Hv.
  change (viewAt segmentTags (client this) (rowColToPosition r c))
    with (tagAt (client this) (rowColToPosition r c)) in Ht.
  unfold readCell, eval.
  rewrite (getItem_cellAt this r c v), (getTag_tagAt this r c t) by assumption.
  rewrite (getItem_cellAt this' r' c' v), (getTag_tagAt this' r' c' t) by congruence.
  reflexivity.
Qed.

Lemma readCell_blank this r c :
  forallb wf_segment (client this) = true ->
  cellAt (client this) (rowColToPosition r c) = Some Undefined ->
  tagAt (client this) (rowColToPosition r c) = Some Undefined ->
  readCell r c this = blankCell.
Proof.
  intros Hwf Hcell Htag. unfold readCell, eval.
  rewrite (getItem_cellAt this r c Undefined), (getTag_tagAt this r c Undefined) by assumption.
  reflexivity.
Qed.

(** Property X12 (reads and the extent).  In a well-formed matrix (the
    invariant of the data model, and an extent that is a safe integer),
    [getItem] and [getTag] return, and leave the matrix as it is, at every
    cell whose linear position lies inside the extent; at every cell whose
    position lies at or past the end of the extent both raise the
    [TypeError] of reading a property of [undefined].  (Nothing is said of
    a negative position.) *)
Theorem reads_inside_and_past_extent this r c :
  well_formed this = true ->
  (0 <= rowColToPosition r c < getLength (client this) ->
   exists v t, getItem r c this = (Return v, this) /\ getTag r c this = (Return t, this))
  /\ (getLength (client this) <= rowColToPosition r c ->
      getItem r c this = (Throw TypeError, this)
      /\ getTag r c this = (Throw TypeError, this)).
Proof.
  intros Hwf. apply wf_chain_inv in Hwf as [Hsegs _]. split; intros Hpos;
    [|assert (Hout : ~ 0 <= rowColToPosition r c < getLength (client this)) by lia;
      clear Hpos; rename Hout into Hpos].
  - destruct (viewAt_inside segmentCells Undefined _ _ Hsegs Hpos) as [v Hv].
    destruct (viewAt_inside segmentTags Undefined _ _ Hsegs Hpos) as [t Ht].
    exists v, t. split; [apply getItem_cellAt | apply getTag_tagAt]; assumption.
  - split; [apply getItem_outside | apply getTag_outside]; try assumption.
    + exact (viewAt_outside segmentCells Undefined _ _ Hsegs Hpos).
    + exact (viewAt_outside segmentTags Undefined _ _ Hsegs Hpos).
Qed.

(** ** Columns *)

Section Columns.
Context `{MergeTreeConstants}.

(** The loop of [moveAsPadding] seen through values and tags at once. *)
Lemma moveAsPadding_views this src dest n fuel :
  well_formed this = true ->
  0 <= src -> 0 <= dest -> 0 <= n -> src + n <= maxCols -> dest + n <= maxCols ->
  numRows this <= Z.of_nat fuel ->
  exists this',
    moveAsPadding fuel src dest n this = Some this'
    /\ well_formed this' = true
    /\ getLength (client this') = getLength (client this)
    /\ numRows this' = numRows this
    /\ (forall q, cellAt (client this') q =
                  viewAfterMove Undefined (cellAt (client this)) src dest n 0 (numRows this) q)
    /\ (forall q, tagAt (client this') q =
                  viewAfterMove Undefined (tagAt (client this)) src dest n 0 (numRows this) q).
Proof.
  intros Hwf Hsrc Hdest Hn Hsn Hdn Hfuel.
  pose proof maxCols_eq as HM. pose proof MAX_SAFE_INTEGER_eq as HS.
  destruct (moveAsPadding_rows_view segmentCells Undefined fuel this src dest n 0
              Hwf ltac:(lia) Hsrc Hdest Hn Hsn Hdn ltac:(lia))
    as (this' & Hloop & Hwf' & HL' & Hcells).
  destruct (moveAsPadding_rows_view segmentTags Undefined fuel this src dest n 0
              Hwf ltac:(lia) Hsrc Hdest Hn Hsn Hdn ltac:(lia))
    as (this'' & Hloop' & _ & _ & Htags).
  rewrite Hloop in Hloop'. injection Hloop' as <-.
  exists this'. split_and!; try assumption.
  - unfold moveAsPadding. rewrite add_safe by lia. exact Hloop.
  - rewrite !numRows_safe by assumption. rewrite HL'. reflexivity.
Qed.

End Columns.

(** The position of a cell of a full row, and its row. *)
Lemma cell_position this r c :
  well_formed this = true ->
  0 <= r < numRows this -> 0 <= c < maxCols ->
  rowColToPosition r c = r * maxCols + c
  /\ 0 <= r * maxCols + c < getLength (client this)
  /\ (r * maxCols + c) / maxCols = r.
Proof.
  intros Hwf Hr Hc. pose proof maxCols_eq as HM.
  rewrite numRows_safe in Hr by assumption.
  apply wf_chain_inv in Hwf as [_ HL].
  assert (Hrow : (r + 1) * maxCols <= getLength (client this)).
  { pose proof (Z.mul_div_le (getLength (client this)) maxCols ltac:(lia)). nia. }
  split_and!; try nia.
  - apply rowColToPosition_safe; nia.
  - symmetry. apply Z.div_unique with (r := c); lia.
Qed.

(** [viewAfterMove] inside one of the rows the loop went through. *)
Lemma viewAfterMove_row {A} (blankValue : A) before src dest n R r c :
  0 <= r < R -> 0 <= c < maxCols ->
  viewAfterMove blankValue before src dest n 0 R (r * maxCols + c) =
  if c <? dest then
    if c <? src then before (r * maxCols + c) else before (r * maxCols + (c + n))
  else if c <? dest + n then Some blankValue
  else if c - n <? src then before (r * maxCols + (c - n))
  else before (r * maxCols + c).
Proof.
  intros Hr Hc. pose proof maxCols_eq as HM. unfold viewAfterMove.
  assert (Hdiv : (r * maxCols + c) / maxCols = r).
  { symmetry. apply Z.div_unique with (r := c); lia. }
  rewrite Hdiv.
  destruct (Z.leb_spec 0 (r * maxCols + c)); [|nia].
  destruct (Z.leb_spec 0 r); [|lia].
  destruct (Z.ltb_spec r R); [|lia]. cbn [andb].
  rewrite HM in *. split_ltb; try reflexivity; f_equal; lia.
Qed.

Section ColumnLaws.
Context `{MergeTreeConstants}.

(** Property X18 (column shift of [removeCols]).  After
    [removeCols c n] with [c + n <= maxCol], in every row: the columns below
    [c] read as before (value and tag), column [c'] with
    [c <= c' < maxCol - n] reads what column [c' + n] held, the columns
    [maxCol - n, maxCol) read as absent and untagged, and column [maxCol]
    reads as before.  The loop ends within [numRows] iterations, and the
    number of rows and the invariant are kept. *)
Theorem removeCols_column_shift this c n fuel :
  well_formed this = true ->
  0 <= c -> 0 <= n -> c + n <= maxCol ->
  numRows this <= Z.of_nat fuel ->
  exists this',
    removeCols fuel c n this = Some this'
    /\ well_formed this' = true
    /\ numRows this' = numRows this
    /\ forall r, 0 <= r < numRows this ->
         (forall col, 0 <= col < c -> readCell r col this' = readCell r col this)
         /\ (forall col, c <= col < maxCol - n ->
               readCell r col this' = readCell r (col + n) this)
         /\ (forall col, maxCol - n <= col < maxCol -> readCell r col this' = blankCell)
         /\ readCell r maxCol this' = readCell r maxCol this.
Proof.
  intros Hwf Hc Hn Hcn Hfuel.
  pose proof maxCols_eq as HM. pose proof maxCol_eq as HC.
  pose proof MAX_SAFE_INTEGER_eq as HS.
  destruct (moveAsPadding_views this c (maxCol - n) n fuel Hwf
              ltac:(lia) ltac:(lia) ltac:(lia) ltac:(lia) ltac:(lia) Hfuel)
    as (this' & Hmove & Hwf' & HL' & HR' & Hcells & Htags).
  exists this'. split_and!; try assumption.
  { unfold removeCols. rewrite sub_safe by lia. exact Hmove. }
  pose proof Hwf as Hsegs. apply wf_chain_inv in Hsegs as [Hsegs _].
  pose proof Hwf' as Hsegs'. apply wf_chain_inv in Hsegs' as [Hsegs' _].
  intros r Hr.
  assert (Hr' : 0 <= r < numRows this') by lia.
  split_and!.
  - intros col Hcol.
    destruct (cell_position this r col Hwf Hr ltac:(lia)) as (Hpos & Hin & _).
    destruct (cell_position this' r col Hwf' Hr' ltac:(lia)) as (Hpos' & _ & _).
    apply readCell_transfer; try assumption; rewrite ?Hpos, ?Hpos'; try lia;
      rewrite ?Hcells, ?Htags, viewAfterMove_row by lia; split_ltb; reflexivity.
  - intros col Hcol.
    destruct (cell_position this r (col + n) Hwf Hr ltac:(lia)) as (Hpos & Hin & _).
    destruct (cell_position this' r col Hwf' Hr' ltac:(lia)) as (Hpos' & _ & _).
    apply readCell_transfer; try assumption; rewrite ?Hpos, ?Hpos'; try lia;
      rewrite ?Hcells, ?Htags, viewAfterMove_row by lia; split_ltb; reflexivity.
  - intros col Hcol.
    destruct (cell_position this' r col Hwf' Hr' ltac:(lia)) as (Hpos' & _ & _).
    apply readCell_blank; try assumption; rewrite Hpos';
      rewrite ?Hcells, ?Htags, viewAfterMove_row by lia; split_ltb; reflexivity.
  - destruct (cell_position this r maxCol Hwf Hr ltac:(lia)) as (Hpos & Hin & _).
    destruct (cell_position this' r maxCol Hwf' Hr' ltac:(lia)) as (Hpos' & _ & _).
    apply readCell_transfer; try assumption; rewrite ?Hpos, ?Hpos'; try lia;
      rewrite ?Hcells, ?Htags, viewAfterMove_row by lia; split_ltb; reflexivity.
Qed.

(** Property X19 ([insertCols] moves tags with values).  After
    [insertCols c n] with [c + n <= maxCol], in every row: the columns below
    [c] read as before, value and tag; what column [c'] with
    [c <= c' < maxCol - n] held, value and tag, is read at column [c' + n];
    the columns [c, c + n) read as absent and untagged; and column [maxCol]
    reads as before. *)
Theorem insertCols_moves_tags this c n fuel :
  well_formed this = true ->
  0 <= c -> 0 <= n -> c + n <= maxCol ->
  numRows this <= Z.of_nat fuel ->
  exists this',
    insertCols fuel c n this = Some this'
    /\ forall r, 0 <= r < numRows this ->
         (forall col, 0 <= col < c -> readCell r col this' = readCell r col this)
         /\ (forall col, c <= col < maxCol - n ->
               readCell r (col + n) this' = readCell r col this)
         /\ (forall col, c <= col < c + n -> readCell r col this' = blankCell)
         /\ readCell r maxCol this' = readCell r maxCol this.
Proof.
  intros Hwf Hc Hn Hcn Hfuel.
  pose proof maxCols_eq as HM. pose proof maxCol_eq as HC.
  pose proof MAX_SAFE_INTEGER_eq as HS.
  destruct (moveAsPadding_views this (maxCol - n) c n fuel Hwf
              ltac:(lia) ltac:(lia) ltac:(lia) ltac:(lia) ltac:(lia) Hfuel)
    as (this' & Hmove & Hwf' & HL' & HR' & Hcells & Htags).
  exists this'. split.
  { unfold insertCols. rewrite sub_safe by lia. exact Hmove. }
  pose proof Hwf as Hsegs. apply wf_chain_inv in Hsegs as [Hsegs _].
  pose proof Hwf' as Hsegs'. apply wf_chain_inv in Hsegs' as [Hsegs' _].
  intros r Hr.
  assert (Hr' : 0 <= r < numRows this') by lia.
  split_and!.
  - intros col Hcol.
    destruct (cell_position this r col Hwf Hr ltac:(lia)) as (Hpos & Hin & _).
    destruct (cell_position this' r col Hwf' Hr' ltac:(lia)) as (Hpos' & _ & _).
    apply readCell_transfer; try assumption; rewrite ?Hpos, ?Hpos'; try lia;
      rewrite ?Hcells, ?Htags, viewAfterMove_row by lia; split_ltb; reflexivity.
  - intros col Hcol.
    destruct (cell_position this r col Hwf Hr ltac:(lia)) as (Hpos & Hin & _).
    destruct (cell_position this' r (col + n) Hwf' Hr' ltac:(lia)) as (Hpos' & _ & _).
    apply readCell_transfer; try assumption; rewrite ?Hpos, ?Hpos'; try lia;
      rewrite ?Hcells, ?Htags, viewAfterMove_row by lia; split_ltb;
      try reflexivity; f_equal; lia.
  - intros col Hcol.
    destruct (cell_position this' r col Hwf' Hr' ltac:(lia)) as (Hpos' & _ & _).
    apply readCell_blank; try assumption; rewrite Hpos';
      rewrite ?Hcells, ?Htags, viewAfterMove_row by lia; split_ltb; reflexivity.
  - destruct (cell_position this r maxCol Hwf Hr ltac:(lia)) as (Hpos & Hin & _).
    destruct (cell_position this' r maxCol Hwf' Hr' ltac:(lia)) as (Hpos' & _ & _).
    apply readCell_transfer; try assumption; rewrite ?Hpos, ?Hpos'; try lia;
      rewrite ?Hcells, ?Htags, viewAfterMove_row by lia; split_ltb; reflexivity.
Qed.


End ColumnLaws.

(** What a cell reads is decided by the two views at its position. *)
Lemma readCell_views this this' r c r' c' :
  forallb wf_segment (client this) = true ->
  forallb wf_segment (client this') = true ->
  cellAt (client this') (rowColToPosition r' c') = cellAt (client this) (rowColToPosition r c) ->
  tagAt (client this') (rowColToPosition r' c') = tagAt (client this) (rowColToPosition r c) ->
  readCell r' c' this' = readCell r c this.
Proof.
  intros Hsegs Hsegs' Hcells Htags.
  destruct (decide (0 <= rowColToPosition r c < getLength (client this))) as [Hin | Hout].
  - apply readCell_transfer; assumption.
  - pose proof (viewAt_outside segmentCells Undefined (client this) _ Hsegs Hout) as Hc.
    pose proof (viewAt_outside segmentTags Undefined (client this) _ Hsegs Hout) as Ht.
    change (viewAt segmentCells) with cellAt in Hc. change (viewAt segmentTags) with tagAt in Ht.
    rewrite Hc in Hcells. rewrite Ht in Htags.
    unfold readCell, eval.
    rewrite (getItem_outside this r c Hsegs Hc), (getItem_outside this' r' c' Hsegs' Hcells).
    rewrite (getTag_outside this r c Hsegs Ht), (getTag_outside this' r' c' Hsegs' Htags).
    reflexivity.
Qed.

Section RowViews.
Context {A : Type} (view : MatrixSegment -> list A) (blankValue : A).
Context `{!FollowsEngine view blankValue}.

Lemma insertRows_viewAt this r n :
  well_formed this = true ->
  0 <= r -> 0 <= n -> r * maxCols <= getLength (client this) ->
  getLength (client this) + n * maxCols <= Number.MAX_SAFE_INTEGER ->
  forall q,
    viewAt view (client (insertRows r n this)) q =
    if q <? r * maxCols then viewAt view (client this) q
    else if q <? (r + n) * maxCols then Some blankValue
    else viewAt view (client this) (q - n * maxCols).
Proof.
  intros Hwf Hr Hn Hpos Hsafe q.
  pose proof maxCols_eq as HM. pose proof MAX_SAFE_INTEGER_eq as HS.
  apply wf_chain_inv in Hwf as [Hsegs HL]. unfold insertRows.
  rewrite rowColToPosition_safe, mul_safe by nia.
  rewrite Z.add_0_r, (Z.mul_comm maxCols n).
  set (pad := Padding (new_PaddingSegment (n * maxCols) None None)).
  assert (Hpad : wf_segment pad = true) by (apply wf_padding_intro; cbn; nia).
  destruct (insertSegmentLocal_viewAt view blankValue (client this) (r * maxCols) pad
              Hsegs Hpad ltac:(lia)) as (chain' & -> & Hwf' & HL' & Hview).
  change (segmentLength pad) with (n * maxCols) in Hview.
  cbn [client set_client]. rewrite Hview.
  destruct (Z.ltb_spec q (r * maxCols)); [reflexivity|].
  replace ((r + n) * maxCols) with (r * maxCols + n * maxCols) by lia.
  destruct (Z.ltb_spec q (r * maxCols + n * maxCols)); [|reflexivity].
  unfold pad. rewrite view_padding. cbn.
  apply lookup_replicate. split; [reflexivity | lia].
Qed.

Lemma removeRows_viewAt this r n :
  well_formed this = true ->
  0 <= r -> 0 <= n -> (r + n) * maxCols <= getLength (client this) ->
  forall q,
    viewAt view (client (removeRows r n this)) q =
    if q <? r * maxCols then viewAt view (client this) q
    else viewAt view (client this) (q + n * maxCols).
Proof.
  intros Hwf Hr Hn Hend q.
  pose proof maxCols_eq as HM. pose proof MAX_SAFE_INTEGER_eq as HS.
  apply wf_chain_inv in Hwf as [Hsegs HL]. unfold removeRows.
  rewrite rowColToPosition_safe, mul_safe by nia.
  rewrite Z.add_0_r, add_safe by nia.
  destruct (removeRange_viewAt view blankValue (client this) (r * maxCols)
              (r * maxCols + maxCols * n) Hsegs ltac:(nia) ltac:(nia)) as (_ & _ & Hview).
  cbn [client set_client]. rewrite Hview.
  destruct (Z.ltb_spec q (r * maxCols)); [reflexivity|]. f_equal. lia.
Qed.

Lemma setItems_viewAt this row col values props :
  well_formed this = true ->
  0 <= row -> 0 <= col ->
  row * maxCols + col + Z.of_nat (length values) <= getLength (client this) ->
  forall fresh,
    (forall seg, items seg = values -> tags seg = Array.fill_undefined (length values) ->
                 view (Run seg) = fresh) ->
    forall q,
      viewAt view (client (setItems row col values props this)) q =
      if q <? row * maxCols + col then viewAt view (client this) q
      else if q <? row * maxCols + col + Z.of_nat (length values)
           then fresh !! Z.to_nat (q - (row * maxCols + col))
           else viewAt view (client this) q.
Proof.
  intros Hwf Hrow Hcol Hend fresh Hfresh q.
  apply wf_chain_inv in Hwf as [Hsegs HL].
  pose proof maxCols_eq as HM.
  assert (Hp : 0 <= row * maxCols + col) by nia.
  unfold setItems. cbv zeta.
  rewrite rowColToPosition_safe by lia.
  rewrite add_safe by lia.
  set (p := row * maxCols + col) in *. set (n := Z.of_nat (length values)) in *.
  set (seg := match props with Some _ => _ | None => _ end).
  assert (Hseg : wf_segment (Run seg) = true) by (apply wf_new_RunSegment; fold n; lia).
  assert (Hseglen : segmentLength (Run seg) = n) by (subst seg; destruct props; reflexivity).
  assert (Hsegview : view (Run seg) = fresh).
  { apply Hfresh; subst seg; destruct props; reflexivity. }
  destruct (removeRange_viewAt view blankValue (client this) p (p + n) Hsegs
              ltac:(lia) ltac:(lia)) as (Hwf1 & HL1 & Hview1).
  destruct (insertSegmentLocal_viewAt view blankValue (removeRange (client this) p (p + n)) p
              (Run seg) Hwf1 Hseg ltac:(lia)) as (chain' & Hins & Hwf2 & HL2 & Hview2).
  unfold replaceRange. rewrite Hins. cbn [client set_client].
  rewrite Hview2, Hseglen, Hsegview.
  destruct (Z.ltb_spec q p).
  - rewrite Hview1. destruct (Z.ltb_spec q p); [reflexivity | lia].
  - destruct (Z.ltb_spec q (p + n)); [reflexivity|].
    rewrite Hview1. destruct (Z.ltb_spec (q - n) p); [lia|].
    f_equal. lia.
Qed.

End RowViews.

Lemma insertRows_extent this r n :
  well_formed this = true ->
  0 <= r -> 0 <= n -> r * maxCols <= getLength (client this) ->
  getLength (client this) + n * maxCols <= Number.MAX_SAFE_INTEGER ->
  getLength (client (insertRows r n this)) = getLength (client this) + n * maxCols
  /\ numRows (insertRows r n this) = numRows this + n.
Proof.
  intros Hwf Hr Hn Hpos Hsafe.
  pose proof (well_formed_insertRows this r n Hwf Hr Hn Hpos Hsafe) as Hwf'.
  pose proof maxCols_eq as HM. pose proof MAX_SAFE_INTEGER_eq as HS.
  assert (HL' : getLength (client (insertRows r n this)) = getLength (client this) + n * maxCols).
  { apply wf_chain_inv in Hwf as [Hsegs HL]. unfold insertRows.
    rewrite rowColToPosition_safe, mul_safe by nia.
    rewrite Z.add_0_r, (Z.mul_comm maxCols n).
    set (pad := Padding (new_PaddingSegment (n * maxCols) None None)).
    assert (Hpad : wf_segment pad = true) by (apply wf_padding_intro; cbn; nia).
    destruct (insertSegmentLocal_cells (client this) (r * maxCols) pad Hsegs Hpad ltac:(lia))
      as (chain' & -> & _ & HL' & _).
    exact HL'. }
  split; [exact HL'|].
  rewrite !numRows_safe by assumption. rewrite HL'. apply Z.div_add. lia.
Qed.

Lemma removeRows_extent this r n :
  well_formed this = true ->
  0 <= r -> 0 <= n -> (r + n) * maxCols <= getLength (client this) ->
  getLength (client (removeRows r n this)) = getLength (client this) - n * maxCols
  /\ numRows (removeRows r n this) = numRows this - n.
Proof.
  intros Hwf Hr Hn Hend.
  pose proof (well_formed_removeRows this r n Hwf Hr Hn Hend) as Hwf'.
  pose proof maxCols_eq as HM. pose proof MAX_SAFE_INTEGER_eq as HS.
  assert (HL' : getLength (client (removeRows r n this)) = getLength (client this) - n * maxCols).
  { apply wf_chain_inv in Hwf as [Hsegs HL]. unfold removeRows.
    rewrite rowColToPosition_safe, mul_safe by nia.
    rewrite Z.add_0_r, add_safe by nia.
    destruct (removeRange_cellAt (client this) (r * maxCols) (r * maxCols + maxCols * n)
                Hsegs ltac:(nia) ltac:(nia)) as (_ & HL' & _).
    cbn [client set_client]. lia. }
  split; [exact HL'|].
  rewrite !numRows_safe by assumption. rewrite HL'.
  replace (getLength (client this) - n * maxCols)
    with (getLength (client this) + (- n) * maxCols) by lia.
  rewrite Z.div_add by lia. lia.
Qed.

(** Property X15 (row shift of [insertRows]).  In a well-formed matrix
    (the invariant of the data model, and an extent that is a safe integer),
    after [insertRows r n] with [0 <= r <= numRows], [0 <= n] and an extent
    that is still a safe integer with the [n * maxCols] new positions: there
    are [n] rows more, and in every column the rows above [r] read as before
    (value and tag), the rows [r, r + n) read as absent and untagged, and
    what row [k >= r] held is read at row [k + n]. *)
Theorem insertRows_row_shift this r n :
  well_formed this = true ->
  0 <= r <= numRows this -> 0 <= n ->
  getLength (client this) + n * maxCols <= Number.MAX_SAFE_INTEGER ->
  let this' := insertRows r n this in
  numRows this' = numRows this + n
  /\ forall c, 0 <= c <= maxCol ->
       (forall k, 0 <= k < r -> readCell k c this' = readCell k c this)
       /\ (forall k, r <= k < r + n -> readCell k c this' = blankCell)
       /\ (forall k, r <= k < numRows this -> readCell (k + n) c this' = readCell k c this).
Proof.
  intros Hwf Hr Hn Hsafe this'.
  pose proof maxCols_eq as HM. pose proof maxCol_eq as HC.
  pose proof MAX_SAFE_INTEGER_eq as HS.
  pose proof (numRows_safe this Hwf) as HR.
  pose proof Hwf as Hsegs. apply wf_chain_inv in Hsegs as [Hsegs HL].
  assert (Hpos : r * maxCols <= getLength (client this)).
  { pose proof (Z.mul_div_le (getLength (client this)) maxCols ltac:(lia)). nia. }
  pose proof (well_formed_insertRows this r n Hwf ltac:(lia) Hn Hpos Hsafe) as Hwf'.
  fold this' in Hwf'.
  pose proof Hwf' as Hsegs'. apply wf_chain_inv in Hsegs' as [Hsegs' _].
  destruct (insertRows_extent this r n Hwf ltac:(lia) Hn Hpos Hsafe) as (HL' & HR').
  fold this' in HL', HR'.
  pose proof (insertRows_viewAt segmentCells Undefined this r n Hwf ltac:(lia) Hn Hpos Hsafe)
    as Hcells.
  pose proof (insertRows_viewAt segmentTags Undefined this r n Hwf ltac:(lia) Hn Hpos Hsafe)
    as Htags.
  fold this' in Hcells, Htags.
  change (viewAt segmentCells) with cellAt in Hcells.
  change (viewAt segmentTags) with tagAt in Htags.
  split; [exact HR'|]. intros c Hc.
  split_and!.
  - intros k Hk.
    destruct (cell_position this k c Hwf ltac:(lia) ltac:(lia)) as (Hp & Hin & _).
    destruct (cell_position this' k c Hwf' ltac:(lia) ltac:(lia)) as (Hp' & _ & _).
    apply readCell_transfer; try assumption; rewrite ?Hp, ?Hp'; try lia;
      rewrite ?Hcells, ?Htags; split_ltb; try reflexivity; nia.
  - intros k Hk.
    destruct (cell_position this' k c Hwf' ltac:(lia) ltac:(lia)) as (Hp' & _ & _).
    apply readCell_blank; try assumption; rewrite Hp';
      rewrite ?Hcells, ?Htags; split_ltb; try reflexivity; nia.
  - intros k Hk.
    destruct (cell_position this k c Hwf ltac:(lia) ltac:(lia)) as (Hp & Hin & _).
    destruct (cell_position this' (k + n) c Hwf' ltac:(lia) ltac:(lia)) as (Hp' & _ & _).
    apply readCell_transfer; try assumption; rewrite ?Hp, ?Hp'; try lia;
      rewrite ?Hcells, ?Htags; split_ltb; try (f_equal; lia); nia.
Qed.

(** Property X16 (row shift of [removeRows]).  In a well-formed matrix
    (the invariant of the data model, and an extent that is a safe integer),
    after [removeRows r n] with [0 <= r], [0 <= n] and [r + n <= numRows]
    there are [n] rows fewer, and in every column the
    rows above [r] read as before (value and tag) while row [k >= r] reads
    what row [k + n] held. *)
Theorem removeRows_row_shift this r n :
  well_formed this = true ->
  0 <= r -> 0 <= n -> r + n <= numRows this ->
  let this' := removeRows r n this in
  numRows this' = numRows this - n
  /\ forall c, 0 <= c <= maxCol ->
       (forall k, 0 <= k < r -> readCell k c this' = readCell k c this)
       /\ (forall k, r <= k < numRows this - n -> readCell k c this' = readCell (k + n) c this).
Proof.
  intros Hwf Hr Hn Hrn this'.
  pose proof maxCols_eq as HM. pose proof maxCol_eq as HC.
  pose proof MAX_SAFE_INTEGER_eq as HS.
  pose proof (numRows_safe this Hwf) as HR.
  pose proof Hwf as Hsegs. apply wf_chain_inv in Hsegs as [Hsegs HL].
  assert (Hend : (r + n) * maxCols <= getLength (client this)).
  { pose proof (Z.mul_div_le (getLength (client this)) maxCols ltac:(lia)). nia. }
  pose proof (well_formed_removeRows this r n Hwf Hr Hn Hend) as Hwf'.
  fold this' in Hwf'.
  pose proof Hwf' as Hsegs'. apply wf_chain_inv in Hsegs' as [Hsegs' _].
  destruct (removeRows_extent this r n Hwf Hr Hn Hend) as (HL' & HR').
  fold this' in HL', HR'.
  pose proof (removeRows_viewAt segmentCells Undefined this r n Hwf Hr Hn Hend) as Hcells.
  pose proof (removeRows_viewAt segmentTags Undefined this r n Hwf Hr Hn Hend) as Htags.
  fold this' in Hcells, Htags.
  change (viewAt segmentCells) with cellAt in Hcells.
  change (viewAt segmentTags) with tagAt in Htags.
  split; [exact HR'|]. intros c Hc. split.
  - intros k Hk.
    destruct (cell_position this k c Hwf ltac:(lia) ltac:(lia)) as (Hp & Hin & _).
    destruct (cell_position this' k c Hwf' ltac:(lia) ltac:(lia)) as (Hp' & _ & _).
    apply readCell_transfer; try assumption; rewrite ?Hp, ?Hp'; try lia;
      rewrite ?Hcells, ?Htags; split_ltb; try reflexivity; nia.
  - intros k Hk.
    destruct (cell_position this (k + n) c Hwf ltac:(lia) ltac:(lia)) as (Hp & Hin & _).
    destruct (cell_position this' k c Hwf' ltac:(lia) ltac:(lia)) as (Hp' & _ & _).
    apply readCell_transfer; try assumption; rewrite ?Hp, ?Hp'; try lia;
      rewrite ?Hcells, ?Htags; split_ltb; try (f_equal; lia); nia.
Qed.

(** Property X17 ([removeRows] undoes [insertRows]).  In a well-formed
    matrix (the invariant of the data model, and an extent that is a safe
    integer) whose extent is still a safe integer with [n * maxCols]
    positions more, inserting [n >= 0] rows at [0 <= r <= numRows] and
    removing [n] rows at [r] gives a matrix of the same
    extent in which [getItem] and [getTag] have, at every cell, the outcome
    they had before. *)
Theorem removeRows_undoes_insertRows this r n :
  well_formed this = true ->
  0 <= r <= numRows this -> 0 <= n ->
  getLength (client this) + n * maxCols <= Number.MAX_SAFE_INTEGER ->
  let restored := removeRows r n (insertRows r n this) in
  getLength (client restored) = getLength (client this)
  /\ forall k c, readCell k c restored = readCell k c this.
Proof.
  intros Hwf Hr Hn Hsafe restored.
  pose proof maxCols_eq as HM. pose proof MAX_SAFE_INTEGER_eq as HS.
  pose proof (numRows_safe this Hwf) as HR.
  pose proof Hwf as Hsegs. apply wf_chain_inv in Hsegs as [Hsegs HL].
  assert (Hpos : r * maxCols <= getLength (client this)).
  { pose proof (Z.mul_div_le (getLength (client this)) maxCols ltac:(lia)). nia. }
  pose proof (well_formed_insertRows this r n Hwf ltac:(lia) Hn Hpos Hsafe) as Hwf1.
  destruct (insertRows_extent this r n Hwf ltac:(lia) Hn Hpos Hsafe) as (HL1 & HR1).
  assert (Hend : (r + n) * maxCols <= getLength (client (insertRows r n this))) by nia.
  pose proof (well_formed_removeRows _ r n Hwf1 ltac:(lia) Hn Hend) as Hwf2.
  destruct (removeRows_extent _ r n Hwf1 ltac:(lia) Hn Hend) as (HL2 & HR2).
  fold restored in Hwf2, HL2, HR2.
  pose proof Hwf2 as Hsegs2. apply wf_chain_inv in Hsegs2 as [Hsegs2 _].
  assert (Hview : forall {A} (view : MatrixSegment -> list A) blankValue,
            FollowsEngine view blankValue ->
            forall q, viewAt view (client restored) q = viewAt view (client this) q).
  { intros A view blankValue Hfollows q. unfold restored.
    rewrite (removeRows_viewAt view blankValue _ r n Hwf1 ltac:(lia) Hn Hend).
    rewrite !(insertRows_viewAt view blankValue this r n Hwf ltac:(lia) Hn Hpos Hsafe).
    split_ltb; try reflexivity; try nia. f_equal. lia. }
  split; [lia|]. intros k c.
  apply readCell_views; try assumption.
  - apply (Hview _ segmentCells Undefined _).
  - apply (Hview _ segmentTags Undefined _).
Qed.

(** Property X14 (a write resets tags).  In a well-formed matrix (the
    invariant of the data model, and an extent that is a safe integer), after
    [setItems row col values] over a range inside the extent, the extent
    is as before, [getTag] returns [undefined] at every written cell,
    whatever tag the cell carried, and the tag of every other cell of the
    extent is as before. *)
Theorem setItems_resets_tags this row col values props :
  well_formed this = true ->
  0 <= row -> 0 <= col ->
  row * maxCols + col + Z.of_nat (length values) <= getLength (client this) ->
  let this' := setItems row col values props this in
  let written r c :=
    row * maxCols + col <= r * maxCols + c < row * maxCols + col + Z.of_nat (length values) in
  getLength (client this') = getLength (client this)
  /\ (forall i, (i < length values)%nat ->
        getTag row (col + Z.of_nat i) this' = (Return Undefined, this'))
  /\ (forall r c, 0 <= r -> 0 <= c -> r * maxCols + c < getLength (client this) ->
        ~ written r c ->
        getTag r c this' = (eval (getTag r c) this, this')).
Proof.
  intros Hwf Hrow Hcol Hend this' written.
  destruct (setItems_cellAt this row col values props Hwf Hrow Hcol Hend)
    as (Hwf' & HL' & _).
  fold this' in Hwf', HL'.
  pose proof (setItems_viewAt segmentTags Undefined this row col values props Hwf Hrow Hcol Hend
                (Array.fill_undefined (length values)) ltac:(intros seg _ Htags; exact Htags))
    as Htag.
  fold this' in Htag. change (viewAt segmentTags) with tagAt in Htag.
  apply wf_chain_inv in Hwf as [Hsegs HL].
  pose proof maxCols_eq as HM.
  split; [exact HL'|]. split.
  - intros i Hi. apply getTag_tagAt; [assumption|].
    rewrite rowColToPosition_safe by nia. rewrite Htag.
    split_ltb. unfold Array.fill_undefined.
    apply lookup_replicate. split; [reflexivity | lia].
  - intros r c Hr Hc Hin Hnot. unfold written in Hnot.
    destruct (viewAt_inside segmentTags Undefined (client this) (r * maxCols + c) Hsegs
                ltac:(nia)) as [t Ht].
    change (viewAt segmentTags) with tagAt in Ht.
    assert (Ht' : tagAt (client this') (rowColToPosition r c) = Some t).
    { rewrite rowColToPosition_safe by nia. rewrite Htag. split_ltb; assumption. }
    rewrite (getTag_tagAt this' r c t Hwf' Ht').
    unfold eval. rewrite (getTag_tagAt this r c t Hsegs); [reflexivity|].
    rewrite rowColToPosition_safe by nia. exact Ht.
Qed.

Lemma get_set_other (l : list any) i j v :
  i <> j -> Array.get (Array.set l i v) j = Array.get l j.
Proof.
  intros Hij. unfold Array.get, Array.set.
  destruct (Z.ltb_spec j 0); [reflexivity|].
  destruct (Z.ltb_spec i 0); [reflexivity|].
  destruct (Z.ltb_spec i (Z.of_nat (length l))).
  - rewrite list_lookup_insert_ne by lia. reflexivity.
  - destruct (decide (Z.to_nat j < length l)%nat) as [Hj | Hj].
    + rewrite lookup_app_l by assumption. reflexivity.
    + rewrite (proj2 (lookup_ge_None l (Z.to_nat j))) by lia.
      rewrite lookup_app_r by lia.
      destruct (decide (Z.to_nat j - length l < Z.to_nat i - length l)%nat) as [Hlt | Hge].
      * rewrite lookup_app_l by (rewrite length_replicate; lia).
        rewrite lookup_replicate_2 by lia. reflexivity.
      * rewrite lookup_app_r by (rewrite length_replicate; lia).
        rewrite length_replicate.
        destruct (Z.to_nat j - length l - (Z.to_nat i - length l))%nat as [| d] eqn:Hd; [lia|].
        reflexivity.
Qed.

(** A segment and an offset inside it stand for one position only. *)
Lemma locate_injective chain : forall p q i offset,
  locate chain p = Some (i, offset) -> locate chain q = Some (i, offset) -> p = q.
Proof.
  induction chain as [| s chain IH]; intros p q i offset Hp Hq; [discriminate|].
  cbn [locate] in Hp, Hq.
  destruct (Z.ltb_spec p (segmentLength s)), (Z.ltb_spec q (segmentLength s)).
  - congruence.
  - destruct (locate chain (q - segmentLength s)) as [[j off]|]; congruence.
  - destruct (locate chain (p - segmentLength s)) as [[j off]|]; congruence.
  - destruct (locate chain (p - segmentLength s)) as [[j off]|] eqn:Hp'; [|discriminate].
    destruct (locate chain (q - segmentLength s)) as [[j' off']|] eqn:Hq'; [|discriminate].
    simplify_eq. pose proof (IH _ _ _ _ Hp' Hq'). lia.
Qed.

(** [setTag] on a run: the state afterwards. *)
Lemma setTag_run this row col tag i r offset :
  getContainingSegment (client this) (rowColToPosition row col) = Some (i, offset) ->
  client this !! i = Some (Run r) ->
  setTag row col tag this =
  (Return tt,
   set_client (<[i := Run (mkRun (run_base r) (items r) (Array.set (tags r) offset tag))]>
                 (client this)) this).
Proof.
  intros Hloc Hi. unfold setTag. unfold mbind at 1, M_bind at 1.
  rewrite (getSegment_eq this row col i (Run r) offset Hloc Hi). reflexivity.
Qed.

(** [setTag] changes the matrix on a run only. *)
Lemma setTag_not_run this row col tag :
  (forall i r offset,
     getContainingSegment (client this) (rowColToPosition row col) = Some (i, offset) ->
     client this !! i <> Some (Run r)) ->
  exec (setTag row col tag) this = this.
Proof.
  intros Hnot. unfold setTag, getSegment, exec. run_monad.
  destruct (getContainingSegment (client this) (rowColToPosition row col))
    as [[i offset]|] eqn:Hloc; [|reflexivity].
  destruct (client this !! i) as [[p | r]|] eqn:Hi; [| |reflexivity].
  - destruct (is_undefined tag); reflexivity.
  - exfalso. exact (Hnot i r offset eq_refl Hi).
Qed.

(** Property X13 (frame of [setTag]).  Whatever [setTag] does, the
    extent is as before, [getItem] has the same outcome at every cell, and
    [getTag] has the same outcome at every cell of another linear
    position. *)
Theorem setTag_frame this row col tag :
  let this' := exec (setTag row col tag) this in
  getLength (client this') = getLength (client this)
  /\ (forall r c, eval (getItem r c) this' = eval (getItem r c) this)
  /\ (forall r c, rowColToPosition r c <> rowColToPosition row col ->
        eval (getTag r c) this' = eval (getTag r c) this).
Proof.
  intros this'.
  destruct (getContainingSegment (client this) (rowColToPosition row col))
    as [[i offset]|] eqn:Hloc.
  2: { assert (Hsame : this' = this).
       { apply setTag_not_run. intros; congruence. }
       rewrite Hsame. split_and!; reflexivity. }
  destruct (client this !! i) as [[p | r]|] eqn:Hi.
  1, 3: assert (Hsame : this' = this)
          by (apply setTag_not_run; intros i' r' off' Hloc'; rewrite Hloc in Hloc';
              injection Hloc' as <- <-; congruence);
        rewrite Hsame; split_and!; reflexivity.
  set (r' := mkRun (run_base r) (items r) (Array.set (tags r) offset tag)).
  assert (Hthis' : this' = set_client (<[i := Run r']> (client this)) this).
  { unfold this', exec. rewrite (setTag_run this row col tag i r offset Hloc Hi). reflexivity. }
  assert (Hlocate : forall q, getContainingSegment (client this') q
                              = getContainingSegment (client this) q).
  { intros q. rewrite Hthis'. unfold getContainingSegment. cbn [client set_client].
    rewrite (locate_insert_same_length _ i (Run r) (Run r')); [reflexivity | assumption | reflexivity]. }
  assert (Hlookup : forall j, client this' !! j =
                              if decide (i = j) then Some (Run r') else client this !! j).
  { intros j. rewrite Hthis'. cbn [client set_client].
    destruct (decide (i = j)) as [<- | Hne].
    - apply list_lookup_insert_eq. eapply lookup_lt_Some; eassumption.
    - apply list_lookup_insert_ne; assumption. }
  split_and!.
  - rewrite Hthis'. cbn [client set_client].
    clear -Hi. revert i Hi. generalize (client this) as chain.
    induction chain as [| s0 chain IH]; intros i Hi; [reflexivity|].
    destruct i as [| i]; cbn in Hi |- *.
    + injection Hi as ->. reflexivity.
    + f_equal. apply IH. exact Hi.
  - intros r0 c0. unfold getItem, getSegment, eval. run_monad.
    rewrite Hlocate.
    destruct (getContainingSegment (client this) (rowColToPosition r0 c0))
      as [[j off]|]; [|reflexivity].
    rewrite Hlookup. destruct (decide (i = j)) as [<- | Hne].
    + rewrite Hi. reflexivity.
    + destruct (client this !! j) as [[p0 | r1]|]; reflexivity.
  - intros r0 c0 Hpos. unfold getTag, getSegment, eval. run_monad.
    rewrite Hlocate.
    destruct (getContainingSegment (client this) (rowColToPosition r0 c0))
      as [[j off]|] eqn:Hloc0; [|reflexivity].
    rewrite Hlookup. destruct (decide (i = j)) as [<- | Hne].
    + rewrite Hi. cbn. unfold RunSegment_getTag. cbn [tags r'].
      rewrite get_set_other; [reflexivity|].
      intros ->. apply Hpos.
      unfold getContainingSegment in Hloc, Hloc0.
      destruct (rowColToPosition r0 c0 <? 0); [discriminate|].
      destruct (rowColToPosition row col <? 0); [discriminate|].
      eapply locate_injective; eassumption.
    + destruct (client this !! j) as [[p0 | r1]|]; reflexivity.
Qed.

(** With more fuel the loop gives the same result. *)
Lemma moveAsPadding_rows_fuel `{MergeTreeConstants} fuel :
  forall extra removeColStart removeColEnd destCol numCols r rowStart this this',
    moveAsPadding_rows fuel removeColStart removeColEnd destCol numCols r rowStart this
      = Some this' ->
    moveAsPadding_rows (fuel + extra) removeColStart removeColEnd destCol numCols r rowStart this
      = Some this'.
Proof.
  induction fuel as [| fuel IH]; intros extra rs re d n r rowStart this this' Hrun.
  - cbn [moveAsPadding_rows] in Hrun.
    destruct (r <? numRows this) eqn:Hr; [discriminate|].
    destruct (0 + extra)%nat; cbn [moveAsPadding_rows]; rewrite Hr; assumption.
  - cbn [moveAsPadding_rows Nat.add] in Hrun |- *.
    destruct (r <? numRows this); [|assumption].
    apply IH. exact Hrun.
Qed.

Section Reachable.
Context `{MergeTreeConstants}.

Lemma moveAsPadding_any_fuel this src dest n fuel this' :
  well_formed this = true ->
  0 <= src -> 0 <= dest -> 0 <= n -> src + n <= maxCols -> dest + n <= maxCols ->
  moveAsPadding fuel src dest n this = Some this' ->
  well_formed this' = true.
Proof.
  intros Hwf Hsrc Hdest Hn Hs Hd Hrun.
  pose proof (numRows_safe this Hwf) as HR.
  pose proof maxCols_eq as HM.
  assert (0 <= numRows this).
  { rewrite HR. apply Z.div_pos; [|lia]. apply getLength_nonneg.
    apply wf_chain_inv in Hwf as [Hsegs _]. exact Hsegs. }
  destruct (moveAsPadding_views this src dest n (fuel + Z.to_nat (numRows this)) Hwf
              Hsrc Hdest Hn Hs Hd ltac:(lia)) as (this'' & Hrun' & Hwf'' & _).
  unfold moveAsPadding in *.
  rewrite (moveAsPadding_rows_fuel fuel _ _ _ _ _ _ _ _ _ Hrun) in Hrun'.
  injection Hrun' as <-. exact Hwf''.
Qed.

(** Property X21 (the invariant is kept).  Every matrix reached from an
    empty one through [setItems], [setTag], [insertRows], [removeRows],
    [insertCols] and [removeCols], called inside the matrix, is well formed:
    its extent is a safe integer, and every run of its chain has as many
    tags as values, and that length. *)
Theorem reachable_well_formed this :
  reachable this ->
  well_formed this = true
  /\ getLength (client this) <= Number.MAX_SAFE_INTEGER
  /\ forall r, In (Run r) (client this) ->
       cachedLength (run_base r) = Z.of_nat (length (items r))
       /\ length (tags r) = length (items r).
Proof.
  intros Hreach.
  assert (Hwf : well_formed this = true).
  { pose proof maxCol_eq as HC. pose proof maxCols_eq as HM.
    pose proof MAX_SAFE_INTEGER_eq as HS.
    induction Hreach.
    - reflexivity.
    - apply well_formed_setItems; assumption.
    - apply well_formed_setTag; assumption.
    - apply well_formed_insertRows; assumption.
    - apply well_formed_removeRows; assumption.
    - unfold insertCols in *. rewrite sub_safe in * by lia.
      eapply moveAsPadding_any_fuel; [exact IHHreach | ..| eassumption]; lia.
    - unfold removeCols in *. rewrite sub_safe in * by lia.
      eapply moveAsPadding_any_fuel; [exact IHHreach | ..| eassumption]; lia. }
  split; [exact Hwf|].
  apply wf_chain_inv in Hwf as [Hsegs HL]. split; [lia|].
  intros r Hin. rewrite forallb_forall in Hsegs.
  apply Hsegs in Hin. apply wf_run_inv in Hin as (Hlen & Htags & _).
  split; [assumption | lia].
Qed.

End Reachable.

(** ** Addressing *)

(** Property X1 (a position names one cell).  For a linear position that
    is a safe integer, [positionToRowCol] returns the quotient and the
    remainder of the division by [maxCols]: the row is not negative, the
    column lies in [0, maxCol], and [rowColToPosition] at that row and
    column gives the position back. *)
Theorem positionToRowCol_safe position :
  0 <= position <= Number.MAX_SAFE_INTEGER ->
  let rc := positionToRowCol position in
  row rc = position / maxCols
  /\ col rc = position mod maxCols
  /\ 0 <= row rc /\ 0 <= col rc <= maxCol
  /\ rowColToPosition (row rc) (col rc) = position.
Proof.
  intros Hp. pose proof maxCols_eq as HM. pose proof maxCol_eq as HC.
  pose proof MAX_SAFE_INTEGER_eq as HS.
  pose proof (Z.div_mod position maxCols ltac:(lia)) as Hdm.
  pose proof (Z.mod_pos_bound position maxCols ltac:(lia)) as Hmod.
  assert (Hdiv : 0 <= position / maxCols) by (apply Z.div_pos; lia).
  assert (Hrow : Number.floor_div position maxCols = position / maxCols)
    by (apply floor_div_safe; lia).
  assert (Hcol : Number.sub position (Number.mul (position / maxCols) maxCols)
                 = position mod maxCols).
  { rewrite mul_safe by nia. rewrite sub_safe by nia. lia. }
  unfold positionToRowCol. cbn [row col]. rewrite Hrow, Hcol.
  split_and!; try lia.
  rewrite rowColToPosition_safe by nia. lia.
Qed.

(** Property X3 (columns are not checked).  [rowColToPosition] does not
    bound the column: column [col + maxCols] of a row is column [col] of the
    next row, so [getItem], [getTag] and [setTag] at the one behave as at the
    other, in every matrix. *)
Theorem rowColToPosition_column_overflow row_ col_ :
  0 <= row_ -> 0 <= col_ ->
  (row_ + 1) * maxCols + col_ <= Number.MAX_SAFE_INTEGER ->
  rowColToPosition row_ (col_ + maxCols) = rowColToPosition (row_ + 1) col_
  /\ forall this,
       getItem row_ (col_ + maxCols) this = getItem (row_ + 1) col_ this
       /\ getTag row_ (col_ + maxCols) this = getTag (row_ + 1) col_ this
       /\ forall tag, setTag row_ (col_ + maxCols) tag this = setTag (row_ + 1) col_ tag this.
Proof.
  intros Hrow Hcol Hsafe. pose proof maxCols_eq as HM.
  assert (Hpos : rowColToPosition row_ (col_ + maxCols) = rowColToPosition (row_ + 1) col_).
  { rewrite !rowColToPosition_safe by nia. lia. }
  split; [exact Hpos|]. intros this.
  unfold getItem, getTag, setTag, getSegment. rewrite Hpos.
  split_and!; reflexivity.
Qed.

(** ** Serialized segments *)

Section Serialized.
Context `{MergeTreeConstants}.

(** Property X4 (dispatch of [segmentFromSpec]).  A serialized segment
    with a [pad] key gives padding of that length, whether or not it also has
    an [items] key; one with [items] and no [pad] gives a run of these values
    with as many tags, all [undefined]; anything else throws
    [UnrecognizedSegment].  A segment that is returned carries the universal
    sequence number and the local client id, and no local reference. *)
Theorem segmentFromSpec_dispatch spec :
  match spec with
  | Some (mkJSON (Some pad) _ _) =>
      exists p, segmentFromSpec spec = Return (Padding p)
                /\ cachedLength (pad_base p) = pad
  | Some (mkJSON None (Some values) _) =>
      exists r, segmentFromSpec spec = Return (Run r)
                /\ items r = values
                /\ tags r = replicate (length values) Undefined
                /\ cachedLength (run_base r) = Z.of_nat (length values)
  | _ => segmentFromSpec spec = Throw UnrecognizedSegment
  end
  /\ forall s, segmentFromSpec spec = Return s ->
       seq (base s) = Some UniversalSequenceNumber
       /\ clientId (base s) = Some LocalClientId
       /\ localRefs (base s) = [].
Proof.
  unfold segmentFromSpec, PaddingSegment_fromJSONObject, RunSegment_fromJSONObject.
  destruct spec as [[[pad|] [values|] [props|]]|]; cbn;
    (split; [try (eexists; split_and!; reflexivity); reflexivity
            | intros s Hs; try discriminate; injection Hs as <-; split_and!; reflexivity]).
Qed.

(** Property X5 (padding round trip).  [segmentFromSpec] applied to the
    serialized form of a padding segment returns padding with the same length
    and properties, which serializes to the same form. *)
Theorem PaddingSegment_json_round_trip this :
  exists p,
    segmentFromSpec (Some (PaddingSegment_toJSONObject this)) = Return (Padding p)
    /\ cachedLength (pad_base p) = cachedLength (pad_base this)
    /\ properties (pad_base p) = properties (pad_base this)
    /\ PaddingSegment_toJSONObject p = PaddingSegment_toJSONObject this.
Proof.
  unfold segmentFromSpec, PaddingSegment_fromJSONObject.
  cbn [PaddingSegment_toJSONObject json_pad json_items json_props].
  destruct (properties (pad_base this)) as [props|] eqn:Hprops; eexists;
    (split; [reflexivity|]); unfold PaddingSegment_toJSONObject; cbn; rewrite ?Hprops.
  - assert (Hunion : props ∪ (∅ : gmap string UnboxedOper) = props) by apply (right_id_L ∅ (∪)).
    rewrite Hunion. split_and!; reflexivity.
  - split_and!; reflexivity.
Qed.

End Serialized.

(** ** Padding segments *)

(** Property X6 (padding: append undoes split).  For padding whose
    length is a safe integer (at most [2^53 - 1]): splitting it at
    [0 <= pos <= length] leaves [pos] positions, returns a sibling with the
    remaining ones, the provenance of the original and no properties; and
    appending the sibling gives the original segment back. *)
Theorem PaddingSegment_split_append this pos :
  0 <= pos <= cachedLength (pad_base this) ->
  cachedLength (pad_base this) <= Number.MAX_SAFE_INTEGER ->
  exists leaf this',
    PaddingSegment_createSplitSegmentAt pos this = (Return leaf, this')
    /\ cachedLength (pad_base this') = pos
    /\ cachedLength (pad_base leaf) = cachedLength (pad_base this) - pos
    /\ seq (pad_base leaf) = seq (pad_base this)
    /\ clientId (pad_base leaf) = clientId (pad_base this)
    /\ properties (pad_base leaf) = None
    /\ PaddingSegment_append (Matrix (Padding leaf)) this' = (Return tt, this).
Proof.
  intros Hpos Hsafe. pose proof MAX_SAFE_INTEGER_eq as HS.
  rewrite PaddingSegment_createSplitSegmentAt_eq.
  eexists _, _. split; [reflexivity|]. cbn.
  rewrite sub_safe by lia.
  split_and!; try reflexivity.
  unfold PaddingSegment_append. cbn. run_monad. cbn.
  rewrite add_safe by lia.
  destruct this as [[len s c props refs]].
  unfold set_cachedLength, appendLocalRefs. cbn in *.
  rewrite app_nil_r. do 3 f_equal. lia.
Qed.

(** Property X7 (padding: removeRange).  For padding whose length is a
    safe integer (at most [2^53 - 1]): removing [start, end) with
    [0 <= start <= end <= length] shortens it by [end - start], keeps provenance and
    properties, and returns [true] exactly when the whole segment was
    removed. *)
Theorem PaddingSegment_removeRange_spec this start end_ :
  0 <= start <= end_ -> end_ <= cachedLength (pad_base this) ->
  cachedLength (pad_base this) <= Number.MAX_SAFE_INTEGER ->
  exists detach this',
    PaddingSegment_removeRange start end_ this = (Return detach, this')
    /\ cachedLength (pad_base this') = cachedLength (pad_base this) - (end_ - start)
    /\ (detach = true <-> start = 0 /\ end_ = cachedLength (pad_base this))
    /\ seq (pad_base this') = seq (pad_base this)
    /\ clientId (pad_base this') = clientId (pad_base this)
    /\ properties (pad_base this') = properties (pad_base this).
Proof.
  intros Hrange Hend Hsafe. pose proof MAX_SAFE_INTEGER_eq as HS.
  rewrite PaddingSegment_removeRange_eq. cbv zeta.
  rewrite (sub_safe end_ start) by lia. rewrite sub_safe by lia.
  eexists _, _. split; [reflexivity|]. cbn.
  split_and!; try reflexivity.
  rewrite Z.eqb_eq. lia.
Qed.

(** ** Run segments *)

Lemma slice_range {A} (l : list A) start end_ :
  0 <= start <= end_ -> end_ <= Z.of_nat (length l) ->
  Array.slice l start (Some end_) = take (Z.to_nat (end_ - start)) (drop (Z.to_nat start) l).
Proof.
  intros Hs He. unfold Array.slice, Array.relative_index.
  destruct (Z.ltb_spec start 0); [lia|].
  destruct (Z.ltb_spec end_ 0); [lia|].
  rewrite !Z.min_l by lia. f_equal. lia.
Qed.

(** Property X8 (a run honours the range of [clone]).  For a run that
    satisfies the invariant and [0 <= start <= end <= length], the clone holds
    the values and the tags of [start, end), cell by cell, satisfies the
    invariant, and carries the provenance and properties of the original. *)
Theorem RunSegment_clone_range this start end_ :
  run_invariant this = true ->
  0 <= start <= end_ -> end_ <= cachedLength (run_base this) ->
  let b := RunSegment_clone this start (Some end_) in
  run_invariant b = true
  /\ cachedLength (run_base b) = end_ - start
  /\ items b = take (Z.to_nat (end_ - start)) (drop (Z.to_nat start) (items this))
  /\ tags b = take (Z.to_nat (end_ - start)) (drop (Z.to_nat start) (tags this))
  /\ (forall j, 0 <= j < end_ - start ->
        Array.get (items b) j = Array.get (items this) (start + j)
        /\ RunSegment_getTag b j = RunSegment_getTag this (start + j))
  /\ seq (run_base b) = seq (run_base this)
  /\ clientId (run_base b) = clientId (run_base this)
  /\ properties (run_base b) = properties (run_base this).
Proof.
  intros Hinv Hrange Hend b. apply run_invariant_inv in Hinv as (Hlen & Htags).
  assert (Hitems : items b = take (Z.to_nat (end_ - start)) (drop (Z.to_nat start) (items this))).
  { unfold b, RunSegment_clone. cbn. apply slice_range; lia. }
  assert (Htagsb : tags b = take (Z.to_nat (end_ - start)) (drop (Z.to_nat start) (tags this))).
  { unfold b, RunSegment_clone. cbn. apply slice_range; lia. }
  assert (Hlenb : cachedLength (run_base b) = Z.of_nat (length (items b))).
  { unfold b, RunSegment_clone. reflexivity. }
  assert (Hcount : Z.of_nat (length (items b)) = end_ - start).
  { rewrite Hitems, length_take, length_drop. lia. }
  split_and!; try assumption; try reflexivity.
  - unfold run_invariant. rewrite Hlenb, Htagsb, Hitems.
    rewrite !length_take, !length_drop, Htags.
    rewrite !Z.eqb_refl. reflexivity.
  - intros j Hj. unfold RunSegment_getTag, Array.get. rewrite Hitems, Htagsb.
    destruct (Z.ltb_spec j 0); [lia|]. destruct (Z.ltb_spec (start + j) 0); [lia|].
    rewrite !lookup_take, !lookup_drop.
    destruct (decide (Z.to_nat j < Z.to_nat (end_ - start))%nat); [|lia].
    replace (Z.to_nat start + Z.to_nat j)%nat with (Z.to_nat (start + j)) by lia.
    split; reflexivity.
Qed.

(** Property X9 (a run removes tags with values).  For a run that
    satisfies the invariant, [removeRange] of a range it holds removes that
    range from the tags as from the values, so that the invariant is kept,
    and returns [true] exactly when the whole run was removed. *)
Theorem RunSegment_removeRange_spec this start end_ :
  run_invariant this = true ->
  0 <= start <= end_ -> end_ <= cachedLength (run_base this) ->
  cachedLength (run_base this) <= Number.MAX_SAFE_INTEGER ->
  exists detach this',
    RunSegment_removeRange start end_ this = (Return detach, this')
    /\ run_invariant this' = true
    /\ items this' = take (Z.to_nat start) (items this) ++ drop (Z.to_nat end_) (items this)
    /\ tags this' = take (Z.to_nat start) (tags this) ++ drop (Z.to_nat end_) (tags this)
    /\ cachedLength (run_base this') = cachedLength (run_base this) - (end_ - start)
    /\ (detach = true <-> start = 0 /\ end_ = cachedLength (run_base this)).
Proof.
  intros Hinv Hrange Hend Hsafe. pose proof MAX_SAFE_INTEGER_eq as HS.
  apply run_invariant_inv in Hinv as (Hlen & Htags).
  rewrite RunSegment_removeRange_eq. cbv zeta.
  rewrite (sub_safe end_ start) by lia.
  rewrite !splice_delete by lia.
  replace (start + (end_ - start)) with end_ by lia.
  eexists _, _. split; [reflexivity|]. cbn.
  assert (Hcount : Z.of_nat (length (take (Z.to_nat start) (items this)
                                     ++ drop (Z.to_nat end_) (items this)))
                   = cachedLength (run_base this) - (end_ - start)).
  { rewrite length_app, length_take, length_drop. lia. }
  split_and!; try reflexivity.
  - unfold run_invariant. cbn.
    rewrite !length_app, !length_take, !length_drop, Htags.
    apply andb_true_intro. split; lia.
  - exact Hcount.
  - rewrite Z.eqb_eq, Hcount. lia.
Qed.

(** Property X10 (tags of a run).  For a run that satisfies the invariant
    and an array index [pos] ([0 <= pos < 2^32 - 1]): after
    [setTag pos tag], [getTag pos] returns [tag], every other offset reads
    as before and the values are untouched.  The offset is not checked
    against the run: the invariant is kept exactly when [pos] lies inside
    the run, and past its end the tag array grows to [pos + 1] entries. *)
Theorem RunSegment_setTag_spec this pos tag :
  run_invariant this = true -> 0 <= pos < Array.max_length ->
  let this' := exec (RunSegment_setTag pos tag) this in
  RunSegment_getTag this' pos = tag
  /\ (forall j, 0 <= j -> j <> pos -> RunSegment_getTag this' j = RunSegment_getTag this j)
  /\ items this' = items this
  /\ cachedLength (run_base this') = cachedLength (run_base this)
  /\ (run_invariant this' = true <-> pos < cachedLength (run_base this))
  /\ (cachedLength (run_base this) <= pos -> Z.of_nat (length (tags this')) = pos + 1).
Proof.
  intros Hinv [Hpos _] this'. apply run_invariant_inv in Hinv as (Hlen & Htags).
  assert (Htags' : tags this' = Array.set (tags this) pos tag) by reflexivity.
  assert (Hlength : Z.of_nat (length (tags this')) =
                    if pos <? cachedLength (run_base this)
                    then cachedLength (run_base this) else pos + 1).
  { rewrite Htags'. unfold Array.set.
    destruct (Z.ltb_spec pos 0); [lia|]. rewrite Htags, <- Hlen.
    destruct (Z.ltb_spec pos (cachedLength (run_base this))).
    - rewrite length_insert. lia.
    - rewrite !length_app, length_replicate. cbn. lia. }
  split_and!; try reflexivity.
  - unfold RunSegment_getTag. rewrite Htags'. apply get_set_same. exact Hpos.
  - intros j Hj Hne. unfold RunSegment_getTag. rewrite Htags'.
    apply get_set_other. congruence.
  - unfold run_invariant.
    change (items this') with (items this).
    change (cachedLength (run_base this')) with (cachedLength (run_base this)).
    rewrite Hlength, andb_true_iff, !Z.eqb_eq.
    destruct (Z.ltb_spec pos (cachedLength (run_base this))); lia.
  - intros Hout. rewrite Hlength.
    destruct (Z.ltb_spec pos (cachedLength (run_base this))); lia.
Qed.

(** Property X11 (a split past the end).  For [0 < pos <= 2^32 - 1] (a
    length an array can have) the split of a run that satisfies the
    invariant returns a sibling that satisfies it, and
    the values of both concatenated are the original values; the tag array of
    the segment is given length [pos], so the segment keeps the invariant
    exactly when [pos] does not exceed its length.  At or past the end the
    sibling is empty. *)
Theorem RunSegment_split_keeps_invariant this pos :
  run_invariant this = true -> 0 < pos <= Array.max_length ->
  exists leaf this',
    RunSegment_createSplitSegmentAt pos this = (Return (Some leaf), this')
    /\ run_invariant leaf = true
    /\ items this' ++ items leaf = items this
    /\ Z.of_nat (length (tags this')) = pos
    /\ (run_invariant this' = true <-> pos <= cachedLength (run_base this))
    /\ (cachedLength (run_base this) <= pos ->
        items leaf = [] /\ tags leaf = [] /\ items this' = items this).
Proof.
  intros Hinv [Hpos _]. apply run_invariant_inv in Hinv as (Hlen & Htags).
  rewrite RunSegment_createSplitSegmentAt_eq by assumption.
  eexists _, _. split; [reflexivity|]. cbn.
  rewrite !slice_from, slice_upto by lia.
  assert (Hsetlen : Z.of_nat (length (Array.set_length (tags this) pos)) = pos).
  { unfold Array.set_length. rewrite length_app, length_take, length_replicate. lia. }
  split_and!.
  - unfold run_invariant. cbn. rewrite !length_drop, Htags.
    apply andb_true_intro. split; lia.
  - apply take_drop.
  - exact Hsetlen.
  - unfold run_invariant. cbn. rewrite Hsetlen, length_take, andb_true_iff, !Z.eqb_eq. lia.
  - intros Hout. rewrite !drop_ge, take_ge by lia. split_and!; reflexivity.
Qed.

(** ** Cross-checks and concrete runs *)

(** The arithmetic of [Number] agrees with the binary64 operations of the
    Standard Library at the operands of the run above. *)
Example number_agrees_with_binary64 :
  Number.mul_SF maxRow maxCols = Some (Number.mul maxRow maxCols)
  /\ Number.add_SF (Number.mul maxRow maxCols) 1 = Some (rowColToPosition maxRow 1)
  /\ Number.floor_div_SF (rowColToPosition maxRow 1) maxCols
     = Some (Number.floor_div (rowColToPosition maxRow 1) maxCols)
  /\ Number.sub_SF (rowColToPosition maxRow 1) (Number.mul maxRow maxCols)
     = Some (col (positionToRowCol (rowColToPosition maxRow 1))).
Proof. vm_compute. split_and!; reflexivity. Qed.

Example number_agrees_on_samples : forallb numberAgrees numberSamples = true.
Proof. vm_compute. reflexivity. Qed.

(** Scenario 1 of the specification, in a matrix of two rows. *)
Example scenario_setItems_getItem :
  eval (getItem 0 0) twoRows = Return (Text "a")
  /\ eval (getItem 0 1) twoRows = Return (Text "b")
  /\ eval (getItem 0 2) twoRows = Return (Text "c")
  /\ eval (getItem 0 3) twoRows = Return Undefined.
Proof. vm_compute. split_and!; reflexivity. Qed.

(** Scenario 2: rows inserted into an empty matrix read as absent. *)
Example scenario_insertRows :
  numRows (insertRows 0 2 emptyMatrix) = 2
  /\ eval (getItem 0 0) (insertRows 0 2 emptyMatrix) = Return Undefined
  /\ eval (getItem 1 maxCol) (insertRows 0 2 emptyMatrix) = Return Undefined.
Proof. vm_compute. split_and!; reflexivity. Qed.

(** Scenario 3: a tag on a written cell, and on an untouched one. *)
Example scenario_setTag :
  eval (getTag 0 0) (exec (setTag 0 0 (Text "flag")) twoRows) = Return (Text "flag")
  /\ eval (setTag 0 3 (Text "flag")) twoRows = Throw InvalidTagTarget.
Proof. vm_compute. split_and!; reflexivity. Qed.

(** Outside the extent there is no segment to ask. *)
Example getItem_outside_extent :
  eval (getItem 2 0) twoRows = Throw TypeError
  /\ eval (getItem 0 1) (setItems 0 0 [Text "a"] None emptyMatrix) = Throw TypeError.
Proof. vm_compute. split_and!; reflexivity. Qed.

(** Closes a goal about concrete data by evaluation. *)
Ltac by_evaluation :=
  try clear; vm_compute;
  first [ reflexivity | discriminate | lia
        | intuition (discriminate || congruence) ].

(** The round trip on the matrix of two rows. *)
Lemma setItems_getItem_round_trip_witness :
  well_formed (insertRows 0 2 emptyMatrix) = true
  /\ 0 * maxCols + 0 + Z.of_nat (length [Text "a"; Text "b"; Text "c"])
     <= getLength (client (insertRows 0 2 emptyMatrix))
  /\ getItem 0 (0 + Z.of_nat 1) twoRows = (Return (Text "b"), twoRows)
  /\ getItem 1 5 twoRows = (Return Undefined, twoRows).
Proof.
  assert (Hwf : well_formed (insertRows 0 2 emptyMatrix) = true) by by_evaluation.
  assert (Hend : 0 * maxCols + 0 + Z.of_nat (length [Text "a"; Text "b"; Text "c"])
                 <= getLength (client (insertRows 0 2 emptyMatrix))) by by_evaluation.
  destruct (setItems_getItem_round_trip (insertRows 0 2 emptyMatrix) 0 0
              [Text "a"; Text "b"; Text "c"] None Hwf ltac:(lia) ltac:(lia) Hend)
    as (Hread & _ & Hblank).
  split_and!; [exact Hwf | exact Hend | |].
  - exact (Hread 1%nat (Text "b") eq_refl).
  - apply (Hblank ltac:(by_evaluation) 1 5); by_evaluation.
Defined.

(** Claim C1 as stated fails past the extent.  The matrix of two rows
    holds "a", "b", "c" written by [setItems 0 0]; no written run covers the
    cell [(2, 0)], which lies below the last row, and [getItem 2 0] does
    not return absent: there is no segment to read, and it throws. *)
Lemma getItem_untouched_past_extent :
  twoRows = setItems 0 0 [Text "a"; Text "b"; Text "c"] None (insertRows 0 2 emptyMatrix)
  /\ numRows twoRows = 2
  /\ eval (getItem 0 0) twoRows = Return (Text "a")
  /\ getLength (client twoRows) <= rowColToPosition 2 0
  /\ eval (getItem 2 0) twoRows = Throw TypeError
  /\ eval (getItem 2 0) twoRows <> Return Undefined.
Proof.
  split; [reflexivity|]. split_and!; by_evaluation.
Qed.

(** Claim C8 fails where the linear extent leaves the safe integers.
    [4294967293] rows are fewer than [maxRows]; the size
    [maxCols * 4294967293 = 9007203543416829] of their padding exceeds 2^53
    and rounds to [9007203543416828], one position short of the last row, so
    that [insertRows 0 4294967293] gives an empty matrix [4294967292] rows.
    Likewise [removeRows 0 3] takes four rows of a matrix of [maxRows]
    rows. *)
Theorem numRows_insertRows_rounds :
  0 <= 4294967293 <= maxRows
  /\ numRows emptyMatrix = 0
  /\ maxCols * 4294967293 = 9007203543416829
  /\ Number.mul maxCols 4294967293 = 9007203543416828
  /\ getLength (client (insertRows 0 4294967293 emptyMatrix)) = 9007203543416828
  /\ numRows (insertRows 0 4294967293 emptyMatrix) = 4294967292
  /\ numRows (insertRows 0 4294967293 emptyMatrix) <> numRows emptyMatrix + 4294967293
  /\ numRows (insertRows 0 maxRows emptyMatrix) = maxRows
  /\ numRows (removeRows 0 3 (insertRows 0 maxRows emptyMatrix)) = maxRows - 4
  /\ numRows (removeRows 0 3 (insertRows 0 maxRows emptyMatrix))
     <> numRows (insertRows 0 maxRows emptyMatrix) - 3.
Proof.
  split; [by_evaluation|]. split_and!; by_evaluation.
Qed.

(** Claim C7 as stated fails for the columns at the tail of a row: the
    value "x" at column [maxCol - 1 >= 0] is among those [insertCols 0 1]
    gives up, and column [maxCol - 1 + 1] reads as absent afterwards. *)
Lemma insertCols_tail_column_lost :
  exists this',
    well_formed tailCell = true /\ numRows tailCell = 1
    /\ 0 <= maxCol - 1 <= maxCol
    /\ insertCols (H := mergeTreeConstants) 1 0 1 tailCell = Some this'
    /\ eval (getItem 0 (maxCol - 1)) tailCell = Return (Text "x")
    /\ eval (getItem 0 (maxCol - 1 + 1)) this' = Return Undefined
    /\ eval (getItem 0 (maxCol - 1 + 1)) this' <> eval (getItem 0 (maxCol - 1)) tailCell.
Proof.
  eexists. split_and!; by_evaluation.
Qed.

(** Two columns inserted at column 1 of the matrix of two rows. *)
Lemma insertCols_column_shift_witness :
  well_formed twoRows = true /\ 1 + 2 <= maxCol /\ numRows twoRows <= Z.of_nat 2
  /\ exists this',
       insertCols (H := mergeTreeConstants) 2 1 2 twoRows = Some this'
       /\ getItem 0 0 this' = (eval (getItem 0 0) twoRows, this')
       /\ getItem 0 (1 + 2) this' = (eval (getItem 0 1) twoRows, this')
       /\ getItem 1 2 this' = (Return Undefined, this').
Proof.
  assert (Hwf : well_formed twoRows = true) by by_evaluation.
  assert (Hcn : 1 + 2 <= maxCol) by by_evaluation.
  assert (Hfuel : numRows twoRows <= Z.of_nat 2) by by_evaluation.
  destruct (insertCols_column_shift (H := mergeTreeConstants) twoRows 1 2 2
              Hwf ltac:(lia) ltac:(lia) Hcn Hfuel) as (this' & Heq & Hrows).
  split_and!; [exact Hwf | exact Hcn | exact Hfuel |].
  exists this'. split; [exact Heq|].
  destruct (Hrows 0 ltac:(by_evaluation)) as (Hbelow & Hshift & _).
  destruct (Hrows 1 ltac:(by_evaluation)) as (_ & _ & Hnew).
  split_and!.
  - apply Hbelow. lia.
  - apply Hshift. by_evaluation.
  - apply Hnew. lia.
Defined.

(** Three rows inserted into, and one row removed from, the matrix of two rows. *)
Lemma numRows_insertRows_removeRows_run :
  well_formed twoRows = true
  /\ numRows twoRows = getLength (client twoRows) / maxCols
  /\ numRows (insertRows 1 3 twoRows) = numRows twoRows + 3
  /\ numRows (removeRows 1 1 twoRows) = numRows twoRows - 1.
Proof.
  assert (Hwf : well_formed twoRows = true) by by_evaluation.
  destruct (numRows_insertRows_removeRows twoRows Hwf) as (Hrows & Hins & Hrem).
  split_and!; [exact Hwf | exact Hrows | |].
  - apply (Hins 1 3); by_evaluation.
  - apply (Hrem 1 1); by_evaluation.
Defined.

(** A tag set on the written cell [(0, 1)] of the matrix of two rows. *)
Lemma setTag_spec_witness :
  eval (getSegment 0 1) twoRows
  = Return (0%nat, Run (new_RunSegment [Text "a"; Text "b"; Text "c"] None None), 1)
  /\ eval (setTag 0 1 (Text "flag")) twoRows = Return tt
  /\ eval (getTag 0 1) (exec (setTag 0 1 (Text "flag")) twoRows) = Return (Text "flag").
Proof.
  assert (Hseg : eval (getSegment 0 1) twoRows
                 = Return (0%nat, Run (new_RunSegment [Text "a"; Text "b"; Text "c"] None None), 1))
    by by_evaluation.
  destruct (setTag_spec twoRows 0 1 (Text "flag") _ _ _ Hseg) as (_ & Hset & _ & Hget).
  split_and!; [exact Hseg | exact Hset | exact Hget].
Defined.

(** The tagged run split after its first cell. *)
Lemma RunSegment_split_law_witness :
  run_invariant taggedRun = true /\ 0 < 1 < cachedLength (run_base taggedRun)
  /\ exists left_ right_,
       RunSegment_createSplitSegmentAt 1 taggedRun = (Return (Some right_), left_)
       /\ items left_ ++ items right_ = items taggedRun
       /\ tags left_ ++ tags right_ = tags taggedRun
       /\ seq (run_base right_) = seq (run_base taggedRun)
       /\ clientId (run_base right_) = clientId (run_base taggedRun).
Proof.
  assert (Hwf : run_invariant taggedRun = true) by by_evaluation.
  assert (Hk : 0 < 1 < cachedLength (run_base taggedRun)) by by_evaluation.
  destruct (RunSegment_split_law taggedRun 1 Hwf Hk)
    as (left_ & right_ & Hsplit & Hitems & Htags & Hseq & Hclient & _).
  split; [exact Hwf|]. split; [exact Hk|].
  exists left_, right_. split_and!; assumption.
Defined.

(** A run appended to the tagged run. *)
Lemma RunSegment_append_law_witness :
  run_invariant taggedRun = true
  /\ RunSegment_canAppend taggedRun (Matrix (Run otherRun)) = true
  /\ exists a',
       RunSegment_append (Matrix (Run otherRun)) taggedRun = (Return tt, a')
       /\ items a' = items taggedRun ++ items otherRun
       /\ tags a' = tags taggedRun ++ tags otherRun.
Proof.
  assert (Hwf : run_invariant taggedRun = true) by by_evaluation.
  assert (Hcan : RunSegment_canAppend taggedRun (Matrix (Run otherRun)) = true) by by_evaluation.
  destruct (RunSegment_append_law taggedRun (Matrix (Run otherRun)) Hwf Hcan)
    as (b & a' & Hb & Happend & Hitems & Htags & _).
  injection Hb as <-.
  split_and!; [exact Hwf | exact Hcan |].
  exists a'. split_and!; assumption.
Defined.

(** Padding of length 4, then a run, appended to padding of length 5. *)
Lemma PaddingSegment_append_spec_witness :
  PaddingSegment_is (Matrix (Padding (new_PaddingSegment 4 None None))) = true
  /\ cachedLength (pad_base (exec (PaddingSegment_append
                                     (Matrix (Padding (new_PaddingSegment 4 None None))))
                                  somePadding)) = 5 + 4
  /\ PaddingSegment_append (Matrix (Run taggedRun)) somePadding
     = (Throw InvalidAppend, somePadding).
Proof.
  destruct (PaddingSegment_append_spec somePadding
              (Matrix (Padding (new_PaddingSegment 4 None None)))) as (_ & Hok & _).
  destruct (PaddingSegment_append_spec somePadding (Matrix (Run taggedRun))) as (_ & _ & Hfail).
  split_and!; [reflexivity | | exact (Hfail eq_refl)].
  destruct (Hok eq_refl) as (_ & _ & Hsum).
  apply Hsum; by_evaluation.
Defined.

(** ** Concrete runs of the properties above *)

(** The tagged cell of the matrix of two rows, and a cell below its last row. *)
Lemma reads_inside_and_past_extent_witness :
  well_formed taggedRows = true
  /\ (exists v t, getItem 0 1 taggedRows = (Return v, taggedRows)
                  /\ getTag 0 1 taggedRows = (Return t, taggedRows))
  /\ getItem 2 0 taggedRows = (Throw TypeError, taggedRows)
  /\ getTag 2 0 taggedRows = (Throw TypeError, taggedRows).
Proof.
  assert (Hwf : well_formed taggedRows = true) by by_evaluation.
  destruct (reads_inside_and_past_extent taggedRows 0 1 Hwf) as (Hin & _).
  destruct (reads_inside_and_past_extent taggedRows 2 0 Hwf) as (_ & Hout).
  split_and!; [exact Hwf | apply Hin; by_evaluation | apply Hout; by_evaluation..].
Defined.

(** A write over the tagged cell [(0, 1)]. *)
Lemma setItems_resets_tags_witness :
  well_formed taggedRows = true
  /\ 0 * maxCols + 1 + Z.of_nat (length [Boolean true]) <= getLength (client taggedRows)
  /\ eval (getTag 0 1) taggedRows = Return (Text "flag")
  /\ eval (getTag 0 (1 + Z.of_nat 0)) (setItems 0 1 [Boolean true] None taggedRows)
     = Return Undefined.
Proof.
  assert (Hwf : well_formed taggedRows = true) by by_evaluation.
  assert (Hend : 0 * maxCols + 1 + Z.of_nat (length [Boolean true])
                 <= getLength (client taggedRows)) by by_evaluation.
  destruct (setItems_resets_tags taggedRows 0 1 [Boolean true] None Hwf
              ltac:(lia) ltac:(lia) Hend) as (_ & Hreset & _).
  split_and!; [exact Hwf | exact Hend | by_evaluation |].
  unfold eval. rewrite (Hreset 0%nat ltac:(cbn; lia)). reflexivity.
Defined.

(** Three rows inserted above the tagged row. *)
Lemma insertRows_row_shift_witness :
  well_formed taggedRows = true
  /\ 0 <= 0 <= numRows taggedRows
  /\ getLength (client taggedRows) + 3 * maxCols <= Number.MAX_SAFE_INTEGER
  /\ numRows (insertRows 0 3 taggedRows) = numRows taggedRows + 3
  /\ readCell 1 1 (insertRows 0 3 taggedRows) = blankCell
  /\ readCell (0 + 3) 1 (insertRows 0 3 taggedRows) = readCell 0 1 taggedRows.
Proof.
  assert (Hwf : well_formed taggedRows = true) by by_evaluation.
  assert (Hr : 0 <= 0 <= numRows taggedRows) by by_evaluation.
  assert (Hsafe : getLength (client taggedRows) + 3 * maxCols <= Number.MAX_SAFE_INTEGER)
    by by_evaluation.
  destruct (insertRows_row_shift taggedRows 0 3 Hwf Hr ltac:(lia) Hsafe) as (Hrows & Hcells).
  destruct (Hcells 1 ltac:(by_evaluation)) as (_ & Hblank & Hshift).
  split; [exact Hwf|]. split; [exact Hr|]. split; [exact Hsafe|]. split; [exact Hrows|]. split.
  - apply Hblank. lia.
  - apply Hshift. by_evaluation.
Defined.

(** Two of the three inserted rows removed again. *)
Lemma removeRows_row_shift_witness :
  well_formed (insertRows 0 3 taggedRows) = true
  /\ 1 + 2 <= numRows (insertRows 0 3 taggedRows)
  /\ numRows (removeRows 1 2 (insertRows 0 3 taggedRows)) = numRows (insertRows 0 3 taggedRows) - 2
  /\ readCell 1 1 (removeRows 1 2 (insertRows 0 3 taggedRows))
     = readCell (1 + 2) 1 (insertRows 0 3 taggedRows).
Proof.
  assert (Hwf : well_formed (insertRows 0 3 taggedRows) = true) by by_evaluation.
  assert (Hrn : 1 + 2 <= numRows (insertRows 0 3 taggedRows)) by by_evaluation.
  destruct (removeRows_row_shift (insertRows 0 3 taggedRows) 1 2 Hwf ltac:(lia) ltac:(lia) Hrn)
    as (Hrows & Hcells).
  destruct (Hcells 1 ltac:(by_evaluation)) as (_ & Hshift).
  split_and!; [exact Hwf | exact Hrn | exact Hrows |].
  apply Hshift. by_evaluation.
Defined.

(** Three rows inserted below the tagged row, and removed. *)
Lemma removeRows_undoes_insertRows_witness :
  well_formed taggedRows = true
  /\ 0 <= 1 <= numRows taggedRows
  /\ getLength (client taggedRows) + 3 * maxCols <= Number.MAX_SAFE_INTEGER
  /\ getLength (client (removeRows 1 3 (insertRows 1 3 taggedRows)))
     = getLength (client taggedRows)
  /\ readCell 0 1 (removeRows 1 3 (insertRows 1 3 taggedRows)) = readCell 0 1 taggedRows.
Proof.
  assert (Hwf : well_formed taggedRows = true) by by_evaluation.
  assert (Hr : 0 <= 1 <= numRows taggedRows) by by_evaluation.
  assert (Hsafe : getLength (client taggedRows) + 3 * maxCols <= Number.MAX_SAFE_INTEGER)
    by by_evaluation.
  destruct (removeRows_undoes_insertRows taggedRows 1 3 Hwf Hr ltac:(lia) Hsafe)
    as (Hlen & Hcells).
  split; [exact Hwf|]. split; [exact Hr|]. split; [exact Hsafe|].
  split; [exact Hlen | apply Hcells].
Defined.

(** The first column removed from the tagged matrix. *)
Lemma removeCols_column_shift_witness :
  well_formed taggedRows = true /\ 0 + 1 <= maxCol /\ numRows taggedRows <= Z.of_nat 2
  /\ exists this',
       removeCols (H := mergeTreeConstants) 2 0 1 taggedRows = Some this'
       /\ readCell 0 0 this' = readCell 0 (0 + 1) taggedRows
       /\ readCell 1 (maxCol - 1) this' = blankCell
       /\ readCell 0 maxCol this' = readCell 0 maxCol taggedRows.
Proof.
  assert (Hwf : well_formed taggedRows = true) by by_evaluation.
  assert (Hcn : 0 + 1 <= maxCol) by by_evaluation.
  assert (Hfuel : numRows taggedRows <= Z.of_nat 2) by by_evaluation.
  destruct (removeCols_column_shift (H := mergeTreeConstants) taggedRows 0 1 2
              Hwf ltac:(lia) ltac:(lia) Hcn Hfuel) as (this' & Heq & _ & _ & Hrows).
  split_and!; [exact Hwf | exact Hcn | exact Hfuel |].
  exists this'. split; [exact Heq|].
  destruct (Hrows 0 ltac:(by_evaluation)) as (_ & Hshift & _ & Hlast).
  destruct (Hrows 1 ltac:(by_evaluation)) as (_ & _ & Hblank & _).
  split_and!.
  - apply Hshift. by_evaluation.
  - apply Hblank. by_evaluation.
  - exact Hlast.
Defined.

(** Two columns inserted at the tagged cell. *)
Lemma insertCols_moves_tags_witness :
  well_formed taggedRows = true /\ 1 + 2 <= maxCol /\ numRows taggedRows <= Z.of_nat 2
  /\ eval (getTag 0 1) taggedRows = Return (Text "flag")
  /\ exists this',
       insertCols (H := mergeTreeConstants) 2 1 2 taggedRows = Some this'
       /\ readCell 0 (1 + 2) this' = readCell 0 1 taggedRows
       /\ readCell 0 1 this' = blankCell.
Proof.
  assert (Hwf : well_formed taggedRows = true) by by_evaluation.
  assert (Hcn : 1 + 2 <= maxCol) by by_evaluation.
  assert (Hfuel : numRows taggedRows <= Z.of_nat 2) by by_evaluation.
  destruct (insertCols_moves_tags (H := mergeTreeConstants) taggedRows 1 2 2
              Hwf ltac:(lia) ltac:(lia) Hcn Hfuel) as (this' & Heq & Hrows).
  split_and!; [exact Hwf | exact Hcn | exact Hfuel | by_evaluation |].
  exists this'. split; [exact Heq|].
  destruct (Hrows 0 ltac:(by_evaluation)) as (_ & Hshift & Hblank & _).
  split.
  - apply Hshift. by_evaluation.
  - apply Hblank. lia.
Defined.


(** The tagged matrix is reached by [insertRows], [setItems] and [setTag]. *)
Lemma reachable_well_formed_witness :
  reachable (H := mergeTreeConstants) taggedRows
  /\ well_formed taggedRows = true
  /\ getLength (client taggedRows) <= Number.MAX_SAFE_INTEGER.
Proof.
  assert (Hreach : reachable (H := mergeTreeConstants) taggedRows).
  { unfold taggedRows, twoRows, emptyMatrix.
    apply reachable_setTag. apply reachable_setItems; [|by_evaluation..].
    apply reachable_insertRows; [|by_evaluation..].
    apply reachable_empty. }
  destruct (reachable_well_formed (H := mergeTreeConstants) taggedRows Hreach)
    as (Hwf & Hsafe & _).
  split_and!; [exact Hreach | exact Hwf | exact Hsafe].
Defined.

(** The position of cell [(3, 7)]. *)
Lemma positionToRowCol_safe_witness :
  0 <= 3 * maxCols + 7 <= Number.MAX_SAFE_INTEGER
  /\ row (positionToRowCol (3 * maxCols + 7)) = (3 * maxCols + 7) / maxCols
  /\ rowColToPosition (row (positionToRowCol (3 * maxCols + 7)))
                      (col (positionToRowCol (3 * maxCols + 7))) = 3 * maxCols + 7.
Proof.
  assert (Hp : 0 <= 3 * maxCols + 7 <= Number.MAX_SAFE_INTEGER) by by_evaluation.
  destruct (positionToRowCol_safe (3 * maxCols + 7) Hp) as (Hrow & _ & _ & _ & Hback).
  split; [exact Hp|]. split; [exact Hrow | exact Hback].
Defined.

(** The cell [(3, 5)]. *)
Lemma positionToRowCol_rowColToPosition_safe_witness :
  0 <= 5 <= maxCol /\ 3 * maxCols + 5 <= Number.MAX_SAFE_INTEGER
  /\ positionToRowCol (rowColToPosition 3 5) = {| row := 3; col := 5 |}.
Proof.
  assert (Hcol : 0 <= 5 <= maxCol) by by_evaluation.
  assert (Hsafe : 3 * maxCols + 5 <= Number.MAX_SAFE_INTEGER) by by_evaluation.
  split; [exact Hcol|]. split; [exact Hsafe|].
  exact (positionToRowCol_rowColToPosition_safe 3 5 ltac:(lia) Hcol Hsafe).
Defined.

(** Column [maxCols] of row 0 is column 0 of row 1. *)
Lemma rowColToPosition_column_overflow_witness :
  (0 + 1) * maxCols + 0 <= Number.MAX_SAFE_INTEGER
  /\ rowColToPosition 0 (0 + maxCols) = rowColToPosition (0 + 1) 0
  /\ getItem 0 (0 + maxCols) taggedRows = getItem (0 + 1) 0 taggedRows.
Proof.
  assert (Hsafe : (0 + 1) * maxCols + 0 <= Number.MAX_SAFE_INTEGER) by by_evaluation.
  destruct (rowColToPosition_column_overflow 0 0 ltac:(lia) ltac:(lia) Hsafe) as (Hpos & Hreads).
  destruct (Hreads taggedRows) as (Hitem & _).
  split_and!; [exact Hsafe | exact Hpos | exact Hitem].
Defined.

(** Padding of ten positions split after the fourth. *)
Lemma PaddingSegment_split_append_witness :
  0 <= 4 <= cachedLength (pad_base labelledPadding)
  /\ cachedLength (pad_base labelledPadding) <= Number.MAX_SAFE_INTEGER
  /\ exists leaf this',
       PaddingSegment_createSplitSegmentAt 4 labelledPadding = (Return leaf, this')
       /\ cachedLength (pad_base leaf) = cachedLength (pad_base labelledPadding) - 4
       /\ PaddingSegment_append (Matrix (Padding leaf)) this' = (Return tt, labelledPadding).
Proof.
  assert (Hpos : 0 <= 4 <= cachedLength (pad_base labelledPadding)) by by_evaluation.
  assert (Hsafe : cachedLength (pad_base labelledPadding) <= Number.MAX_SAFE_INTEGER)
    by by_evaluation.
  destruct (PaddingSegment_split_append labelledPadding 4 Hpos Hsafe)
    as (leaf & this' & Hsplit & _ & Hleaf & _ & _ & _ & Happend).
  split; [exact Hpos|]. split; [exact Hsafe|].
  exists leaf, this'. split_and!; assumption.
Defined.

(** The whole of the padding removed. *)
Lemma PaddingSegment_removeRange_spec_witness :
  0 <= 0 <= 10 /\ 10 <= cachedLength (pad_base labelledPadding)
  /\ cachedLength (pad_base labelledPadding) <= Number.MAX_SAFE_INTEGER
  /\ exists this', PaddingSegment_removeRange 0 10 labelledPadding = (Return true, this').
Proof.
  assert (Hrange : 0 <= 0 <= 10) by lia.
  assert (Hend : 10 <= cachedLength (pad_base labelledPadding)) by by_evaluation.
  assert (Hsafe : cachedLength (pad_base labelledPadding) <= Number.MAX_SAFE_INTEGER)
    by by_evaluation.
  destruct (PaddingSegment_removeRange_spec labelledPadding 0 10 Hrange Hend Hsafe)
    as (detach & this' & Hrem & _ & Hflag & _).
  split; [exact Hrange|]. split; [exact Hend|]. split; [exact Hsafe|].
  exists this'. rewrite Hrem.
  rewrite (proj2 Hflag ltac:(by_evaluation)). reflexivity.
Defined.

(** The last two cells of the tagged run. *)
Lemma RunSegment_clone_range_witness :
  run_invariant taggedRun = true /\ 0 <= 1 <= 3 /\ 3 <= cachedLength (run_base taggedRun)
  /\ run_invariant (RunSegment_clone taggedRun 1 (Some 3)) = true
  /\ RunSegment_getTag (RunSegment_clone taggedRun 1 (Some 3)) 1
     = RunSegment_getTag taggedRun (1 + 1).
Proof.
  assert (Hinv : run_invariant taggedRun = true) by by_evaluation.
  assert (Hrange : 0 <= 1 <= 3) by lia.
  assert (Hend : 3 <= cachedLength (run_base taggedRun)) by by_evaluation.
  destruct (RunSegment_clone_range taggedRun 1 3 Hinv Hrange Hend)
    as (Hinv' & _ & _ & _ & Hread & _).
  split; [exact Hinv|]. split; [exact Hrange|]. split; [exact Hend|].
  split; [exact Hinv'|]. apply (Hread 1). lia.
Defined.

(** The middle cell of the tagged run removed. *)
Lemma RunSegment_removeRange_spec_witness :
  run_invariant taggedRun = true /\ 0 <= 1 <= 2 /\ 2 <= cachedLength (run_base taggedRun)
  /\ cachedLength (run_base taggedRun) <= Number.MAX_SAFE_INTEGER
  /\ exists detach this',
       RunSegment_removeRange 1 2 taggedRun = (Return detach, this')
       /\ run_invariant this' = true
       /\ tags this' = take (Z.to_nat 1) (tags taggedRun) ++ drop (Z.to_nat 2) (tags taggedRun).
Proof.
  assert (Hinv : run_invariant taggedRun = true) by by_evaluation.
  assert (Hrange : 0 <= 1 <= 2) by lia.
  assert (Hend : 2 <= cachedLength (run_base taggedRun)) by by_evaluation.
  assert (Hsafe : cachedLength (run_base taggedRun) <= Number.MAX_SAFE_INTEGER) by by_evaluation.
  destruct (RunSegment_removeRange_spec taggedRun 1 2 Hinv Hrange Hend Hsafe)
    as (detach & this' & Hrem & Hinv' & _ & Htags & _).
  split; [exact Hinv|]. split; [exact Hrange|]. split; [exact Hend|]. split; [exact Hsafe|].
  exists detach, this'. split_and!; assumption.
Defined.

(** A tag inside the tagged run, and one past its end. *)
Lemma RunSegment_setTag_spec_witness :
  run_invariant taggedRun = true
  /\ RunSegment_getTag (exec (RunSegment_setTag 1 (Text "t1")) taggedRun) 1 = Text "t1"
  /\ run_invariant (exec (RunSegment_setTag 1 (Text "t1")) taggedRun) = true
  /\ Z.of_nat (length (tags (exec (RunSegment_setTag 5 (Text "t5")) taggedRun))) = 5 + 1.
Proof.
  assert (Hinv : run_invariant taggedRun = true) by by_evaluation.
  destruct (RunSegment_setTag_spec taggedRun 1 (Text "t1") Hinv ltac:(by_evaluation))
    as (Hget & _ & _ & _ & Hkeeps & _).
  destruct (RunSegment_setTag_spec taggedRun 5 (Text "t5") Hinv ltac:(by_evaluation))
    as (_ & _ & _ & _ & _ & Hgrows).
  split_and!; [exact Hinv | exact Hget | apply Hkeeps; by_evaluation | apply Hgrows; by_evaluation].
Defined.

(** The tagged run of three cells split at 5. *)
Lemma RunSegment_split_keeps_invariant_witness :
  run_invariant taggedRun = true
  /\ exists leaf this',
       RunSegment_createSplitSegmentAt 5 taggedRun = (Return (Some leaf), this')
       /\ Z.of_nat (length (tags this')) = 5
       /\ items this' = items taggedRun
       /\ run_invariant this' <> true.
Proof.
  assert (Hinv : run_invariant taggedRun = true) by by_evaluation.
  destruct (RunSegment_split_keeps_invariant taggedRun 5 Hinv ltac:(by_evaluation))
    as (leaf & this' & Hsplit & _ & _ & Hlen & Hiff & Hbeyond).
  split; [exact Hinv|].
  exists leaf, this'. split_and!; [exact Hsplit | exact Hlen | |].
  - apply Hbeyond. by_evaluation.
  - intros Hkept. apply Hiff in Hkept. revert Hkept. by_evaluation.
Defined.

(** Two writes into two blank rows, and a cell neither covers. *)
Lemma getItem_untouched_witness :
  getItem 1 5 (applyWrites [mkWrite 0 0 [Text "a"; Text "b"; Text "c"]; mkWrite 1 2 [Boolean true]]
                           (insertRows 0 2 emptyMatrix))
  = (Return Undefined,
     applyWrites [mkWrite 0 0 [Text "a"; Text "b"; Text "c"]; mkWrite 1 2 [Boolean true]]
                 (insertRows 0 2 emptyMatrix)).
Proof.
  apply getItem_untouched;
    [ by_evaluation | by_evaluation
    | repeat constructor; by_evaluation
    | lia | lia | by_evaluation
    | repeat constructor; unfold writeCovers; by_evaluation ].
Defined.
